(** * face-fit: the per-frame orchestration of [src/face-fit/main.cpp]

    A shallow embedding of the command-line driver of the face tracker:
    argument processing ([run_program]), the three mode drivers
    ([run_image_mode], [run_lists_mode], [run_video_mode]), the display
    routine ([display_image_and_points]) and the exception handlers of
    [main].

    The tracker, the image and video readers, the keyboard and the point
    writer are collaborators: the tracker is an interface (a type class),
    the others are fields of a [World].  Every call to a collaborator is
    recorded as an [Event]; the meaning of a run is its outcome together
    with the chronological list of events it produced. *)

From Stdlib Require Import ZArith String Ascii Lia Bool.
From Stdlib Require Import Floats.SpecFloat.
From Stdlib Require Import DecimalString DecimalNat.
From stdpp Require Import base list strings sets sorting.

Local Open Scope Z_scope.

(* ================================================================= *)
(** ** Machine integers *)

(** [int] is 32 bits wide.  Signed overflow is undefined in C++; the
    increments of the two counters are written with the wrap-around the
    usual targets give. *)
Definition INT_MAX : Z := 2147483647.
Definition int_wrap (z : Z) : Z := (z + 2 ^ 31) mod 2 ^ 32 - 2 ^ 31.
(** Conversion of an [int] to [unsigned int], as [%u] reads its argument. *)
Definition to_unsigned (z : Z) : Z := z mod 2 ^ 32.
(** Conversion of an [int] to [char] (signed, 8 bits). *)
Definition to_char (z : Z) : Z := (z + 128) mod 256 - 128.

(** [double] is IEEE 754 binary64, with the operations of the Standard
    Library's specification of floating-point arithmetic (rounding to
    nearest, ties to even).  The program stores doubles, divides 1.0 by
    30, compares [wait_time] with zero, scales it by 1000 and converts
    the product to [int]. *)
Definition double := spec_float.
Definition double_prec : Z := 53.
Definition double_emax : Z := 1024.
(** Conversion of an [int] to [double]: exact. *)
Definition double_of_int (z : Z) : double :=
  binary_normalize double_prec double_emax z 0 false.
Definition double_mul (a b : double) : double := SFmul double_prec double_emax a b.
Definition double_div (a b : double) : double := SFdiv double_prec double_emax a b.
(** [d == 0]: true of both zeros, false of NaN. *)
Definition double_is_zero (d : double) : bool := SFeqb d (double_of_int 0).
(** Conversion of a [double] to [int]: the value truncated towards zero.
    The conversion is undefined ([None]) when the truncated value is not
    in the range of [int], and for the infinities and NaN. *)
Definition double_to_int (d : double) : option Z :=
  match d with
  | S754_zero _ => Some 0
  | S754_finite s m e =>
      let magnitude := if 0 <=? e then Zpos m * 2 ^ e else Zpos m / 2 ^ (- e) in
      let v := if s then - magnitude else magnitude in
      if (- 2 ^ 31 <=? v) && (v <=? INT_MAX) then Some v else None
  | S754_infinity _ | S754_nan => None
  end.
(** [1.0 / 30] *)
Definition one_thirtieth : double := double_div (double_of_int 1) (double_of_int 30).

(* ================================================================= *)
(** ** Images and shapes *)

(** The part of [cv::Mat] the driver looks at: the two dimensions and the
    element type code; [pixels] stands for the buffer. *)
Record Mat := { rows : Z; cols : Z; type : Z; pixels : list Z }.

(** OpenCV's element type codes: [CV_MAKETYPE(depth, cn)]. *)
Definition CV_8U : Z := 0.
Definition CV_16U : Z := 2.
Definition CV_MAKETYPE (depth cn : Z) : Z := Z.land depth 7 + Z.shiftl (cn - 1) 3.
(** [cv::DataType<uint8_t>::type] and [cv::DataType<cv::Vec<uint8_t,3> >::type]. *)
Definition DataType_uint8 : Z := CV_MAKETYPE CV_8U 1.
Definition DataType_Vec_uint8_3 : Z := CV_MAKETYPE CV_8U 3.
(** [Mat::channels()] and [Mat::depth()]. *)
Definition channels (m : Mat) : Z := Z.shiftr (type m) 3 + 1.
Definition depth (m : Mat) : Z := Z.land (type m) 7.

(** The state of [cv::Mat image;] before anything is stored in it, and
    what [operator>>] leaves when the stream has no more frames. *)
Definition empty_Mat : Mat := {| rows := 0; cols := 0; type := 0; pixels := [] |}.

Record Point := { pt_x : double; pt_y : double }.
(** [std::vector<cv::Point_<double> >] *)
Definition Shape := list Point.

(** [cv::Scalar] as the driver builds it: missing components are zero. *)
Definition Scalar := (Z * Z * Z * Z)%type.

(* ================================================================= *)
(** ** Text *)

Definition show_nat (n : nat) : list ascii :=
  list_ascii_of_string (NilEmpty.string_of_uint (Nat.to_uint n)).

(** [%d] without flags. *)
Definition show_int (z : Z) : list ascii :=
  if z <? 0 then "-"%char :: show_nat (Z.to_nat (- z)) else show_nat (Z.to_nat z).

Definition show_int_s (z : Z) : string := string_of_list_ascii (show_int z).

(** *** The format strings of [snprintf]

    Video mode hands the user's landmarks argument to [snprintf] as the
    format.  The fragment modelled: ordinary characters, [%%], and
    conversions [%u], [%d], [%i] with an optional [0] flag and an
    optional decimal field width. *)
Inductive directive :=
| Lit (c : ascii)
| Conv (zero : bool) (width : nat) (signed : bool).

Inductive fstate :=
| Text
| Flags (zero : bool) (seen : bool)
| Width (zero : bool) (w : nat).

Definition digit_of (c : ascii) : option nat :=
  let n := nat_of_ascii c in
  if (48 <=? n)%nat && (n <=? 57)%nat then Some (n - 48)%nat else None.

Definition conversion_of (c : ascii) : option bool :=
  if Ascii.eqb c "u" then Some false
  else if Ascii.eqb c "d" || Ascii.eqb c "i" then Some true
  else None.

Fixpoint parse_format (st : fstate) (fmt : list ascii) : option (list directive) :=
  match fmt with
  | [] => match st with Text => Some [] | _ => None end
  | c :: rest =>
      match st with
      | Text =>
          if Ascii.eqb c "%" then parse_format (Flags false false) rest
          else cons (Lit c) <$> parse_format Text rest
      | Flags zero seen =>
          if Ascii.eqb c "%" && negb seen then cons (Lit c) <$> parse_format Text rest
          else if Ascii.eqb c "0" then parse_format (Flags true true) rest
          else match digit_of c, conversion_of c with
               | Some d, _ => parse_format (Width zero d) rest
               | None, Some sg => cons (Conv zero 0 sg) <$> parse_format Text rest
               | None, None => None
               end
      | Width zero w =>
          match digit_of c, conversion_of c with
          | Some d, _ => parse_format (Width zero (10 * w + d)%nat) rest
          | None, Some sg => cons (Conv zero w sg) <$> parse_format Text rest
          | None, None => None
          end
      end
  end.

Definition pad (c : ascii) (width : nat) (body : list ascii) : list ascii :=
  replicate (width - length body) c ++ body.

(** One conversion applied to the [int] argument [n]. *)
Definition render_conv (zero : bool) (width : nat) (signed : bool) (n : Z) : list ascii :=
  if signed && (n <? 0) then
    let digits := show_nat (Z.to_nat (- n)) in
    if zero then "-"%char :: pad "0" (width - 1) digits
    else pad " " width ("-"%char :: digits)
  else
    let digits := show_nat (Z.to_nat (if signed then n else to_unsigned n)) in
    pad (if zero then "0"%char else " "%char) width digits.

(** The formatted text; [None] when a second conversion asks for an
    argument that was not passed. *)
Fixpoint render (ds : list directive) (arg : option Z) : option (list ascii) :=
  match ds with
  | [] => Some []
  | Lit c :: ds' => cons c <$> render ds' arg
  | Conv zero width signed :: ds' =>
      match arg with
      | Some n => app (render_conv zero width signed n) <$> render ds' None
      | None => None
      end
  end.

(** The text that the format produces for the [int] argument [n],
    before any truncation. *)
Definition sprintf (format : string) (n : Z) : option (list ascii) :=
  ds ← parse_format Text (list_ascii_of_string format);
  render ds (Some n).

(** [snprintf(buf, size, format, n)] followed by reading [buf] as a C
    string: at most [size - 1] characters are kept. *)
Definition snprintf (size : nat) (format : string) (n : Z) : option string :=
  out ← sprintf format n;
  Some (string_of_list_ascii (take (size - 1) out)).

(** The number of conversions of a format. *)
Fixpoint slots (ds : list directive) : nat :=
  match ds with
  | [] => 0
  | Lit _ :: ds' => slots ds'
  | Conv _ _ _ :: ds' => S (slots ds')
  end.


Definition LF : string := String (ascii_of_nat 10) EmptyString.
Definition CR : string := String (ascii_of_nat 13) EmptyString.

(* ================================================================= *)
(** ** Events, outcomes and the monad of the driver *)

(** One [cv::circle] call of the display routine. *)
Record Circle := {
  centre : Point; radius : Z; colour : Scalar;
  thickness : Z; linetype : Z; shift : Z }.

Inductive Event :=
| EvStdout (text : string)
| EvStderr (text : string)
| EvLoadFaceTracker (pathname : string)
| EvLoadFaceTrackerParams (pathname : string)
| EvDelete
| EvReadList (pathname : string)
| EvLoadImage (pathname : string)
| EvOpenVideo (pathname : string)
| EvNextFrame (image : Mat)
| EvNewFrame (gray_image : Mat) (result : Z)
| EvTrack (gray_image : Mat) (result : Z)
| EvGetShape (shape : Shape)
| EvReset
| EvSavePts (pathname : string) (shape : Shape)
| EvImshow (title : string) (image : Mat) (circles : list Circle)
| EvWaitKey (delay : Z) (key : Z).

(** [class user_pressed_escape : public std::exception], and the
    [std::runtime_error] that [make_runtime_error] builds. *)
Inductive exn :=
| user_pressed_escape
| runtime_error (what : string).

(** How a computation ends: with a value, with a C++ exception in
    flight, or outside the defined behaviour of the language or of the
    modelled fragment of a library. *)
Inductive Outcome (A : Type) :=
| Ret (a : A)
| Throw (e : exn)
| Undefined.
Arguments Ret {A} a.
Arguments Throw {A} e.
Arguments Undefined {A}.

(** A run: the outcome, the events in the order they happened, and the
    number of [cv::waitKey] calls made so far. *)
Record Run (A : Type) := mkRun {
  outcome : Outcome A; events : list Event; presses : nat }.
Arguments mkRun {A} outcome events presses.
Arguments outcome {A} r.
Arguments events {A} r.
Arguments presses {A} r.

Definition M (A : Type) : Type := nat → Run A.

Definition ret {A} (a : A) : M A := λ k, mkRun (Ret a) [] k.

Definition bind {A B} (m : M A) (f : A → M B) : M B := λ k,
  let r := m k in
  match outcome r with
  | Ret a =>
      let r' := f a (presses r) in
      mkRun (outcome r') (events r ++ events r') (presses r')
  | Throw e => mkRun (Throw e) (events r) (presses r)
  | Undefined => mkRun Undefined (events r) (presses r)
  end.

Definition throw {A} (e : exn) : M A := λ k, mkRun (Throw e) [] k.
Definition undefined {A} : M A := λ k, mkRun Undefined [] k.
Definition emit (e : Event) : M unit := λ k, mkRun (Ret tt) [e] k.

(** [try { m } catch (...) { handler }] *)
Definition try_catch {A} (m : M A) (handler : exn → M A) : M A := λ k,
  let r := m k in
  match outcome r with
  | Throw e =>
      let r' := handler e (presses r) in
      mkRun (outcome r') (events r ++ events r') (presses r')
  | _ => r
  end.

Declare Scope driver_scope.
Delimit Scope driver_scope with driver.
Notation "x <- m ;; k" := (bind m (λ x, k))
  (at level 20, m at level 99, k at level 200, only parsing) : driver_scope.
Notation "' pat <- m ;; k" := (bind m (λ x, match x with pat => k end))
  (at level 20, pat pattern, m at level 99, k at level 200, only parsing) : driver_scope.
Notation "m ;; k" := (bind m (λ _, k))
  (at level 100, k at level 200, only parsing, right associativity) : driver_scope.
Local Open Scope driver_scope.

Definition when (b : bool) (m : M unit) : M unit := if b then m else ret tt.

(* ================================================================= *)
(** ** Configuration and command-line arguments *)

Record Configuration := {
  wait_time : double;
  model_pathname : string;
  params_pathname : string;
  tracking_threshold : Z;
  window_title : string;
  verbose : bool;
  circle_radius : Z;
  circle_thickness : Z;
  circle_linetype : Z;
  circle_shift : Z }.

Definition set_wait_time (cfg : Configuration) (v : double) : Configuration :=
  {| wait_time := v; model_pathname := model_pathname cfg;
     params_pathname := params_pathname cfg;
     tracking_threshold := tracking_threshold cfg;
     window_title := window_title cfg; verbose := verbose cfg;
     circle_radius := circle_radius cfg; circle_thickness := circle_thickness cfg;
     circle_linetype := circle_linetype cfg; circle_shift := circle_shift cfg |}.

Definition set_model_pathname (cfg : Configuration) (v : string) : Configuration :=
  {| wait_time := wait_time cfg; model_pathname := v;
     params_pathname := params_pathname cfg;
     tracking_threshold := tracking_threshold cfg;
     window_title := window_title cfg; verbose := verbose cfg;
     circle_radius := circle_radius cfg; circle_thickness := circle_thickness cfg;
     circle_linetype := circle_linetype cfg; circle_shift := circle_shift cfg |}.

Definition set_params_pathname (cfg : Configuration) (v : string) : Configuration :=
  {| wait_time := wait_time cfg; model_pathname := model_pathname cfg;
     params_pathname := v;
     tracking_threshold := tracking_threshold cfg;
     window_title := window_title cfg; verbose := verbose cfg;
     circle_radius := circle_radius cfg; circle_thickness := circle_thickness cfg;
     circle_linetype := circle_linetype cfg; circle_shift := circle_shift cfg |}.

Definition set_tracking_threshold (cfg : Configuration) (v : Z) : Configuration :=
  {| wait_time := wait_time cfg; model_pathname := model_pathname cfg;
     params_pathname := params_pathname cfg;
     tracking_threshold := v;
     window_title := window_title cfg; verbose := verbose cfg;
     circle_radius := circle_radius cfg; circle_thickness := circle_thickness cfg;
     circle_linetype := circle_linetype cfg; circle_shift := circle_shift cfg |}.

Definition set_window_title (cfg : Configuration) (v : string) : Configuration :=
  {| wait_time := wait_time cfg; model_pathname := model_pathname cfg;
     params_pathname := params_pathname cfg;
     tracking_threshold := tracking_threshold cfg;
     window_title := v; verbose := verbose cfg;
     circle_radius := circle_radius cfg; circle_thickness := circle_thickness cfg;
     circle_linetype := circle_linetype cfg; circle_shift := circle_shift cfg |}.

Definition set_verbose (cfg : Configuration) (v : bool) : Configuration :=
  {| wait_time := wait_time cfg; model_pathname := model_pathname cfg;
     params_pathname := params_pathname cfg;
     tracking_threshold := tracking_threshold cfg;
     window_title := window_title cfg; verbose := v;
     circle_radius := circle_radius cfg; circle_thickness := circle_thickness cfg;
     circle_linetype := circle_linetype cfg; circle_shift := circle_shift cfg |}.

(** [CommandLineArgument<std::string>]: a positional argument that may
    not have been given. *)
Definition CommandLineArgument := option string.

Definition have_argument_p (a : CommandLineArgument) : bool :=
  match a with Some _ => true | None => false end.

(** [*a] and [a->]: only defined for an argument that was given. *)
Definition deref (a : CommandLineArgument) : M string :=
  match a with Some v => ret v | None => undefined end.

(** Modelled from the spec: [assign_argument] is declared in
    utils/command-line-arguments.hpp, which is not among the sources.
    The command line takes the positional input and then the optional
    output: the first positional argument becomes the image argument,
    the second the landmarks argument, and a third one is refused. *)
Definition assign_argument (argument : string)
    (image_argument landmarks_argument : CommandLineArgument)
  : option (CommandLineArgument * CommandLineArgument) :=
  match image_argument, landmarks_argument with
  | None, _ => Some (Some argument, landmarks_argument)
  | Some _, None => Some (image_argument, Some argument)
  | Some _, Some _ => None
  end.

(** Modelled from the spec: [get_argument<T>] is declared in the same
    header.  An option with a value takes the one command-line word
    that follows it; [read] is the conversion of that word to [T], and
    the call throws when the word does not convert. *)
Definition get_argument {A} (read : string → option A) (argument value : string) : M A :=
  match read value with
  | Some v => ret v
  | None =>
      throw (runtime_error ("Unable to read the value of argument '" +:+ argument +:+ "'"))
  end.

Definition missing_value {A} (argument : string) : M A :=
  throw (runtime_error ("Argument '" +:+ argument +:+ "' requires a value"))%string.

(* ================================================================= *)
(** ** Collaborators *)

(** The tracking engine of tracker/FaceTracker.hpp, as the driver uses
    it: the two loaders, the cold-start and the continuation entry
    points (each returns the health score and changes the tracker), the
    reset and the accessor of the current shape.  The loaders always
    give an object: the two [assert]s of video mode hold. *)
Class FaceTracker (T P : Type) := {
  DefaultFaceTrackerModelPathname : string;
  DefaultFaceTrackerParamsPathname : string;
  LoadFaceTracker : string → T;
  LoadFaceTrackerParams : string → P;
  NewFrame : T → Mat → P → Z * T;
  Track : T → Mat → P → Z * T;
  Reset : T → T;
  getShape : T → Shape }.

(** Everything else outside the program: the files that [read_list] and
    [load_grayscale_image] read ([None]: the helper throws), the video
    that [cv::VideoCapture] opens ([None]: [isOpened()] is false), the
    colour conversion, the key that the n-th [cv::waitKey] call returns
    for a given delay, the text-to-value conversions behind
    [get_argument<int>] and [get_argument<double>], and what the
    platform's [snprintf] leaves in the buffer, read as a C string, for a
    format outside the fragment that [sprintf] models ([None]: the
    behaviour of the call is undefined). *)
Record World := {
  read_list : string → option (list string);
  load_grayscale_image : string → option (Mat * Mat);
  VideoCapture : string → option (list Mat);
  cvtColor_BGR2GRAY : Mat → Mat;
  waitKey : nat → Z → Z;
  read_int : string → option Z;
  read_double : string → option double;
  snprintf_beyond : nat → string → Z → option string }.

Definition usage_text : string :=
"Usage: [options] <image-argument> [landmarks-argument]

Options:
  --help                    This helpful message.
  --lists                   Switch to list processing mode. See below.
  --video                   Switch to video processing mode. See below.
  --wait-time <double>      How many seconds to wait when displaying the
                            registration results. The default depends on the mode.
  --model <pathname>        The pathname to the tracker model to use.
  --params <pathname>       The pathname to the parameters to use.
  --threshold <int>         The threshold of the error detector.
                            Can range from 0 to 10 where 10 is extremely picky.
                            The default is 5.
  --title <string>          The window title to use.
  --verbose                 Display information whilst processing.

Default mode:
Perform fitting on an image located at <image-argument> and save
the results to [landarks-argument] if specified, otherwise display
the results.

List mode:
Perform fitting on the list of image pathnames contained in <image-argument>.
If [landmarks-argument] is specified, then it must be a list with the same length as
<image-argument> and contain pathnames to write the tracked points to.

Video mode:
Perform fitting on the video found at <image-pathname>. If
[landmarks-argument] is specified, then it represents a format string
used by sprintf. The template must accept at most one unsigned integer
value. If no [landmarks-argument] is given, then the tracking is displayed
to the screen.

".

Definition print_usage : M unit := emit (EvStdout (usage_text +:+ LF)).

Section Driver.

Context {T P : Type} `{FaceTracker T P} (W : World).

(** *** Calls to the collaborators, each leaving its event *)

Definition call_LoadFaceTracker (pathname : string) : M T :=
  emit (EvLoadFaceTracker pathname);; ret (LoadFaceTracker pathname).

Definition call_LoadFaceTrackerParams (pathname : string) : M P :=
  emit (EvLoadFaceTrackerParams pathname);; ret (LoadFaceTrackerParams pathname).

(** [delete tracker; delete tracker_params;] *)
Definition delete_tracker (tracker : T) (tracker_params : P) : M unit :=
  emit EvDelete;; emit EvDelete.

Definition call_read_list (pathname : string) : M (list string) :=
  emit (EvReadList pathname);;
  match read_list W pathname with
  | Some l => ret l
  | None => throw (runtime_error ("Unable to read list '" +:+ pathname +:+ "'"))
  end.

Definition call_load_grayscale_image (pathname : string) : M (Mat * Mat) :=
  emit (EvLoadImage pathname);;
  match load_grayscale_image W pathname with
  | Some r => ret r
  | None => throw (runtime_error ("Unable to load image '" +:+ pathname +:+ "'"))
  end.

Definition call_NewFrame (tracker : T) (gray_image : Mat) (params : P) : M (Z * T) :=
  let r := NewFrame tracker gray_image params in
  emit (EvNewFrame gray_image r.1);; ret r.

Definition call_Track (tracker : T) (gray_image : Mat) (params : P) : M (Z * T) :=
  let r := Track tracker gray_image params in
  emit (EvTrack gray_image r.1);; ret r.

Definition call_getShape (tracker : T) : M Shape :=
  let shape := getShape tracker in
  emit (EvGetShape shape);; ret shape.

Definition call_Reset (tracker : T) : M T :=
  emit EvReset;; ret (Reset tracker).

(** [IO::SavePts(pathname, shape)] *)
Definition call_SavePts (pathname : string) (shape : Shape) : M unit :=
  emit (EvSavePts pathname shape).

Definition call_waitKey (delay : Z) : M Z := λ k,
  let key := waitKey W k delay in
  mkRun (Ret key) [EvWaitKey delay key] (S k).

(** The implicit conversion of a [double] argument to an [int]
    parameter. *)
Definition convert_to_int (d : double) : M Z :=
  match double_to_int d with
  | Some z => ret z
  | None => undefined
  end.

(** What [snprintf] leaves in the buffer: as modelled for a format of
    the fragment, as the platform has it for any other format. *)
Definition formatted (size : nat) (format : string) (n : Z) : option string :=
  match snprintf size format n with
  | Some s => Some s
  | None => snprintf_beyond W size format n
  end.

(** [snprintf(pathname_buffer.data(), pathname_buffer.size(), format, n)]
    and the reading of the buffer that follows. *)
Definition call_snprintf (size : nat) (format : string) (n : Z) : M string :=
  match formatted size format n with
  | Some s => ret s
  | None => undefined
  end.

(** *** [display_image_and_points] *)

Definition display_image_and_points (cfg : Configuration) (image : Mat) (points : Shape)
  : M unit :=
  let colour : Scalar :=
    if type image =? DataType_uint8 then (255, 0, 0, 0)
    else if type image =? DataType_Vec_uint8_3 then (0, 0, 255, 0)
    else (255, 0, 0, 0) in
  let circles :=
    map (λ p, {| centre := p; radius := circle_radius cfg; colour := colour;
                 thickness := circle_thickness cfg; linetype := circle_linetype cfg;
                 shift := circle_shift cfg |}) points in
  emit (EvImshow (window_title cfg) image circles);;
  when (double_is_zero (wait_time cfg))
       (emit (EvStdout ("Press any key to continue." +:+ LF)));;
  delay <- convert_to_int (double_mul (wait_time cfg) (double_of_int 1000));;
  key <- call_waitKey delay;;
  let ch := to_char key in
  if ch =? 27 then throw user_pressed_escape else ret tt.

(** *** [run_image_mode] *)

Definition run_image_mode (cfg : Configuration)
    (image_argument landmarks_argument : CommandLineArgument) : M Z :=
  tracker <- call_LoadFaceTracker (model_pathname cfg);;
  tracker_params <- call_LoadFaceTrackerParams (params_pathname cfg);;
  image_pathname <- deref image_argument;;
  '(gray_image, image) <- call_load_grayscale_image image_pathname;;
  '(result, tracker) <- call_NewFrame tracker gray_image tracker_params;;
  shape <- (if result >=? tracking_threshold cfg
            then call_getShape tracker
            else ret []);;
  (if negb (have_argument_p landmarks_argument) then
     display_image_and_points cfg image shape
   else if (0 <? length shape)%nat then
     pathname <- deref landmarks_argument;;
     call_SavePts pathname shape
   else ret tt);;
  delete_tracker tracker tracker_params;;
  ret 0.

(** *** [run_lists_mode] *)

(** One iteration of the [for] loop over the image pathnames.  It
    returns the loop variables it changes: the landmarks iterator (the
    pathnames not yet consumed), the image counter and the tracker. *)
Definition lists_body (cfg : Configuration) (landmarks_argument : CommandLineArgument)
    (tracker_params : P) (number_of_images : Z)
    (image_pathname : string)
    (landmarks_it : list string) (current_image_index : Z) (tracker : T)
  : M (list string * Z * T) :=
  when (verbose cfg)
    (emit (EvStdout (" Image " +:+ show_int_s current_image_index +:+ "/"
                     +:+ show_int_s number_of_images +:+ CR)));;
  let current_image_index := int_wrap (current_image_index + 1) in
  '(gray_image, image) <- call_load_grayscale_image image_pathname;;
  '(result, tracker) <- call_NewFrame tracker gray_image tracker_params;;
  '(shape, tracker) <- (if result >=? tracking_threshold cfg
                        then shape <- call_getShape tracker;; ret (shape, tracker)
                        else tracker <- call_Reset tracker;; ret ([], tracker));;
  (if negb (have_argument_p landmarks_argument) then
     display_image_and_points cfg image shape
   else if (0 <? length shape)%nat then
     match landmarks_it with
     | [] => undefined
     | pathname :: _ =>
         call_SavePts pathname shape;;
         when (verbose cfg) (display_image_and_points cfg image shape)
     end
   else when (verbose cfg) (display_image_and_points cfg image shape));;
  landmarks_it <- (if have_argument_p landmarks_argument then
                     match landmarks_it with
                     | [] => undefined
                     | _ :: landmarks_it' => ret landmarks_it'
                     end
                   else ret landmarks_it);;
  ret (landmarks_it, current_image_index, tracker).

(** The loop; it ends with the loop variables as the last iteration
    left them. *)
Fixpoint lists_loop (cfg : Configuration) (landmarks_argument : CommandLineArgument)
    (tracker_params : P) (number_of_images : Z)
    (image_it : list string)
    (landmarks_it : list string) (current_image_index : Z) (tracker : T)
  : M (list string * Z * T) :=
  match image_it with
  | [] => ret (landmarks_it, current_image_index, tracker)
  | image_pathname :: image_it' =>
      '(landmarks_it, current_image_index, tracker) <-
         lists_body cfg landmarks_argument tracker_params number_of_images
                    image_pathname landmarks_it current_image_index tracker;;
      lists_loop cfg landmarks_argument tracker_params number_of_images
                 image_it' landmarks_it current_image_index tracker
  end.

Definition run_lists_mode (cfg : Configuration)
    (image_argument landmarks_argument : CommandLineArgument) : M Z :=
  tracker <- call_LoadFaceTracker (model_pathname cfg);;
  tracker_params <- call_LoadFaceTrackerParams (params_pathname cfg);;
  image_list <- deref image_argument;;
  image_pathnames <- call_read_list image_list;;
  landmark_pathnames <-
    (if have_argument_p landmarks_argument then
       landmarks_list <- deref landmarks_argument;;
       landmark_pathnames <- call_read_list landmarks_list;;
       if negb (length landmark_pathnames =? length image_pathnames)%nat then
         throw (runtime_error
                  ("Number of pathnames in list '" +:+ image_list
                   +:+ "' does not match the number in '" +:+ landmarks_list +:+ "'"))
       else ret landmark_pathnames
     else ret []);;
  let number_of_images := int_wrap (Z.of_nat (length image_pathnames)) in
  lists_loop cfg landmarks_argument tracker_params number_of_images
             image_pathnames landmark_pathnames 1 tracker;;
  delete_tracker tracker tracker_params;;
  ret 0.

(** *** [run_video_mode] *)

(** The body of the [while] loop, up to and including the routing of the
    result; it returns the tracker it leaves. *)
Definition video_body (cfg : Configuration) (landmarks_argument : CommandLineArgument)
    (tracker_params : P) (image : Mat) (frame_number : Z) (tracker : T) : M T :=
  when (verbose cfg)
    (emit (EvStdout (" Frame number " +:+ show_int_s frame_number +:+ CR)));;
  gray_image <-
    (if type image =? DataType_Vec_uint8_3 then ret (cvtColor_BGR2GRAY W image)
     else if type image =? DataType_uint8 then ret image
     else throw (runtime_error
                   "Do not know how to convert video frame to a grayscale image."));;
  '(result, tracker) <- call_Track tracker gray_image tracker_params;;
  '(shape, tracker) <- (if result >=? tracking_threshold cfg
                        then shape <- call_getShape tracker;; ret (shape, tracker)
                        else tracker <- call_Reset tracker;; ret ([], tracker));;
  (if negb (have_argument_p landmarks_argument) then
     display_image_and_points cfg image shape
   else if (0 <? length shape)%nat then
     format <- deref landmarks_argument;;
     pathname <- call_snprintf 1000 format frame_number;;
     call_SavePts pathname shape;;
     when (verbose cfg) (display_image_and_points cfg image shape)
   else when (verbose cfg) (display_image_and_points cfg image shape));;
  ret tracker.

(** The loop.  [input] is what the stream still holds.  The source pulls
    the first frame before the loop and the next one at the end of each
    iteration; here every round starts with its pull ([input >> image]),
    then makes the loop test, then runs the body: the same sequence of
    operations, with [frame_number] counting the rounds from the initial
    value 1.  Pulling from an exhausted stream leaves an empty image. *)
Fixpoint video_loop (cfg : Configuration) (landmarks_argument : CommandLineArgument)
    (tracker_params : P) (input : list Mat) (frame_number : Z) (tracker : T)
  : M unit :=
  match input with
  | [] => emit (EvNextFrame empty_Mat)
  | image :: input' =>
      emit (EvNextFrame image);;
      if (rows image >? 0) && (cols image >? 0) then
        tracker <- video_body cfg landmarks_argument tracker_params
                              image frame_number tracker;;
        video_loop cfg landmarks_argument tracker_params
                   input' (int_wrap (frame_number + 1)) tracker
      else ret tt
  end.

Definition run_video_mode (cfg : Configuration)
    (image_argument landmarks_argument : CommandLineArgument) : M Z :=
  tracker <- call_LoadFaceTracker (model_pathname cfg);;
  tracker_params <- call_LoadFaceTrackerParams (params_pathname cfg);;
  (* assert(tracker); assert(tracker_params); *)
  video_pathname <- deref image_argument;;
  emit (EvOpenVideo video_pathname);;
  match VideoCapture W video_pathname with
  | None =>
      throw (runtime_error ("Unable to open video file '" +:+ video_pathname +:+ "'"))
  | Some input =>
      video_loop cfg landmarks_argument tracker_params input 1 tracker;;
      delete_tracker tracker tracker_params;;
      ret 0
  end.

(** *** [run_program] *)

(** The local variables of [run_program] when the argument loop ends. *)
Record Locals := {
  image_argument : CommandLineArgument;
  landmarks_argument : CommandLineArgument;
  lists_mode : bool;
  video_mode : bool;
  wait_time_specified : bool;
  cfg : Configuration }.

(** The [for] loop over [argv[1..argc-1]].  [None] is the [return 0] of
    the [--help] branch. *)
Fixpoint argument_loop (args : list string)
    (image_argument landmarks_argument : CommandLineArgument)
    (lists_mode video_mode wait_time_specified : bool) (cfg : Configuration)
  : M (option Locals) :=
  match args with
  | [] =>
      ret (Some {| image_argument := image_argument;
                   landmarks_argument := landmarks_argument;
                   lists_mode := lists_mode; video_mode := video_mode;
                   wait_time_specified := wait_time_specified; cfg := cfg |})
  | argument :: rest =>
      if String.eqb argument "--help" || String.eqb argument "-h" then
        print_usage;; ret None
      else if String.eqb argument "--lists" then
        argument_loop rest image_argument landmarks_argument
                      true video_mode wait_time_specified cfg
      else if String.eqb argument "--video" then
        argument_loop rest image_argument landmarks_argument
                      lists_mode true wait_time_specified cfg
      else if String.eqb argument "--wait-time" then
        match rest with
        | [] => missing_value argument
        | value :: rest' =>
            v <- get_argument (read_double W) argument value;;
            argument_loop rest' image_argument landmarks_argument
                          lists_mode video_mode true (set_wait_time cfg v)
        end
      else if String.eqb argument "--model" then
        match rest with
        | [] => missing_value argument
        | value :: rest' =>
            v <- get_argument Some argument value;;
            argument_loop rest' image_argument landmarks_argument
                          lists_mode video_mode wait_time_specified
                          (set_model_pathname cfg v)
        end
      else if String.eqb argument "--params" then
        match rest with
        | [] => missing_value argument
        | value :: rest' =>
            v <- get_argument Some argument value;;
            argument_loop rest' image_argument landmarks_argument
                          lists_mode video_mode wait_time_specified
                          (set_params_pathname cfg v)
        end
      else if String.eqb argument "--title" then
        match rest with
        | [] => missing_value argument
        | value :: rest' =>
            v <- get_argument Some argument value;;
            argument_loop rest' image_argument landmarks_argument
                          lists_mode video_mode wait_time_specified
                          (set_window_title cfg v)
        end
      else if String.eqb argument "--threshold" then
        match rest with
        | [] => missing_value argument
        | value :: rest' =>
            v <- get_argument (read_int W) argument value;;
            argument_loop rest' image_argument landmarks_argument
                          lists_mode video_mode wait_time_specified
                          (set_tracking_threshold cfg v)
        end
      else if String.eqb argument "--verbose" then
        argument_loop rest image_argument landmarks_argument
                      lists_mode video_mode wait_time_specified
                      (set_verbose cfg true)
      else
        match assign_argument argument image_argument landmarks_argument with
        | None =>
            throw (runtime_error ("Unable to process argument '" +:+ argument +:+ "'"))
        | Some (image_argument, landmarks_argument) =>
            argument_loop rest image_argument landmarks_argument
                          lists_mode video_mode wait_time_specified cfg
        end
  end.

Definition default_cfg : Configuration :=
  {| wait_time := double_of_int 0;
     model_pathname := DefaultFaceTrackerModelPathname;
     params_pathname := DefaultFaceTrackerParamsPathname;
     tracking_threshold := 5;
     window_title := "CSIRO Face Fit";
     verbose := false;
     circle_radius := 2;
     circle_thickness := 1;
     circle_linetype := 8;
     circle_shift := 0 |}.

(** [args] is [argv[1..argc-1]]. *)
Definition run_program (args : list string) : M Z :=
  parsed <- argument_loop args None None false false false default_cfg;;
  match parsed with
  | None => ret 0
  | Some l =>
      if negb (have_argument_p (image_argument l)) then
        print_usage;; ret 0
      else if lists_mode l && video_mode l then
        throw (runtime_error "The operator is confused as the switches --lists and --video are present on the command line.")
      else if lists_mode l then
        let cfg := if negb (wait_time_specified l)
                   then set_wait_time (cfg l) one_thirtieth else cfg l in
        run_lists_mode cfg (image_argument l) (landmarks_argument l)
      else if video_mode l then
        let cfg := if negb (wait_time_specified l)
                   then set_wait_time (cfg l) one_thirtieth else cfg l in
        run_video_mode cfg (image_argument l) (landmarks_argument l)
      else
        let cfg := if negb (wait_time_specified l)
                   then set_wait_time (cfg l) (double_of_int 0) else cfg l in
        run_image_mode cfg (image_argument l) (landmarks_argument l)
  end.

(** *** [main] *)

(** The process exit status, after the two handlers. *)
Definition main (args : list string) : M Z :=
  try_catch (run_program args)
    (λ e, match e with
          | user_pressed_escape =>
              emit (EvStdout ("Stopping prematurely." +:+ LF));; ret 1
          | runtime_error what =>
              emit (EvStderr ("Caught unhandled exception: " +:+ what +:+ LF));; ret 2
          end).

End Driver.

(* ================================================================= *)
(** ** A scripted tracker and a small world, for concrete runs *)

Module Fixture.

(** A tracker that answers from a script: each call of [NewFrame] or
    [Track] takes the next (score, shape) pair; with the script used up
    it reports score 0 and no shape. *)
Record Scripted := { script : list (Z * Shape); current : Shape }.

Definition scripted_step (t : Scripted) : Z * Scripted :=
  match script t with
  | [] => (0, {| script := []; current := [] |})
  | (score, shape) :: rest => (score, {| script := rest; current := shape |})
  end.

Definition scripted (answers : list (Z * Shape)) : FaceTracker Scripted unit :=
  {| DefaultFaceTrackerModelPathname := "face.mytracker.binary";
     DefaultFaceTrackerParamsPathname := "face.mytrackerparams.binary";
     LoadFaceTracker := λ _, {| script := answers; current := [] |};
     LoadFaceTrackerParams := λ _, tt;
     NewFrame := λ t _ _, scripted_step t;
     Track := λ t _ _, scripted_step t;
     Reset := λ t, {| script := script t; current := [] |};
     getShape := current |}.

Definition point (a b : Z) : Point :=
  {| pt_x := double_of_int a; pt_y := double_of_int b |}.
Definition five_points : Shape :=
  [point 1 1; point 2 1; point 3 2; point 2 3; point 1 3].

Definition gray_frame (id : Z) : Mat :=
  {| rows := 2; cols := 2; type := DataType_uint8; pixels := [id; id; id; id] |}.
Definition colour_frame (id : Z) : Mat :=
  {| rows := 2; cols := 2; type := DataType_Vec_uint8_3; pixels := [id; id; id] |}.
Definition depth_frame (id : Z) : Mat :=
  {| rows := 2; cols := 2; type := CV_MAKETYPE CV_16U 1; pixels := [id] |}.
Definition four_channel_frame (id : Z) : Mat :=
  {| rows := 2; cols := 2; type := CV_MAKETYPE CV_8U 4; pixels := [id] |}.

Definition to_gray (m : Mat) : Mat :=
  {| rows := rows m; cols := cols m; type := DataType_uint8; pixels := take 1 (pixels m) |}.

(** Decimal text to [int]: an optional sign and digits, within range. *)
Fixpoint digits_value (acc : Z) (s : list ascii) : option Z :=
  match s with
  | [] => Some acc
  | c :: s' =>
      match digit_of c with
      | Some d => digits_value (10 * acc + Z.of_nat d) s'
      | None => None
      end
  end.

Definition int_of_text (s : string) : option Z :=
  match list_ascii_of_string s with
  | [] => None
  | c :: s' =>
      v ← (if Ascii.eqb c "-" then
             match s' with [] => None | _ => Z.opp <$> digits_value 0 s' end
           else digits_value 0 (c :: s'));
      if (- 2 ^ 31 <=? v) && (v <=? INT_MAX) then Some v else None
  end.

(** The files and the video of the test world; [keys] gives the key
    that each [cv::waitKey] call returns (-1: none before the delay
    ran out). *)
Definition world (keys : nat → Z) : World :=
  {| read_list := λ p,
       if String.eqb p "images.txt" then Some ["a.png"; "b.png"; "c.png"]%string
       else if String.eqb p "points.txt" then Some ["a.pts"; "b.pts"; "c.pts"]%string
       else if String.eqb p "two.txt" then Some ["a.pts"; "b.pts"]%string
       else if String.eqb p "broken.txt" then Some ["a.png"; "missing.png"; "c.png"]%string
       else None;
     load_grayscale_image := λ p,
       if String.eqb p "a.png" then Some (gray_frame 1, gray_frame 1)
       else if String.eqb p "b.png" then Some (to_gray (colour_frame 2), colour_frame 2)
       else if String.eqb p "c.png" then Some (gray_frame 3, gray_frame 3)
       else None;
     VideoCapture := λ p,
       if String.eqb p "clip.avi"
       then Some [colour_frame 1; colour_frame 2; gray_frame 3; colour_frame 4]
       else if String.eqb p "odd.avi"
       then Some [colour_frame 1; four_channel_frame 2; colour_frame 3]
       else None;
     cvtColor_BGR2GRAY := to_gray;
     waitKey := λ n _, keys n;
     read_int := int_of_text;
     read_double := λ s, double_of_int <$> int_of_text s;
     snprintf_beyond := λ _ _ _, None |}.

Definition no_key : nat → Z := λ _, -1.
Definition escape_at (n : nat) : nat → Z := λ k, if (k =? n)%nat then 27 else -1.

End Fixture.


(* ================================================================= *)
(** ** Observing a run *)

(** The health score that a tracking call returned. *)
Definition score_of (e : Event) : option Z :=
  match e with
  | EvNewFrame _ c | EvTrack _ c => Some c
  | _ => None
  end.

Definition scores (tr : list Event) : list Z := omap score_of tr.

Definition is_get_shape (e : Event) : bool :=
  match e with EvGetShape _ => true | _ => false end.
Definition is_reset (e : Event) : bool :=
  match e with EvReset => true | _ => false end.
Definition is_save (e : Event) : bool :=
  match e with EvSavePts _ _ => true | _ => false end.
Definition is_imshow (e : Event) : bool :=
  match e with EvImshow _ _ _ => true | _ => false end.
(** A key press that [display_image_and_points] takes for escape. *)
Definition is_escape (e : Event) : bool :=
  match e with EvWaitKey _ key => to_char key =? 27 | _ => false end.

(** What single events carry: the pathname written, the frame handed to
    the tracker, the frame pulled from the video, the image shown, the
    image file read. *)
Definition save_path (e : Event) : option string :=
  match e with EvSavePts p _ => Some p | _ => None end.
Definition tracked_frame (e : Event) : option Mat :=
  match e with EvTrack g _ | EvNewFrame g _ => Some g | _ => None end.
Definition pulled_frame (e : Event) : option Mat :=
  match e with EvNextFrame m => Some m | _ => None end.
Definition shown_image (e : Event) : option Mat :=
  match e with EvImshow _ m _ => Some m | _ => None end.
Definition loaded_image (e : Event) : option string :=
  match e with EvLoadImage p => Some p | _ => None end.

(** The pathnames written, the frames tracked, the frames pulled, the
    images shown and the image files read in a run, in order. *)
Definition saved_paths (tr : list Event) : list string := omap save_path tr.
Definition tracked (tr : list Event) : list Mat := omap tracked_frame tr.
Definition pulled (tr : list Event) : list Mat := omap pulled_frame tr.
Definition shown (tr : list Event) : list Mat := omap shown_image tr.
Definition loaded_images (tr : list Event) : list string := omap loaded_image tr.

(** Each written pathname with the image that was loaded last before
    the write ([image]: the one loaded before the events start). *)
Fixpoint pairing (image : string) (tr : list Event) : list (string * string) :=
  match tr with
  | [] => []
  | EvLoadImage p :: tr' => pairing p tr'
  | EvSavePts q _ :: tr' => (image, q) :: pairing image tr'
  | _ :: tr' => pairing image tr'
  end.

(** *** Monitors

    A monitor reads the events of a run one by one: [step st e] gives
    the condition under which event [e] is allowed in state [st], and
    the next state. *)
Section Monitor.

Context {S : Type} (step : S → Event → Prop * S).

Fixpoint admits (st : S) (tr : list Event) : Prop :=
  match tr with
  | [] => True
  | e :: tr' => (step st e).1 ∧ admits (step st e).2 tr'
  end.

Fixpoint after (st : S) (tr : list Event) : S :=
  match tr with
  | [] => st
  | e :: tr' => after (step st e).2 tr'
  end.

(** [wp m post st]: started with the monitor in state [st], after any
    number of earlier key presses, [m] produces only events the monitor
    admits, and [post] relates its outcome to the state reached. *)
Definition wp {A} (m : M A) (post : Outcome A → S → Prop) (st : S) : Prop :=
  ∀ k, admits st (events (m k)) ∧ post (outcome (m k)) (after st (events (m k))).

End Monitor.

(** *** The decision discipline of a frame

    After a tracking call returned score [c] the frame is [Scored c]
    until the next event settles it: taking the shape from the tracker
    is allowed exactly when [t <= c] and makes that shape the current
    one; anything else is allowed only when [c < t] and leaves the
    empty shape as the current one.  With [must_reset] the event that
    follows a score below [t] has to be the reset.  Outside a scored
    frame no shape is taken and the tracker is not reset.  Every shape
    written or displayed has to be the current one. *)
Inductive Phase :=
| Idle (shape : Shape)
| Scored (score : Z).

Definition idle_step (shape : Shape) (e : Event) : Prop * Phase :=
  match e with
  | EvNewFrame _ c | EvTrack _ c => (True, Scored c)
  | EvGetShape _ | EvReset => (False, Idle shape)
  | EvSavePts _ s => (s = shape, Idle shape)
  | EvImshow _ _ circles => (map centre circles = shape, Idle shape)
  | _ => (True, Idle shape)
  end.

Definition discipline (t : Z) (must_reset : bool) (ph : Phase) (e : Event)
  : Prop * Phase :=
  match ph with
  | Idle shape => idle_step shape e
  | Scored c =>
      match e with
      | EvGetShape s => (t ≤ c, Idle s)
      | EvReset => (c < t, Idle [])
      | _ => (c < t ∧ must_reset = false ∧ (idle_step [] e).1, (idle_step [] e).2)
      end
  end.

(** A run may end on a scored frame only if that frame is a reject that
    needs no reset. *)
Definition settled (t : Z) (must_reset : bool) (ph : Phase) : Prop :=
  match ph with
  | Idle _ => True
  | Scored c => c < t ∧ must_reset = false
  end.

Definition obeys (t : Z) (must_reset : bool) (tr : list Event) : Prop :=
  admits (discipline t must_reset) (Idle []) tr
  ∧ settled t must_reset (after (discipline t must_reset) (Idle []) tr).

Definition is_idle (ph : Phase) : Prop := ∃ s, ph = Idle s.

(** The number of scores not yet settled. *)
Definition pending (ph : Phase) : nat :=
  match ph with Idle _ => 0 | Scored _ => 1 end.

(** The same discipline, event by event.  A frame is accepted when the
    event that follows its score is the taking of the shape. *)
Definition accepts_iff_reaches (t : Z) (tr : list Event) : Prop :=
  ∀ pre e c rest, tr = pre ++ e :: rest → score_of e = Some c →
    (t ≤ c ↔ ∃ s rest', rest = EvGetShape s :: rest').

(** Every score below [t] is followed at once by the reset. *)
Definition resets_rejected (t : Z) (tr : list Event) : Prop :=
  ∀ pre e c rest, tr = pre ++ e :: rest → score_of e = Some c → c < t →
    ∃ rest', rest = EvReset :: rest'.

(** A monitor that refuses every reset and counts the tracking calls. *)
Definition no_reset_step (n : nat) (e : Event) : Prop * nat :=
  (is_reset e = false,
   match score_of e with Some _ => Datatypes.S n | None => n end).

(** *** The router table of the design, as written there *)

Record Actions := { persist : bool; display : bool }.

(** Rows: no destination: display; destination and shape: persist, and
    display when verbose; destination and no shape: display when
    verbose, else nothing. *)
Definition router_table (hasOutputDestination shape_non_empty verbose : bool) : Actions :=
  match hasOutputDestination, shape_non_empty, verbose with
  | false, _, _ => {| persist := false; display := true |}
  | true, true, false => {| persist := true; display := false |}
  | true, true, true => {| persist := true; display := true |}
  | true, false, true => {| persist := false; display := true |}
  | true, false, false => {| persist := false; display := false |}
  end.

(** What a stretch of events did. *)
Definition actions_of (tr : list Event) : Actions :=
  {| persist := existsb is_save tr; display := existsb is_imshow tr |}.

(** The monitor that collects what a stretch of events did. *)
Definition acting (a : Actions) (e : Event) : Prop * Actions :=
  (True, {| persist := persist a || is_save e; display := display a || is_imshow e |}).

Definition no_action : Actions := {| persist := false; display := false |}.

(** The shape a frame is routed with, from what the tracking call
    returned: the tracker's shape on an accept, the empty one otherwise;
    and the test [shape.size() > 0]. *)
Definition decided_shape {T P : Type} `{FaceTracker T P} (threshold : Z) (r : Z * T)
  : Shape :=
  if r.1 >=? threshold then getShape r.2 else [].

Definition non_empty (shape : Shape) : bool := (0 <? length shape)%nat.

(** *** Further monitors *)

(** The monitor that admits everything. *)
Definition anything (st : unit) (e : Event) : Prop * unit := (True, tt).

(** No event may follow an escape key press. *)
Definition escaping (pressed : bool) (e : Event) : Prop * bool :=
  (pressed = false, is_escape e).

(** The escape exception is in flight exactly when a key was read as
    escape. *)
Definition escape_post {A} (o : Outcome A) (pressed : bool) : Prop :=
  pressed = match o with Throw user_pressed_escape => true | _ => false end.

(** The monitor that collects what [f] extracts from the events. *)
Definition collecting {X} (f : Event → option X) (l : list X) (e : Event)
  : Prop * list X :=
  (True, match f e with Some v => l ++ [v] | None => l end).

(** The monitor behind [pairing]: the image loaded last, and the pairs
    collected so far. *)
Definition pairing_step (st : string * list (string * string)) (e : Event)
  : Prop * (string * list (string * string)) :=
  (True, match e with
         | EvLoadImage p => (p, st.2)
         | EvSavePts q _ => (st.1, st.2 ++ [(st.1, q)])
         | _ => st
         end).

(** *** Frame numbers and formats *)

(** The values [frame_number] takes over [n] rounds of the video loop. *)
Fixpoint frame_numbers (first : Z) (n : nat) : list Z :=
  match n with
  | O => []
  | Datatypes.S n' => first :: frame_numbers (int_wrap (first + 1)) n'
  end.

(** The value of [frame_number] in the i-th round of the video loop,
    rounds counted from 1: the counter starts at 1 and every round adds
    one to it. *)
Definition frame_counter (i : nat) : Z :=
  Nat.iter (i - 1) (λ z, int_wrap (z + 1)) 1.

(** Each written pathname with the number of frames that were pulled
    from the video before the write ([pulled]: the number pulled before
    the events start). *)
Fixpoint numbered_saves (pulled : nat) (tr : list Event) : list (nat * string) :=
  match tr with
  | [] => []
  | EvNextFrame _ :: tr' => numbered_saves (Datatypes.S pulled) tr'
  | EvSavePts q _ :: tr' => (pulled, q) :: numbered_saves pulled tr'
  | _ :: tr' => numbered_saves pulled tr'
  end.

(** The monitor behind [numbered_saves]. *)
Definition numbering_step (st : nat * list (nat * string)) (e : Event)
  : Prop * (nat * list (nat * string)) :=
  (True, match e with
         | EvNextFrame _ => (Datatypes.S st.1, st.2)
         | EvSavePts q _ => (st.1, st.2 ++ [(st.1, q)])
         | _ => st
         end).

(** What the writes of a stretch of the loop look like: the frames are
    numbered from [c + 1], each is written at most once, under the
    pathname of its counter. *)
Definition written (W : World) (format : string) (c n : nat)
    (sub : list (nat * string)) : Prop :=
  Forall (λ iq, (c < iq.1 ≤ c + n)%nat
                ∧ formatted W 1000 format (frame_counter iq.1) = Some iq.2) sub
  ∧ StronglySorted lt sub.*1.

(** The format has exactly one conversion: the substitution slot, a
    decimal conversion of the whole [int]. *)
Definition has_one_slot (format : string) : Prop :=
  ∃ ds, parse_format Text (list_ascii_of_string format) = Some ds ∧ slots ds = 1%nat.

(** [snprintf] is defined on the landmarks argument, if there is one. *)
Definition format_ok (landmarks_argument : CommandLineArgument) : Prop :=
  match landmarks_argument with
  | None => True
  | Some format =>
      ∃ ds, parse_format Text (list_ascii_of_string format) = Some ds
            ∧ (slots ds ≤ 1)%nat
  end.


(** The frame has positive size: the test of the video loop. *)
Definition live (image : Mat) : bool := (rows image >? 0) && (cols image >? 0).

(** Reading a rendered number back: the value of the digits, with every
    other character (the padding) counting as zero. *)
Definition digit_weight (c : ascii) : nat :=
  match digit_of c with Some d => d | None => 0 end.

Definition read_back_from (acc : nat) (s : list ascii) : nat :=
  fold_left (λ a c, 10 * a + digit_weight c)%nat s acc.

Definition read_back (s : list ascii) : nat := read_back_from 0 s.

(** The frames that the video loop processes: those before the first
    frame of size zero; and the frame on which the loop test fails. *)
Fixpoint live_prefix (input : list Mat) : list Mat :=
  match input with
  | [] => []
  | image :: input' => if live image then image :: live_prefix input' else []
  end.

Fixpoint terminator (input : list Mat) : Mat :=
  match input with
  | [] => empty_Mat
  | image :: input' => if live image then terminator input' else image
  end.

(** The frame has one of the two element types the video loop knows. *)
Definition supported (image : Mat) : bool :=
  (type image =? DataType_Vec_uint8_3) || (type image =? DataType_uint8).

(** The frame that video mode hands to the tracker for a frame of a
    supported type: the conversion of a 3-channel frame, a single-channel
    frame itself. *)
Definition gray_of (W : World) (image : Mat) : Mat :=
  if type image =? DataType_Vec_uint8_3 then cvtColor_BGR2GRAY W image else image.

(** The monitor that collects the frames pulled and the frames tracked. *)
Definition filming (st : list Mat * list Mat) (e : Event)
  : Prop * (list Mat * list Mat) :=
  (True, ((collecting pulled_frame st.1 e).2, (collecting tracked_frame st.2 e).2)).

(** The keyboard never returns a key that reads as escape. *)
Definition never_escape (W : World) : Prop :=
  ∀ n delay, to_char (waitKey W n delay) ≠ 27.

(** The command-line words that [run_program] treats as options. *)
Definition is_option (argument : string) : bool :=
  bool_decide (argument ∈ ["--help"; "-h"; "--lists"; "--video"; "--wait-time";
                           "--model"; "--params"; "--title"; "--threshold";
                           "--verbose"]%string).

(** *** Monitors for the life cycle, the display and the output streams *)

(** The monitor that requires [allowed] of every event. *)
Definition only (allowed : Event → Prop) (st : unit) (e : Event) : Prop * unit :=
  (allowed e, tt).

(** How a stretch of a run may end, by outcome: [inv] on a normal
    return, [thrown] on an exception and [undef] where the program has
    no defined behaviour. *)
Definition ending {A S} (inv : S → Prop) (thrown : exn → S → Prop) (undef : S → Prop)
    (o : Outcome A) (st : S) : Prop :=
  match o with
  | Ret _ => inv st
  | Throw e => thrown e st
  | Undefined => undef st
  end.

Definition is_new_frame (e : Event) : bool :=
  match e with EvNewFrame _ _ => true | _ => false end.
(** The image of a cold start of the tracker ([NewFrame]) and of a
    continuation call ([Track]). *)
Definition cold_started (e : Event) : option Mat :=
  match e with EvNewFrame g _ => Some g | _ => None end.
Definition continued (e : Event) : option Mat :=
  match e with EvTrack g _ => Some g | _ => None end.
Definition is_track (e : Event) : bool :=
  match e with EvTrack _ _ => true | _ => false end.
Definition is_wait_key (e : Event) : bool :=
  match e with EvWaitKey _ _ => true | _ => false end.
Definition is_stderr (e : Event) : bool :=
  match e with EvStderr _ => true | _ => false end.
Definition is_delete (e : Event) : bool :=
  match e with EvDelete => true | _ => false end.
Definition is_load (e : Event) : bool :=
  match e with EvLoadFaceTracker _ | EvLoadFaceTrackerParams _ => true | _ => false end.

(** The shape a write carries is not empty. *)
Definition saves_shape (e : Event) : Prop :=
  match e with EvSavePts _ shape => shape ≠ [] | _ => True end.

(** The delay of a key read, the text of a line on the standard
    output. *)
Definition key_delay (e : Event) : option Z :=
  match e with EvWaitKey delay _ => Some delay | _ => None end.
Definition stdout_text (e : Event) : option string :=
  match e with EvStdout text => Some text | _ => None end.

(** The delay that [display_image_and_points] hands to [cv::waitKey]:
    the wait time scaled by 1000 in [double] and converted to [int];
    [None] where that conversion is undefined. *)
Definition wait_delay (cfg : Configuration) : option Z :=
  double_to_int (double_mul (wait_time cfg) (double_of_int 1000)).

(** The colour [display_image_and_points] draws with, and the circle it
    draws at a point. *)
Definition marker_colour (image : Mat) : Scalar :=
  if type image =? DataType_Vec_uint8_3 then (0, 0, 255, 0) else (255, 0, 0, 0).

Definition marker (cfg : Configuration) (image : Mat) (p : Point) : Circle :=
  {| centre := p; radius := circle_radius cfg; colour := marker_colour image;
     thickness := circle_thickness cfg; linetype := circle_linetype cfg;
     shift := circle_shift cfg |}.

(** The protocol of a display.  The monitor keeps the shape of the
    current frame: empty from the tracking call on, the tracker's shape
    once it was taken.  A window has the configured title and shows the
    image with exactly one marker for each point of that shape, in
    order; the prompt follows exactly when the wait time is zero; then
    one key is read with [wait_delay] as the delay.  No key is read
    outside a display. *)
Inductive DisplayPhase := Quiet | Shown | Prompted.

Definition prompt : string := "Press any key to continue." +:+ LF.

Definition display_protocol (cfg : Configuration) (st : DisplayPhase * Shape) (e : Event)
  : Prop * (DisplayPhase * Shape) :=
  match st.1, e with
  | Quiet, (EvNewFrame _ _ | EvTrack _ _) => (True, (Quiet, []))
  | Quiet, EvGetShape shape => (True, (Quiet, shape))
  | Quiet, EvImshow title image circles =>
      (title = window_title cfg ∧ circles = map (marker cfg image) st.2, (Shown, st.2))
  | Quiet, EvWaitKey _ _ => (False, st)
  | Quiet, _ => (True, st)
  | Shown, EvStdout text =>
      (double_is_zero (wait_time cfg) = true ∧ text = prompt, (Prompted, st.2))
  | Shown, EvWaitKey delay _ =>
      (double_is_zero (wait_time cfg) = false ∧ wait_delay cfg = Some delay,
       (Quiet, st.2))
  | Prompted, EvWaitKey delay _ => (wait_delay cfg = Some delay, (Quiet, st.2))
  | _, _ => (False, st)
  end.

(** The life cycle of the tracker in a mode driver: the tracker is
    loaded, then its parameters, then the driver runs, then both are
    deleted. *)
Inductive Life := Fresh | HasTracker | Running | Deleting | Released.

Definition lifecycle (cfg : Configuration) (st : Life) (e : Event) : Prop * Life :=
  match st, e with
  | Fresh, EvLoadFaceTracker pathname => (pathname = model_pathname cfg, HasTracker)
  | HasTracker, EvLoadFaceTrackerParams pathname =>
      (pathname = params_pathname cfg, Running)
  | Running, EvDelete => (True, Deleting)
  | Deleting, EvDelete => (True, Released)
  | Running, _ => (is_load e = false, Running)
  | _, _ => (False, st)
  end.

(** The events of the drivers around the frames: loading and deleting
    the tracker, reading a list, opening the video and pulling a
    frame. *)
Definition plumbing (e : Event) : bool :=
  match e with
  | EvLoadFaceTracker _ | EvLoadFaceTrackerParams _ | EvDelete
  | EvReadList _ | EvOpenVideo _ | EvNextFrame _ => true
  | _ => false
  end.

(** The image that [load_grayscale_image] gives for the tracker, and
    the image it leaves in its second argument. *)
Definition gray_file (W : World) (pathname : string) : option Mat :=
  fst <$> load_grayscale_image W pathname.
Definition colour_file (W : World) (pathname : string) : option Mat :=
  snd <$> load_grayscale_image W pathname.

(** The monitor that collects what [f] extracts from the events (the
    image files read, the frames pulled), the frames handed to the
    tracker and the images shown. *)
Definition gathering {X} (f : Event → option X) (st : list X * list Mat * list Mat)
    (e : Event) : Prop * (list X * list Mat * list Mat) :=
  (True, ((collecting f st.1.1 e).2,
          (collecting tracked_frame st.1.2 e).2,
          (collecting shown_image st.2 e).2)).

(** The frames that the video loop processes among those it pulled:
    those of positive size and supported type. *)
Definition processed (frames : list Mat) : list Mat :=
  filter supported (filter live frames).

(** Predicates on the states of the monitors and on the exceptions. *)
Definition quiet (st : DisplayPhase * Shape) : Prop := st.1 = Quiet.
(** A display may stop after the window only where the delay has no
    defined conversion. *)
Definition stalled (cfg : Configuration) (st : DisplayPhase * Shape) : Prop :=
  quiet st ∨ wait_delay cfg = None.
Definition running (st : Life) : Prop := st = Running.
Definition hidden (e : Event) : Prop := is_imshow e = false ∧ is_wait_key e = false.
Definition always (st : unit) : Prop := True.
Definition not_escape (e : exn) (st : unit) : Prop := e ≠ user_pressed_escape.

(** The state of the life cycle in which a driver ends. *)
Definition ended {A} (o : Outcome A) (st : Life) : Prop :=
  st = if o is Ret _ then Released else Running.

(** What the display protocol asks of single events. *)
Definition displayed_as (cfg : Configuration) (e : Event) : Prop :=
  match e with
  | EvImshow title image circles =>
      title = window_title cfg ∧ circles = map (marker cfg image) (map centre circles)
  | EvWaitKey delay _ => wait_delay cfg = Some delay
  | _ => True
  end.

(** The run keeps the display protocol; it ends outside a display
    unless it ends with the undefined conversion of the delay; every
    window and every key read is as [cfg] asks. *)
Definition displays_as_configured {A} (cfg : Configuration) (r : Run A) : Prop :=
  admits (display_protocol cfg) (Quiet, []) (events r)
  ∧ ((after (display_protocol cfg) (Quiet, []) (events r)).1 = Quiet
     ∨ (outcome r = Undefined ∧ wait_delay cfg = None))
  ∧ Forall (displayed_as cfg) (events r)
  ∧ (wait_delay cfg ≠ None →
     length (filter is_wait_key (events r)) = length (filter is_imshow (events r))).

(** The configuration that [run_program] hands to the mode driver: the
    wait time is the one given on the command line, or else the default
    of the mode. *)
Definition effective_cfg (l : Locals) : Configuration :=
  if wait_time_specified l then cfg l
  else set_wait_time (cfg l)
         (if lists_mode l || video_mode l then one_thirtieth else double_of_int 0).

(** The tracker and its parameters are loaded first, from the
    configured pathnames, and never again; they are deleted last, and
    exactly when the run returns. *)
Definition loads_first_deletes_on_return {A} (cfg : Configuration) (r : Run A) : Prop :=
  ∃ mid,
    Forall (λ e, is_load e = false ∧ is_delete e = false) mid
    ∧ events r
      = [EvLoadFaceTracker (model_pathname cfg);
         EvLoadFaceTrackerParams (params_pathname cfg)]
        ++ mid ++ (if outcome r is Ret _ then [EvDelete; EvDelete] else []).

(** The monitor that collects the lines written to the standard output
    and what [f] extracts from the events. *)
Definition reporting {X} (f : Event → option X) (st : list string * list X) (e : Event)
  : Prop * (list string * list X) :=
  (True, ((collecting stdout_text st.1 e).2, (collecting f st.2 e).2)).

(** The progress lines of the verbose modes. *)
Definition image_line (index number_of_images : Z) : string :=
  " Image " +:+ show_int_s index +:+ "/" +:+ show_int_s number_of_images +:+ CR.
Definition frame_line (frame_number : Z) : string :=
  " Frame number " +:+ show_int_s frame_number +:+ CR.

(* ================================================================= *)
(** * Properties *)

(** ** Reasoning about monitored runs *)

Section MonitorLogic.

Context {S : Type} (step : S → Event → Prop * S).

Lemma admits_app st l1 l2 :
  admits step st (l1 ++ l2) ↔ admits step st l1 ∧ admits step (after step st l1) l2.
Proof.
  revert st. induction l1 as [|e l1 IH]; intros st; simpl.
  - tauto.
  - rewrite IH. tauto.
Qed.

Lemma after_app st l1 l2 :
  after step st (l1 ++ l2) = after step (after step st l1) l2.
Proof. revert st. induction l1 as [|e l1 IH]; intros st; simpl; auto. Qed.

Lemma wp_ret {A} (a : A) post st : post (Ret a) st → wp step (ret a) post st.
Proof. intros Hp k. simpl. auto. Qed.

Lemma wp_throw {A} e (post : Outcome A → S → Prop) st :
  post (Throw e) st → wp step (throw e) post st.
Proof. intros Hp k. simpl. auto. Qed.

Lemma wp_undefined {A} (post : Outcome A → S → Prop) st :
  post Undefined st → wp step undefined post st.
Proof. intros Hp k. simpl. auto. Qed.

Lemma wp_emit e post st :
  (step st e).1 → post (Ret tt) (step st e).2 → wp step (emit e) post st.
Proof. intros H1 H2 k. simpl. auto. Qed.

Lemma wp_bind {A B} (m : M A) (f : A → M B) post st :
  wp step m (λ o st', match o with
                      | Ret a => wp step (f a) post st'
                      | Throw e => post (Throw e) st'
                      | Undefined => post Undefined st'
                      end) st →
  wp step (bind m f) post st.
Proof.
  intros Hm k. destruct (Hm k) as [Ha Hp]. unfold bind.
  destruct (outcome (m k)) as [a|e|]; simpl; auto.
  destruct (Hp (presses (m k))) as [Ha' Hp'].
  rewrite admits_app, after_app. auto.
Qed.

Lemma wp_mono {A} (m : M A) (post post' : Outcome A → S → Prop) st :
  wp step m post st → (∀ o st', post o st' → post' o st') → wp step m post' st.
Proof. intros Hm Himp k. destruct (Hm k). auto. Qed.

End MonitorLogic.

#[local] Arguments String.app : simpl never.
#[local] Arguments show_int_s : simpl never.
#[local] Arguments usage_text : simpl never.
#[local] Arguments double_of_int : simpl never.
#[local] Arguments double_mul : simpl never.
#[local] Arguments double_div : simpl never.
#[local] Arguments double_to_int : simpl never.
#[local] Arguments double_is_zero : simpl never.

Lemma wp_waitKey {S} (step : S → Event → Prop * S) (W : World) delay post st :
  (∀ key, (∃ n, key = waitKey W n delay) →
          (step st (EvWaitKey delay key)).1
          ∧ post (Ret key) (step st (EvWaitKey delay key)).2) →
  wp step (call_waitKey W delay) post st.
Proof. intros Hk k. simpl. destruct (Hk (waitKey W k delay)); eauto. Qed.

Lemma centre_circles (points : Shape) r c th lt sh :
  map centre (map (λ p, {| centre := p; radius := r; colour := c;
                           thickness := th; linetype := lt; shift := sh |}) points)
  = points.
Proof. induction points; simpl; congruence. Qed.

Create HintDb driver.
#[local] Hint Resolve centre_circles : driver.

(** Symbolic execution of a driver against a monitor: one step per
    construct of the embedding. *)
Ltac wp_step :=
  lazymatch goal with
  | |- wp _ (bind _ _) _ _ => apply wp_bind
  | |- wp _ (ret _) _ _ => apply wp_ret
  | |- wp _ (throw _) _ _ => apply wp_throw
  | |- wp _ undefined _ _ => apply wp_undefined
  | |- wp _ (missing_value _) _ _ => apply wp_throw
  | |- wp _ (emit _) _ _ => apply wp_emit; [simpl; auto with driver | simpl]
  | |- wp _ print_usage _ _ => apply wp_emit; [simpl; auto with driver | simpl]
  | |- wp _ (call_waitKey _ _) _ _ =>
      apply wp_waitKey; intros ?key ?Hkey; split; [simpl; auto with driver | simpl]
  | |- wp _ (when ?b _) _ _ => destruct b eqn:?; unfold when
  | |- wp _ (if ?b then _ else _) _ _ => destruct b eqn:?
  | |- wp _ (match ?x with _ => _ end) _ _ => destruct x eqn:?
  | |- wp _ (let _ := _ in _) _ _ => cbv zeta
  | |- wp _ (display_image_and_points _ _ _ _) _ _ => unfold display_image_and_points
  | |- wp _ (call_load_grayscale_image _ _) _ _ => unfold call_load_grayscale_image
  | |- wp _ (call_read_list _ _) _ _ => unfold call_read_list
  | |- wp _ (call_LoadFaceTracker _) _ _ => unfold call_LoadFaceTracker
  | |- wp _ (call_LoadFaceTrackerParams _) _ _ => unfold call_LoadFaceTrackerParams
  | |- wp _ (delete_tracker _ _) _ _ => unfold delete_tracker
  | |- wp _ (call_NewFrame _ _ _) _ _ => unfold call_NewFrame
  | |- wp _ (call_Track _ _ _) _ _ => unfold call_Track
  | |- wp _ (call_getShape _) _ _ => unfold call_getShape
  | |- wp _ (call_Reset _) _ _ => unfold call_Reset
  | |- wp _ (call_SavePts _ _) _ _ => unfold call_SavePts
  | |- wp _ (call_snprintf _ _ _ _) _ _ => unfold call_snprintf
  | |- wp _ (convert_to_int _) _ _ => unfold convert_to_int
  | |- wp _ (deref _) _ _ => unfold deref
  | |- wp _ (get_argument _ _ _) _ _ => unfold get_argument
  end.

(** ** The decision discipline holds in every run *)

Section Discipline.

Context {T P : Type} `{FaceTracker T P} (W : World).

Lemma lists_body_discipline mr cfg la params n p lit idx tracker shape0 :
  wp (discipline (tracking_threshold cfg) mr)
     (lists_body W cfg la params n p lit idx tracker)
     (λ _ ph, is_idle ph) (Idle shape0).
Proof.
  unfold lists_body. cbv zeta.
  repeat wp_step; try (by eexists); lia.
Qed.

Lemma lists_loop_discipline mr cfg la params n images :
  ∀ lit idx tracker shape0,
    wp (discipline (tracking_threshold cfg) mr)
       (lists_loop W cfg la params n images lit idx tracker)
       (λ _ ph, is_idle ph) (Idle shape0).
Proof.
  induction images as [|p images IH]; intros lit idx tracker shape0; simpl.
  - apply wp_ret. by eexists.
  - apply wp_bind. eapply wp_mono; [apply lists_body_discipline|].
    intros o ph [sh ->]. destruct o as [[[lit' idx'] tracker']| |].
    + apply IH.
    + by eexists.
    + by eexists.
Qed.

Lemma video_body_discipline mr cfg la params image n tracker shape0 :
  wp (discipline (tracking_threshold cfg) mr)
     (video_body W cfg la params image n tracker)
     (λ _ ph, is_idle ph) (Idle shape0).
Proof.
  unfold video_body. cbv zeta.
  repeat wp_step; try (by eexists); lia.
Qed.

Lemma video_loop_discipline mr cfg la params input :
  ∀ n tracker shape0,
    wp (discipline (tracking_threshold cfg) mr)
       (video_loop W cfg la params input n tracker)
       (λ _ ph, is_idle ph) (Idle shape0).
Proof.
  induction input as [|image input IH]; intros n tracker shape0; simpl.
  - wp_step. by eexists.
  - wp_step. wp_step. wp_step; [|wp_step; by eexists].
    apply wp_bind. eapply wp_mono; [apply video_body_discipline|].
    intros o ph [sh ->]. destruct o as [tracker'| |].
    + apply IH.
    + by eexists.
    + by eexists.
Qed.

Lemma run_lists_mode_discipline mr cfg ia la :
  wp (discipline (tracking_threshold cfg) mr) (run_lists_mode W cfg ia la)
     (λ _ ph, is_idle ph) (Idle []).
Proof.
  unfold run_lists_mode.
  repeat wp_step; try (by eexists);
    (eapply wp_mono; [apply lists_loop_discipline|]);
    (intros o ph [sh ->]; destruct o; [|by eexists..]);
    repeat wp_step; by eexists.
Qed.

Lemma run_video_mode_discipline mr cfg ia la :
  wp (discipline (tracking_threshold cfg) mr) (run_video_mode W cfg ia la)
     (λ _ ph, is_idle ph) (Idle []).
Proof.
  unfold run_video_mode.
  repeat wp_step; try (by eexists);
    (eapply wp_mono; [apply video_loop_discipline|]);
    (intros o ph [sh ->]; destruct o; [|by eexists..]);
    repeat wp_step; by eexists.
Qed.

Lemma run_image_mode_discipline cfg ia la :
  wp (discipline (tracking_threshold cfg) false) (run_image_mode W cfg ia la)
     (λ _ ph, settled (tracking_threshold cfg) false ph) (Idle []).
Proof.
  unfold run_image_mode.
  repeat wp_step; simpl; try done; try lia; repeat split; lia.
Qed.

End Discipline.

(** ** From the discipline to single events *)

Lemma discipline_scored t mr ph e c :
  score_of e = Some c → (discipline t mr ph e).2 = Scored c.
Proof. destruct ph, e; simpl; intros Hs; try discriminate; congruence. Qed.

Lemma obeys_accepts_iff t mr tr : obeys t mr tr → accepts_iff_reaches t tr.
Proof.
  intros [Ha Hs] pre e c rest -> Hsc.
  rewrite admits_app in Ha. rewrite after_app in Hs. simpl in Ha, Hs.
  destruct Ha as (_ & _ & Hrest).
  rewrite (discipline_scored _ _ _ _ _ Hsc) in Hrest, Hs.
  destruct rest as [|e' rest']; simpl in *.
  - split; [lia|]. intros (s & r & ?). discriminate.
  - destruct Hrest as [He' _].
    destruct e'; simpl in He';
      try (split; [lia | intros (s & r & ?); discriminate]).
    split; [eauto | done].
Qed.

Lemma obeys_resets t tr : obeys t true tr → resets_rejected t tr.
Proof.
  intros [Ha Hs] pre e c rest -> Hsc Hlt.
  rewrite admits_app in Ha. rewrite after_app in Hs. simpl in Ha, Hs.
  destruct Ha as (_ & _ & Hrest).
  rewrite (discipline_scored _ _ _ _ _ Hsc) in Hrest, Hs.
  destruct rest as [|e' rest']; simpl in *.
  - destruct Hs. discriminate.
  - destruct Hrest as [He' _].
    destruct e'; simpl in He'; try (destruct He' as (_ & ? & _); discriminate).
    + lia.
    + eauto.
Qed.

Lemma scores_cons e tr :
  scores (e :: tr)
  = match score_of e with Some c => c :: scores tr | None => scores tr end.
Proof. reflexivity. Qed.

Lemma all_accept_aux t mr tr :
  ∀ ph, admits (discipline t mr) ph tr →
        settled t mr (after (discipline t mr) ph tr) →
        (∀ c, ph = Scored c → t ≤ c) →
        Forall (λ c, t ≤ c) (scores tr) →
        length (filter is_get_shape tr) = (pending ph + length (scores tr))%nat
        ∧ Forall (λ e, is_reset e = false) tr.
Proof.
  induction tr as [|e tr IH]; intros ph Ha Hs Hph Hall.
  - split; [|constructor]. destruct ph as [|c]; simpl in *; [done|].
    specialize (Hph c eq_refl). lia.
  - destruct Ha as [He Ha]. simpl in Hs. rewrite scores_cons in Hall.
    assert (Hnext : ∀ c, (discipline t mr ph e).2 = Scored c → t ≤ c).
    { intros c Hc. destruct ph, e; simpl in *; try discriminate;
        inversion Hc; subst; by inversion Hall. }
    assert (Hall' : Forall (λ c, t ≤ c) (scores tr)).
    { destruct (score_of e); [by inversion Hall | done]. }
    destruct (IH _ Ha Hs Hnext Hall') as [IH1 IH2].
    assert (Hph' : ∀ c, ph = Scored c → ¬ c < t).
    { intros c Hc. specialize (Hph c Hc). lia. }
    split.
    + rewrite filter_cons, scores_cons.
      destruct ph as [sh|c0], e; simpl in *; try done; rewrite ?IH1; simpl;
        try lia; exfalso; apply (Hph' c0 eq_refl); tauto.
    + constructor; [|done].
      destruct ph as [sh|c0], e; simpl in *; try done.
      exfalso; apply (Hph' c0 eq_refl); tauto.
Qed.

Lemma all_reject_aux t mr tr :
  ∀ ph, admits (discipline t mr) ph tr →
        Forall (λ c, c < t) (scores tr) →
        (∀ c, ph = Scored c → c < t) →
        Forall (λ e, is_get_shape e = false) tr.
Proof.
  induction tr as [|e tr IH]; intros ph Ha Hall Hph.
  - constructor.
  - destruct Ha as [He Ha]. rewrite scores_cons in Hall.
    assert (Hnext : ∀ c, (discipline t mr ph e).2 = Scored c → c < t).
    { intros c Hc. destruct ph, e; simpl in *; try discriminate;
        inversion Hc; subst; by inversion Hall. }
    assert (Hall' : Forall (λ c, c < t) (scores tr)).
    { destruct (score_of e); [by inversion Hall | done]. }
    constructor; [|by apply (IH _ Ha Hall' Hnext)].
    destruct ph as [sh|c0], e; simpl in *; try done.
    specialize (Hph c0 eq_refl). lia.
Qed.

Lemma obeys_all_accept t mr tr :
  obeys t mr tr → Forall (λ c, t ≤ c) (scores tr) →
  length (filter is_get_shape tr) = length (scores tr)
  ∧ Forall (λ e, is_reset e = false) tr.
Proof.
  intros [Ha Hs] Hall.
  destruct (all_accept_aux t mr tr (Idle []) Ha Hs) as [H1 H2]; auto.
  congruence.
Qed.

Lemma obeys_all_reject t mr tr :
  obeys t mr tr → Forall (λ c, c < t) (scores tr) →
  Forall (λ e, is_get_shape e = false) tr.
Proof.
  intros [Ha Hs] Hall. apply (all_reject_aux t mr tr (Idle []) Ha Hall). congruence.
Qed.

Lemma no_reset_admits tr :
  ∀ n, admits no_reset_step n tr →
       Forall (λ e, is_reset e = false) tr
       ∧ after no_reset_step n tr = (n + length (scores tr))%nat.
Proof.
  induction tr as [|e tr IH]; intros n Ha; simpl in *.
  - split; [constructor | lia].
  - destruct Ha as [He Ha]. destruct (IH _ Ha) as [IH1 IH2].
    split; [constructor; auto|]. rewrite IH2.
    destruct (score_of e); simpl; lia.
Qed.

Section Decisions.

Context {T P : Type} `{FaceTracker T P} (W : World).

Lemma is_idle_settled t mr ph : is_idle ph → settled t mr ph.
Proof. intros [s ->]. exact I. Qed.

Lemma run_lists_mode_obeys mr cfg ia la k :
  obeys (tracking_threshold cfg) mr (events (run_lists_mode W cfg ia la k)).
Proof.
  destruct (run_lists_mode_discipline W mr cfg ia la k) as [Ha Hp].
  split; [exact Ha | by apply is_idle_settled].
Qed.

Lemma run_video_mode_obeys mr cfg ia la k :
  obeys (tracking_threshold cfg) mr (events (run_video_mode W cfg ia la k)).
Proof.
  destruct (run_video_mode_discipline W mr cfg ia la k) as [Ha Hp].
  split; [exact Ha | by apply is_idle_settled].
Qed.

Lemma run_image_mode_obeys cfg ia la k :
  obeys (tracking_threshold cfg) false (events (run_image_mode W cfg ia la k)).
Proof. exact (run_image_mode_discipline W cfg ia la k). Qed.

Lemma run_image_mode_no_reset cfg ia la k :
  Forall (λ e, is_reset e = false) (events (run_image_mode W cfg ia la k))
  ∧ (length (scores (events (run_image_mode W cfg ia la k))) ≤ 1)%nat.
Proof.
  assert (Hwp : wp no_reset_step (run_image_mode W cfg ia la)
                   (λ _ n, (n ≤ 1)%nat) 0%nat).
  { unfold run_image_mode. repeat wp_step; simpl; lia. }
  destruct (Hwp k) as [Ha Hn].
  destruct (no_reset_admits _ _ Ha) as [Hr Hc]. split; [done|].
  rewrite Hc in Hn. lia.
Qed.

(** C1.  In each of the three modes, and for every score [c] that the
    tracker returns in a run with threshold [t], the frame is accepted
    (the next event takes the shape from the tracker, and that shape is
    the one written or displayed until the next score) if and only if
    [t <= c]; otherwise the empty shape is what is written or displayed.
    A score equal to the threshold is therefore an accept. *)
Theorem accept_iff_score_reaches_threshold cfg ia la k :
  let t := tracking_threshold cfg in
  (obeys t false (events (run_image_mode W cfg ia la k))
   ∧ accepts_iff_reaches t (events (run_image_mode W cfg ia la k)))
  ∧ (obeys t false (events (run_lists_mode W cfg ia la k))
     ∧ accepts_iff_reaches t (events (run_lists_mode W cfg ia la k)))
  ∧ (obeys t false (events (run_video_mode W cfg ia la k))
     ∧ accepts_iff_reaches t (events (run_video_mode W cfg ia la k))).
Proof.
  intros t. unfold t.
  pose proof (run_image_mode_obeys cfg ia la k) as Hi.
  pose proof (run_lists_mode_obeys false cfg ia la k) as Hl.
  pose proof (run_video_mode_obeys false cfg ia la k) as Hv.
  split; [split; [exact Hi | by eapply obeys_accepts_iff]|].
  split; [split; [exact Hl | by eapply obeys_accepts_iff]|].
  split; [exact Hv | by eapply obeys_accepts_iff].
Qed.

(** C2, as amended.  In list mode and in video mode every score below
    the threshold is followed at once by the reset of the tracker, before
    any other call, and the shape of that frame stays empty.  In image
    mode the shape of a rejected frame stays empty as well, but the
    tracker is never reset; the run makes at most one tracking call. *)
Theorem rejected_frame_resets_in_list_and_video_mode cfg ia la k :
  let t := tracking_threshold cfg in
  (obeys t true (events (run_lists_mode W cfg ia la k))
   ∧ resets_rejected t (events (run_lists_mode W cfg ia la k)))
  ∧ (obeys t true (events (run_video_mode W cfg ia la k))
     ∧ resets_rejected t (events (run_video_mode W cfg ia la k)))
  ∧ (obeys t false (events (run_image_mode W cfg ia la k))
     ∧ Forall (λ e, is_reset e = false) (events (run_image_mode W cfg ia la k))
     ∧ (length (scores (events (run_image_mode W cfg ia la k))) ≤ 1)%nat).
Proof.
  intros t. unfold t.
  pose proof (run_lists_mode_obeys true cfg ia la k) as Hl.
  pose proof (run_video_mode_obeys true cfg ia la k) as Hv.
  split; [split; [done | by apply obeys_resets]|].
  split; [split; [done | by apply obeys_resets]|].
  split; [apply run_image_mode_obeys | apply run_image_mode_no_reset].
Qed.

End Decisions.

(** C2 as stated fails in image mode: with the default threshold 5 and a
    tracker that scores the image 4, the frame is rejected and no reset
    follows the score. *)
Lemma image_mode_rejects_without_reset :
  let tracker := Fixture.scripted [(4, Fixture.five_points)] in
  let cfg := default_cfg (H := tracker) in
  let r := run_image_mode (H := tracker) (Fixture.world Fixture.no_key) cfg
             (Some "a.png"%string) None 0%nat in
  scores (events r) = [4]
  ∧ 4 < tracking_threshold cfg
  ∧ ¬ resets_rejected (tracking_threshold cfg) (events r).
Proof.
  split; [reflexivity|]. split; [reflexivity|].
  intros Hr.
  destruct (Hr [EvLoadFaceTracker "face.mytracker.binary";
                EvLoadFaceTrackerParams "face.mytrackerparams.binary";
                EvLoadImage "a.png"]%string
               (EvNewFrame (Fixture.gray_frame 1) 4) 4
               [EvImshow "CSIRO Face Fit"%string (Fixture.gray_frame 1) [];
                EvStdout ("Press any key to continue." +:+ LF);
                EvWaitKey 0 (-1); EvDelete; EvDelete])
    as [rest' Hrest]; [reflexivity | reflexivity | reflexivity | discriminate].
Qed.

(** ** Output routing *)

Lemma acting_after tr : ∀ a,
  after acting a tr
  = {| persist := persist a || persist (actions_of tr);
       display := display a || display (actions_of tr) |}.
Proof.
  induction tr as [|e tr IH]; intros [p d]; simpl.
  - by rewrite !orb_false_r.
  - rewrite IH. simpl. by rewrite !orb_assoc.
Qed.

Lemma acting_actions_of tr : after acting no_action tr = actions_of tr.
Proof. rewrite acting_after. by destruct (actions_of tr). Qed.

Lemma render_defined ds :
  (slots ds = 0%nat → ∃ out, render ds None = Some out)
  ∧ ((slots ds ≤ 1)%nat → ∀ n, ∃ out, render ds (Some n) = Some out).
Proof.
  induction ds as [|[c|zero width signed] ds [IH0 IH1]]; simpl.
  - split; eauto.
  - split.
    + intros Hs. destruct (IH0 Hs) as [out ->]. simpl. eauto.
    + intros Hs n. destruct (IH1 Hs n) as [out ->]. simpl. eauto.
  - split; [discriminate|].
    intros Hs n. destruct IH0 as [out ->]; [lia|]. simpl. eauto.
Qed.

Lemma snprintf_defined la format size n :
  format_ok la → la = Some format → ∃ s, snprintf size format n = Some s.
Proof.
  intros Hok ->. destruct Hok as (ds & Hds & Hslots).
  unfold snprintf, sprintf. rewrite Hds. simpl.
  destruct (proj2 (render_defined ds) Hslots n) as [out ->]. simpl. eauto.
Qed.

Lemma formatted_defined W la format size n :
  format_ok la → la = Some format →
  ∃ s, snprintf size format n = Some s ∧ formatted W size format n = Some s.
Proof.
  intros Hok Hla. destruct (snprintf_defined la format size n Hok Hla) as [s Hs].
  exists s. unfold formatted. by rewrite Hs.
Qed.

(** Closing the cases that symbolic execution leaves: rewrite with the
    recorded tests and compute. *)
Ltac finish_cases :=
  simpl in *; try discriminate;
  repeat (match goal with
          | Hx : ?x = _ |- context [?x] => progress (rewrite Hx)
          end; simpl);
  try done.

(** Closing the case of a key read as escape when the keyboard never
    returns one. *)
Ltac no_escape Hkeys :=
  match goal with
  | Hkey : ex _, Heq : (to_char _ =? 27) = true |- _ =>
      destruct Hkey as [? ->]; apply Z.eqb_eq in Heq; by destruct (Hkeys _ _ Heq)
  end.

Section Routing.

Context {T P : Type} `{FaceTracker T P} (W : World).

Lemma lists_body_routes cfg la params n p lit idx tracker gray image k :
  load_grayscale_image W p = Some (gray, image) →
  (have_argument_p la = true → lit ≠ []) →
  let c := (NewFrame tracker gray params).1 in
  let shape := if c >=? tracking_threshold cfg
               then getShape (NewFrame tracker gray params).2 else [] in
  actions_of (events (lists_body W cfg la params n p lit idx tracker k))
  = router_table (have_argument_p la) (0 <? length shape)%nat (verbose cfg).
Proof.
  intros Hload Hlit c shape. rewrite <- acting_actions_of.
  cut (wp acting (lists_body W cfg la params n p lit idx tracker)
          (λ _ a, a = router_table (have_argument_p la) (0 <? length shape)%nat
                        (verbose cfg)) no_action).
  { intros Hwp. apply Hwp. }
  unfold shape, c, lists_body, call_load_grayscale_image. rewrite Hload.
  clear shape c. cbv zeta.
  repeat wp_step; destruct la; finish_cases; by destruct Hlit.
Qed.

Lemma video_body_routes cfg la params image n tracker k :
  supported image = true →
  format_ok la →
  let gray := if type image =? DataType_Vec_uint8_3
              then cvtColor_BGR2GRAY W image else image in
  let c := (Track tracker gray params).1 in
  let shape := if c >=? tracking_threshold cfg
               then getShape (Track tracker gray params).2 else [] in
  actions_of (events (video_body W cfg la params image n tracker k))
  = router_table (have_argument_p la) (0 <? length shape)%nat (verbose cfg).
Proof.
  intros Hsup Hfmt gray c shape. rewrite <- acting_actions_of.
  cut (wp acting (video_body W cfg la params image n tracker)
          (λ _ a, a = router_table (have_argument_p la) (0 <? length shape)%nat
                        (verbose cfg)) no_action).
  { intros Hwp. apply Hwp. }
  unfold shape, c, gray, video_body, supported in *. clear shape c gray. cbv zeta.
  destruct la as [format|].
  - destruct (formatted_defined W _ format 1000 n Hfmt eq_refl) as [s [_ Hs]].
    repeat wp_step; finish_cases;
      try (rewrite ?Heqb, ?Heqb0, ?Heqb1 in Hsup; done); congruence.
  - repeat wp_step; finish_cases; rewrite ?Heqb, ?Heqb0, ?Heqb1 in Hsup; done.
Qed.

Lemma run_image_mode_routes cfg la pathname gray image k :
  load_grayscale_image W pathname = Some (gray, image) →
  let tracker := LoadFaceTracker (model_pathname cfg) in
  let params := LoadFaceTrackerParams (params_pathname cfg) in
  let c := (NewFrame tracker gray params).1 in
  let shape := if c >=? tracking_threshold cfg
               then getShape (NewFrame tracker gray params).2 else [] in
  actions_of (events (run_image_mode W cfg (Some pathname) la k))
  = router_table (have_argument_p la) (0 <? length shape)%nat false.
Proof.
  intros Hload tracker params c shape. rewrite <- acting_actions_of.
  cut (wp acting (run_image_mode W cfg (Some pathname) la)
          (λ _ a, a = router_table (have_argument_p la) (0 <? length shape)%nat
                        false) no_action).
  { intros Hwp. apply Hwp. }
  unfold shape, c, tracker, params, run_image_mode.
  clear shape c tracker params. cbv zeta.
  repeat wp_step; simplify_eq; try destruct la; finish_cases.
Qed.

End Routing.

Section RoutingClaim.

Context {T P : Type} `{FaceTracker T P} (W : World).

(** C3, as amended.  For every destination argument, shape and verbose
    flag, an iteration of list mode and an iteration of video mode take
    the action set of the router table.  Image mode takes the action set
    that the table gives for a run that is not verbose, whatever the
    verbose flag is: without a destination it displays; with a
    destination it persists a non-empty shape and never displays. *)
Theorem routing_follows_table_except_verbose_in_image_mode
    cfg la params n pathname lit idx tracker gray image frame frame_number k
    (Hload : load_grayscale_image W pathname = Some (gray, image))
    (Hlit : have_argument_p la = true → lit ≠ [])
    (Hsup : supported frame = true)
    (Hfmt : format_ok la) :
  let t := tracking_threshold cfg in
  let frame_gray := if type frame =? DataType_Vec_uint8_3
                    then cvtColor_BGR2GRAY W frame else frame in
  actions_of (events (lists_body W cfg la params n pathname lit idx tracker k))
  = router_table (have_argument_p la)
      (non_empty (decided_shape t (NewFrame tracker gray params))) (verbose cfg)
  ∧ actions_of (events (video_body W cfg la params frame frame_number tracker k))
    = router_table (have_argument_p la)
        (non_empty (decided_shape t (Track tracker frame_gray params))) (verbose cfg)
  ∧ actions_of (events (run_image_mode W cfg (Some pathname) la k))
    = router_table (have_argument_p la)
        (non_empty (decided_shape t
           (NewFrame (LoadFaceTracker (model_pathname cfg)) gray
                     (LoadFaceTrackerParams (params_pathname cfg)))))
        false.
Proof.
  intros t frame_gray. split; [|split].
  - exact (lists_body_routes W cfg la params n pathname lit idx tracker
             gray image k Hload Hlit).
  - exact (video_body_routes W cfg la params frame frame_number tracker k Hsup Hfmt).
  - exact (run_image_mode_routes W cfg la pathname gray image k Hload).
Qed.

End RoutingClaim.

Lemma routing_follows_table_witness :
  let tracker := Fixture.scripted [(7, Fixture.five_points)] in
  let W := Fixture.world Fixture.no_key in
  let cfg := set_verbose (default_cfg (H := tracker)) true in
  let la := Some "out_%04u.pts"%string in
  actions_of (events (lists_body (H := tracker) W cfg la tt 1 "a.png"
                        ["a.pts"%string] 1 (LoadFaceTracker "") 0%nat))
  = {| persist := true; display := true |}
  ∧ actions_of (events (video_body (H := tracker) W cfg la tt
                          (Fixture.colour_frame 1) 1 (LoadFaceTracker "") 0%nat))
    = {| persist := true; display := true |}
  ∧ actions_of (events (run_image_mode (H := tracker) W cfg (Some "a.png"%string) la 0%nat))
    = {| persist := true; display := false |}.
Proof.
  intros tracker W cfg la.
  assert (Hfmt : format_ok la).
  { eexists. split; [reflexivity | simpl; lia]. }
  assert (Hlit : have_argument_p la = true → ["a.pts"%string] ≠ []).
  { intros _. discriminate. }
  exact (routing_follows_table_except_verbose_in_image_mode (H := tracker) W
           cfg la tt 1 "a.png"%string ["a.pts"%string] 1 (LoadFaceTracker "")
           (Fixture.gray_frame 1) (Fixture.gray_frame 1) (Fixture.colour_frame 1)
           1 0%nat eq_refl Hlit eq_refl Hfmt).
Defined.

(** C3 as stated fails in image mode: with a destination, a rejected
    frame (so an empty shape) and the verbose flag set, the table says
    display only, and image mode does nothing. *)
Lemma image_mode_does_not_display_when_verbose :
  let tracker := Fixture.scripted [(4, Fixture.five_points)] in
  let cfg := set_verbose (default_cfg (H := tracker)) true in
  let la := Some "a.pts"%string in
  let r := run_image_mode (H := tracker) (Fixture.world Fixture.no_key) cfg
             (Some "a.png"%string) la 0%nat in
  verbose cfg = true
  ∧ outcome r = Ret 0
  ∧ router_table (have_argument_p la) false (verbose cfg)
    = {| persist := false; display := true |}
  ∧ actions_of (events r) = {| persist := false; display := false |}
  ∧ actions_of (events r) ≠ router_table (have_argument_p la) false (verbose cfg).
Proof. repeat split; try reflexivity. discriminate. Qed.

(** ** Argument processing *)

Lemma collecting_after {X} (f : Event → option X) tr :
  ∀ l, after (collecting f) l tr = l ++ omap f tr.
Proof.
  induction tr as [|e tr IH]; intros l; simpl; [by rewrite app_nil_r|].
  rewrite IH. destruct (f e); simpl; [by rewrite <- app_assoc | done].
Qed.

Lemma omap_Some {X} (l : list X) : omap Some l = l.
Proof. induction l as [|v l IH]; [done|]. change (v :: omap Some l = v :: l). by rewrite IH. Qed.

Lemma bind_ret_l {A B} (a : A) (f : A → M B) k : bind (ret a) f k = f a k.
Proof. unfold bind, ret. simpl. by destruct (f a k). Qed.

Lemma not_option_tests a :
  is_option a = false →
  String.eqb a "--help" = false ∧ String.eqb a "-h" = false
  ∧ String.eqb a "--lists" = false ∧ String.eqb a "--video" = false
  ∧ String.eqb a "--wait-time" = false ∧ String.eqb a "--model" = false
  ∧ String.eqb a "--params" = false ∧ String.eqb a "--title" = false
  ∧ String.eqb a "--threshold" = false ∧ String.eqb a "--verbose" = false.
Proof.
  unfold is_option. intros Hopt. apply bool_decide_eq_false in Hopt.
  repeat split; apply String.eqb_neq; intros ->; apply Hopt; set_solver.
Qed.

Lemma argument_loop_positional W a rest ia la lm vm wts cfg :
  is_option a = false →
  argument_loop W (a :: rest) ia la lm vm wts cfg
  = match assign_argument a ia la with
    | None => throw (runtime_error ("Unable to process argument '" +:+ a +:+ "'"))
    | Some (ia', la') => argument_loop W rest ia' la' lm vm wts cfg
    end.
Proof.
  intros Hopt.
  destruct (not_option_tests a Hopt) as (H1 & H2 & H3 & H4 & H5 & H6 & H7 & H8 & H9 & H10).
  simpl. rewrite H1, H2, H3, H4, H5, H6, H7, H8, H9, H10. reflexivity.
Qed.

Lemma argument_loop_input W a lm vm wts cfg :
  is_option a = false →
  argument_loop W [a] None None lm vm wts cfg
  = ret (Some {| image_argument := Some a; landmarks_argument := None;
                 lists_mode := lm; video_mode := vm;
                 wait_time_specified := wts; cfg := cfg |}).
Proof. intros Ha. by rewrite argument_loop_positional. Qed.

Lemma argument_loop_input_output W a b lm vm wts cfg :
  is_option a = false → is_option b = false →
  argument_loop W [a; b] None None lm vm wts cfg
  = ret (Some {| image_argument := Some a; landmarks_argument := Some b;
                 lists_mode := lm; video_mode := vm;
                 wait_time_specified := wts; cfg := cfg |}).
Proof.
  intros Ha Hb. rewrite argument_loop_positional by done.
  unfold assign_argument. by rewrite argument_loop_positional.
Qed.

Lemma argument_loop_third_positional W a b c rest lm vm wts cfg :
  is_option a = false → is_option b = false → is_option c = false →
  argument_loop W (a :: b :: c :: rest) None None lm vm wts cfg
  = throw (runtime_error ("Unable to process argument '" +:+ c +:+ "'")).
Proof.
  intros Ha Hb Hc. rewrite argument_loop_positional by done.
  unfold assign_argument. rewrite argument_loop_positional by done.
  unfold assign_argument. by rewrite argument_loop_positional.
Qed.

(** The argument loop against any monitor: it ends in the state it
    started in, unless it printed the usage text. *)
Lemma argument_loop_wp {S} (step : S → Event → Prop * S) W
    (post : Outcome (option Locals) → S → Prop) st n :
  (∀ l, post (Ret (Some l)) st) →
  (∀ what, post (Throw (runtime_error what)) st) →
  (step st (EvStdout (usage_text +:+ LF))).1 →
  post (Ret None) (step st (EvStdout (usage_text +:+ LF))).2 →
  ∀ args, (length args ≤ n)%nat → ∀ ia la lm vm wts cfg,
    wp step (argument_loop W args ia la lm vm wts cfg) post st.
Proof.
  intros Hsome Hthrow Hstep Hnone.
  induction n as [|n IH]; intros args Hlen ia la lm vm wts cfg.
  - destruct args; [|simpl in Hlen; lia]. simpl. by wp_step.
  - destruct args as [|a rest]; [simpl; by wp_step|].
    simpl in Hlen.
    assert (Hrest : ∀ ia la lm vm wts cfg,
               wp step (argument_loop W rest ia la lm vm wts cfg) post st).
    { intros. apply IH. lia. }
    assert (Hrest' : ∀ v rest' ia la lm vm wts cfg, rest = v :: rest' →
               wp step (argument_loop W rest' ia la lm vm wts cfg) post st).
    { intros v rest' ? ? ? ? ? ? ->. apply IH. simpl in Hlen. lia. }
    simpl.
    repeat (wp_step; try done; try apply Hrest; try (eapply Hrest'; reflexivity)).
Qed.

Section Arguments.

Context {T P : Type} `{FaceTracker T P} (W : World).

Lemma switches_leave_no_image args :
  Forall (λ a, a ∈ ["--lists"; "--video"; "--verbose"]%string) args →
  ∀ lm vm wts cfg k,
    ∃ lm' vm' cfg',
      argument_loop W args None None lm vm wts cfg k
      = mkRun (Ret (Some {| image_argument := None; landmarks_argument := None;
                            lists_mode := lm'; video_mode := vm';
                            wait_time_specified := wts; cfg := cfg' |})) [] k.
Proof.
  induction 1 as [|a args Ha _ IH]; intros lm vm wts cfg k.
  - simpl. eauto.
  - assert (Hcase : (a = "--lists" ∨ a = "--video" ∨ a = "--verbose")%string).
    { rewrite !elem_of_cons, elem_of_nil in Ha. tauto. }
    destruct Hcase as [-> | [-> | ->]]; simpl; apply IH.
Qed.

(** C9.  When the argument loop ends without a positional argument (so
    with the image argument not given), the program prints the usage
    text and returns 0, and that print is the only event of the run: no
    tracker, image or video is touched.  This is in particular the case
    of a command line that holds only mode and verbosity switches, the
    empty one included. *)
Theorem no_input_argument_prints_usage_and_exits_0 :
  (∀ args k l,
     outcome (argument_loop W args None None false false false default_cfg k)
     = Ret (Some l) →
     image_argument l = None →
     outcome (main W args k) = Ret 0
     ∧ events (main W args k) = [EvStdout (usage_text +:+ LF)])
  ∧ (∀ args k,
       Forall (λ a, a ∈ ["--lists"; "--video"; "--verbose"]%string) args →
       main W args k = mkRun (Ret 0) [EvStdout (usage_text +:+ LF)] k).
Proof.
  split.
  - intros args k l Hout Himg.
    destruct (argument_loop_wp (collecting Some) W
                (λ o l, match o with
                        | Ret (Some _) | Throw _ => l = []
                        | Ret None => l = [EvStdout (usage_text +:+ LF)]
                        | Undefined => False
                        end) [] (length args)
                (λ _, eq_refl) (λ _, eq_refl) I eq_refl args (Nat.le_refl _)
                None None false false false default_cfg k) as [_ Hq].
    rewrite Hout in Hq.
    assert (Hev : events (argument_loop W args None None false false false
                            default_cfg k) = []).
    { rewrite collecting_after, omap_Some in Hq. done. }
    unfold main, try_catch, run_program, bind.
    rewrite Hout, Hev. simpl. rewrite Himg. simpl. done.
  - intros args k Hsw.
    destruct (switches_leave_no_image args Hsw false false false default_cfg k)
      as (lm' & vm' & cfg' & Hloop).
    unfold main, try_catch, run_program, bind. rewrite Hloop. reflexivity.
Qed.

End Arguments.

Lemma no_input_argument_witness :
  let tracker := Fixture.scripted [] in
  let W := Fixture.world Fixture.no_key in
  (outcome (main (H := tracker) W ["--threshold"; "7"; "--video"; "--verbose"]%string 0%nat)
   = Ret 0
   ∧ events (main (H := tracker) W ["--threshold"; "7"; "--video"; "--verbose"]%string 0%nat)
     = [EvStdout (usage_text +:+ LF)])
  ∧ main (H := tracker) W [] 3%nat = mkRun (Ret 0) [EvStdout (usage_text +:+ LF)] 3%nat.
Proof.
  intros tracker W. split.
  - exact (proj1 (no_input_argument_prints_usage_and_exits_0 (H := tracker) W)
             ["--threshold"; "7"; "--video"; "--verbose"]%string 0%nat
             {| image_argument := None; landmarks_argument := None;
                lists_mode := false; video_mode := true;
                wait_time_specified := false;
                cfg := set_verbose (set_tracking_threshold
                                      (default_cfg (H := tracker)) 7) true |}
             eq_refl eq_refl).
  - exact (proj2 (no_input_argument_prints_usage_and_exits_0 (H := tracker) W)
             [] 3%nat (Forall_nil_2 _)).
Defined.

(** ** The length check of list mode *)

Section ListLengths.

Context {T P : Type} `{FaceTracker T P} (W : World).

Lemma run_lists_mode_mismatch cfg il ll images landmarks k :
  read_list W il = Some images →
  read_list W ll = Some landmarks →
  length landmarks ≠ length images →
  outcome (run_lists_mode W cfg (Some il) (Some ll) k)
  = Throw (runtime_error
             ("Number of pathnames in list '" +:+ il
              +:+ "' does not match the number in '" +:+ ll +:+ "'"))
  ∧ events (run_lists_mode W cfg (Some il) (Some ll) k)
    = [EvLoadFaceTracker (model_pathname cfg);
       EvLoadFaceTrackerParams (params_pathname cfg);
       EvReadList il; EvReadList ll].
Proof.
  intros Hi Hl Hneq.
  assert (Hwp : wp (collecting Some) (run_lists_mode W cfg (Some il) (Some ll))
                   (λ o l,
                      o = Throw (runtime_error
                                   ("Number of pathnames in list '" +:+ il
                                    +:+ "' does not match the number in '"
                                    +:+ ll +:+ "'"))
                      ∧ l = [EvLoadFaceTracker (model_pathname cfg);
                             EvLoadFaceTrackerParams (params_pathname cfg);
                             EvReadList il; EvReadList ll]) []).
  { unfold run_lists_mode. repeat wp_step; simplify_eq; try done.
    apply negb_false_iff, Nat.eqb_eq in Heqb. done. }
  destruct (Hwp k) as [_ [Ho He]]. rewrite collecting_after, omap_Some in He. done.
Qed.

(** C4.  In list mode, when the output list that was supplied has a
    length different from the input list's, the run fails with an error
    right after the two lists are read: no image is loaded, no frame is
    tracked and no file is written; the process exits with status 2. *)
Theorem list_length_mismatch_fails_before_any_frame
    config il ll images landmarks k
    (Hi : read_list W il = Some images)
    (Hl : read_list W ll = Some landmarks)
    (Hneq : length landmarks ≠ length images) :
  let r := run_lists_mode W config (Some il) (Some ll) k in
  (∃ what, outcome r = Throw (runtime_error what))
  ∧ events r = [EvLoadFaceTracker (model_pathname config);
                EvLoadFaceTrackerParams (params_pathname config);
                EvReadList il; EvReadList ll]
  ∧ loaded_images (events r) = [] ∧ scores (events r) = []
  ∧ saved_paths (events r) = []
  ∧ (is_option il = false → is_option ll = false →
     let r' := main W ["--lists"; il; ll]%string k in
     outcome r' = Ret 2
     ∧ loaded_images (events r') = [] ∧ scores (events r') = []
     ∧ saved_paths (events r') = []
     ∧ ∃ message, last (events r') = Some (EvStderr message)).
Proof.
  intros r. unfold r.
  destruct (run_lists_mode_mismatch config il ll images landmarks k Hi Hl Hneq)
    as [Ho He].
  rewrite Ho, He. repeat split; eauto.
  all: unfold main, try_catch, run_program.
  all: change (argument_loop W ["--lists"; il; ll]%string None None false false false
                 default_cfg)
         with (argument_loop W [il; ll] None None true false false default_cfg).
  all: rewrite (argument_loop_input_output W il ll) by done.
  all: rewrite bind_ret_l.
  all: cbn [image_argument landmarks_argument lists_mode video_mode
            have_argument_p negb andb].
  all: destruct (run_lists_mode_mismatch (set_wait_time default_cfg one_thirtieth)
                   il ll images landmarks k Hi Hl Hneq) as [Ho' He'].
  all: cbv zeta; cbn [wait_time_specified negb cfg].
  all: rewrite Ho', He'; simpl; eauto.
Qed.

End ListLengths.

Lemma list_length_mismatch_witness :
  let tracker := Fixture.scripted [(7, Fixture.five_points)] in
  let W := Fixture.world Fixture.no_key in
  let r := main (H := tracker) W ["--lists"; "images.txt"; "two.txt"]%string 0%nat in
  outcome r = Ret 2 ∧ loaded_images (events r) = [] ∧ scores (events r) = []
  ∧ saved_paths (events r) = [] ∧ ∃ message, last (events r) = Some (EvStderr message).
Proof.
  intros tracker W.
  assert (Hneq : length ["a.pts"; "b.pts"]%string
                 ≠ length ["a.png"; "b.png"; "c.png"]%string).
  { simpl. lia. }
  exact (proj2 (proj2 (proj2 (proj2 (proj2
           (list_length_mismatch_fails_before_any_frame (H := tracker) W
              (default_cfg (H := tracker)) "images.txt" "two.txt"
              ["a.png"; "b.png"; "c.png"]%string ["a.pts"; "b.pts"]%string 0%nat
              eq_refl eq_refl Hneq))))) eq_refl eq_refl).
Defined.

(** ** From the argument loop to the mode drivers *)

Lemma argument_loop_quiet W n :
  ∀ args, (length args ≤ n)%nat → ∀ ia la lm vm wts cfg k l,
    outcome (argument_loop W args ia la lm vm wts cfg k) = Ret (Some l) →
    argument_loop W args ia la lm vm wts cfg k = mkRun (Ret (Some l)) [] k.
Proof.
  induction n as [|n IH]; intros args Hlen ia la lm vm wts cfg k l.
  - destruct args; [|simpl in Hlen; lia]. simpl. by intros [= <-].
  - destruct args as [|a rest]; [simpl; by intros [= <-]|].
    simpl in Hlen.
    assert (Hrest : ∀ ia la lm vm wts cfg,
               outcome (argument_loop W rest ia la lm vm wts cfg k) = Ret (Some l) →
               argument_loop W rest ia la lm vm wts cfg k = mkRun (Ret (Some l)) [] k).
    { intros. apply IH; [lia | done]. }
    assert (Hrest' : ∀ v rest' ia la lm vm wts cfg, rest = v :: rest' →
               outcome (argument_loop W rest' ia la lm vm wts cfg k) = Ret (Some l) →
               argument_loop W rest' ia la lm vm wts cfg k = mkRun (Ret (Some l)) [] k).
    { intros v rest' ? ? ? ? ? ? -> ?. apply IH; [simpl in Hlen; lia | done]. }
    simpl.
    repeat (match goal with
            | |- context [if ?b then _ else _] => destruct b eqn:?
            | |- context [match ?x with _ => _ end] => destruct x eqn:?
            end; try done; try apply Hrest).
    all: unfold get_argument;
      try match goal with
          | |- context [bind (match ?x with _ => _ end)] => destruct x; [|done]
          end;
      rewrite bind_ret_l; by apply (Hrest' _ _ _ _ _ _ _ _ eq_refl).
Qed.

Section Dispatch.

Context {T P : Type} `{FaceTracker T P} (W : World).

(** What [run_program] goes on with when the argument loop has ended
    with the local variables [l]. *)
Lemma run_program_dispatch args k l :
  outcome (argument_loop W args None None false false false default_cfg k)
  = Ret (Some l) →
  run_program W args k
  = (if negb (have_argument_p (image_argument l)) then print_usage;; ret 0
     else if lists_mode l && video_mode l then
       throw (runtime_error "The operator is confused as the switches --lists and --video are present on the command line.")
     else if lists_mode l then
       run_lists_mode W (if negb (wait_time_specified l)
                         then set_wait_time (cfg l) one_thirtieth else cfg l)
         (image_argument l) (landmarks_argument l)
     else if video_mode l then
       run_video_mode W (if negb (wait_time_specified l)
                         then set_wait_time (cfg l) one_thirtieth else cfg l)
         (image_argument l) (landmarks_argument l)
     else
       run_image_mode W (if negb (wait_time_specified l)
                         then set_wait_time (cfg l) (double_of_int 0) else cfg l)
         (image_argument l) (landmarks_argument l)) k.
Proof.
  intros Hl. unfold run_program.
  pose proof (argument_loop_quiet W (length args) args (Nat.le_refl _) _ _ _ _ _ _ _ _ Hl)
    as Hloop.
  set (rest := λ parsed : option Locals,
                 match parsed with None => ret 0 | Some l => _ end).
  change (bind (argument_loop W args None None false false false default_cfg) rest k
          = rest (Some l) k).
  unfold bind at 1. rewrite Hloop. cbn [outcome events presses app].
  by destruct (rest (Some l) k).
Qed.

End Dispatch.

Lemma argument_loop_keeps W n :
  ∀ args, (length args ≤ n)%nat → ∀ ia la lm vm wts cfg0 k l,
    outcome (argument_loop W args ia la lm vm wts cfg0 k) = Ret (Some l) →
    ("--lists"%string ∉ args → lists_mode l = lm)
    ∧ ("--video"%string ∉ args → video_mode l = vm)
    ∧ ("--wait-time"%string ∉ args →
       wait_time_specified l = wts ∧ wait_time (cfg l) = wait_time cfg0)
    ∧ ("--model"%string ∉ args → model_pathname (cfg l) = model_pathname cfg0)
    ∧ ("--params"%string ∉ args → params_pathname (cfg l) = params_pathname cfg0)
    ∧ ("--title"%string ∉ args → window_title (cfg l) = window_title cfg0)
    ∧ ("--threshold"%string ∉ args →
       tracking_threshold (cfg l) = tracking_threshold cfg0)
    ∧ ("--verbose"%string ∉ args → verbose (cfg l) = verbose cfg0)
    ∧ circle_radius (cfg l) = circle_radius cfg0
    ∧ circle_thickness (cfg l) = circle_thickness cfg0
    ∧ circle_linetype (cfg l) = circle_linetype cfg0
    ∧ circle_shift (cfg l) = circle_shift cfg0.
Proof.
  induction n as [|n IH]; intros args Hlen ia la lm vm wts cfg0 k l.
  - destruct args; [|simpl in Hlen; lia]. simpl. by intros [= <-].
  - destruct args as [|a rest]; [simpl; by intros [= <-]|].
    simpl in Hlen.
    simpl.
    repeat (match goal with
            | |- context [if ?b then _ else _] => destruct b eqn:?
            | |- context [match ?x with _ => _ end] => destruct x eqn:?
            end; try done).
    all: unfold get_argument;
      try match goal with
          | |- context [bind (match ?x with _ => _ end)] => destruct x; [|done]
          end;
      rewrite ?bind_ret_l; subst;
      intros Hl; apply IH in Hl; [|simpl in *; lia]; simpl in Hl.
    all: repeat match goal with
                | Hb : (_ =? _)%string = true |- _ => apply String.eqb_eq in Hb; subst
                end.
    all: destruct Hl as (H1 & H2 & H3 & H4 & H5 & H6 & H7 & H8 & H9 & H10 & H11 & H12).
    all: split_and!; try assumption;
      (intros Hnot; repeat (apply not_elem_of_cons in Hnot as [? Hnot]);
       first [congruence | by auto]).
Qed.

Lemma argument_loop_app W n :
  ∀ pre, (length pre ≤ n)%nat → ∀ rest ia la lm vm wts cfg0 k s,
    outcome (argument_loop W pre ia la lm vm wts cfg0 k) = Ret (Some s) →
    argument_loop W (pre ++ rest) ia la lm vm wts cfg0 k
    = argument_loop W rest (image_argument s) (landmarks_argument s)
        (lists_mode s) (video_mode s) (wait_time_specified s) (cfg s) k.
Proof.
  induction n as [|n IH]; intros pre Hlen rest ia la lm vm wts cfg0 k s.
  - destruct pre; [|simpl in Hlen; lia]. simpl. by intros [= <-].
  - destruct pre as [|a pre]; [simpl; by intros [= <-]|].
    simpl in Hlen. simpl.
    repeat (match goal with
            | |- context [if ?b then _ else _] => destruct b eqn:?
            end; try done; try (apply IH; lia)).
    all: try (destruct (assign_argument a ia la) as [[ia' la']|];
              [apply IH; lia | done]).
    all: destruct pre as [|value pre']; [done|];
      cbn [app]; unfold get_argument;
      try match goal with
          | |- context [bind (match ?x with _ => _ end)] => destruct x; [|done]
          end;
      rewrite !bind_ret_l; apply IH; simpl in Hlen; lia.
Qed.

(** What the options with a value do to the loop variables. *)
Lemma argument_loop_valued W value rest ia la lm vm wts cfg0 k :
  argument_loop W ("--model" :: value :: rest) ia la lm vm wts cfg0 k
  = argument_loop W rest ia la lm vm wts (set_model_pathname cfg0 value) k
  ∧ argument_loop W ("--params" :: value :: rest) ia la lm vm wts cfg0 k
    = argument_loop W rest ia la lm vm wts (set_params_pathname cfg0 value) k
  ∧ argument_loop W ("--title" :: value :: rest) ia la lm vm wts cfg0 k
    = argument_loop W rest ia la lm vm wts (set_window_title cfg0 value) k
  ∧ match read_int W value with
    | Some t =>
        argument_loop W ("--threshold" :: value :: rest) ia la lm vm wts cfg0 k
        = argument_loop W rest ia la lm vm wts (set_tracking_threshold cfg0 t) k
    | None =>
        ∀ l, outcome (argument_loop W ("--threshold" :: value :: rest)
                        ia la lm vm wts cfg0 k) ≠ Ret l
    end
  ∧ match read_double W value with
    | Some v =>
        argument_loop W ("--wait-time" :: value :: rest) ia la lm vm wts cfg0 k
        = argument_loop W rest ia la lm vm true (set_wait_time cfg0 v) k
    | None =>
        ∀ l, outcome (argument_loop W ("--wait-time" :: value :: rest)
                        ia la lm vm wts cfg0 k) ≠ Ret l
    end.
Proof.
  split_and!; simpl argument_loop; unfold get_argument.
  - by rewrite bind_ret_l.
  - by rewrite bind_ret_l.
  - by rewrite bind_ret_l.
  - destruct (read_int W value); [by rewrite bind_ret_l | done].
  - destruct (read_double W value); [by rewrite bind_ret_l | done].
Qed.

(** ** The threshold option *)

Section Threshold.

Context {T P : Type} `{FaceTracker T P} (W : World).

Lemma argument_loop_threshold text t rest ia la lm vm wts cfg k :
  read_int W text = Some t →
  argument_loop W ("--threshold" :: text :: rest) ia la lm vm wts cfg k
  = argument_loop W rest ia la lm vm wts (set_tracking_threshold cfg t) k.
Proof.
  intros Hread.
  simpl argument_loop.
  unfold get_argument. rewrite Hread. by rewrite bind_ret_l.
Qed.

Lemma effective_cfg_threshold l :
  tracking_threshold (effective_cfg l) = tracking_threshold (cfg l).
Proof. unfold effective_cfg. by destruct (wait_time_specified l). Qed.

(** [run_program] after the argument loop, with the configuration that
    the mode driver is given. *)
Lemma run_program_effective args k l :
  outcome (argument_loop W args None None false false false default_cfg k)
  = Ret (Some l) →
  run_program W args k
  = (if negb (have_argument_p (image_argument l)) then print_usage;; ret 0
     else if lists_mode l && video_mode l then
       throw (runtime_error "The operator is confused as the switches --lists and --video are present on the command line.")
     else if lists_mode l then
       run_lists_mode W (effective_cfg l) (image_argument l) (landmarks_argument l)
     else if video_mode l then
       run_video_mode W (effective_cfg l) (image_argument l) (landmarks_argument l)
     else
       run_image_mode W (effective_cfg l) (image_argument l) (landmarks_argument l)) k.
Proof.
  intros Hl. rewrite (run_program_dispatch W args k l Hl). unfold effective_cfg.
  destruct (wait_time_specified l), (lists_mode l), (video_mode l); reflexivity.
Qed.

Lemma run_program_obeys args k l :
  outcome (argument_loop W args None None false false false default_cfg k)
  = Ret (Some l) →
  obeys (tracking_threshold (cfg l)) false (events (run_program W args k)).
Proof.
  intros Hl. rewrite (run_program_effective args k l Hl).
  rewrite <- effective_cfg_threshold.
  destruct (negb (have_argument_p (image_argument l))); [by split|].
  destruct (lists_mode l && video_mode l); [by split|].
  destruct (lists_mode l); [apply run_lists_mode_obeys|].
  destruct (video_mode l); [apply run_video_mode_obeys | apply run_image_mode_obeys].
Qed.

(** C10.  The value of [--threshold] is not range-checked anywhere in
    [run_program].  Let the command line be [pre], then [--threshold]
    with a value that reads as the integer [t], then [rest], where [pre]
    is processed completely.  Whatever [t] is, negative or above 10
    included, the option raises no error: the argument loop goes on with
    [rest] and with [t] stored as the threshold.  When the loop ends and
    [rest] has no further [--threshold], [run_program] does exactly what
    the usage text, the conflict error or the driver of the mode does
    with a configuration whose threshold is [t]: there is no other way
    out for any [t]; and in that run a frame is accepted exactly when
    its score reaches [t], so with [t] at or below every score every
    frame is accepted and the tracker is never reset, and with [t] above
    every score no frame is accepted.  In particular, [--threshold] with
    such a value before one pathname is image mode on that pathname with
    threshold [t]. *)
Theorem threshold_is_used_without_range_check pre text t rest k s
    (Hpre : outcome (argument_loop W pre None None false false false default_cfg k)
            = Ret (Some s))
    (Hread : read_int W text = Some t) :
  let args := pre ++ "--threshold"%string :: text :: rest in
  argument_loop W args None None false false false default_cfg k
  = argument_loop W rest (image_argument s) (landmarks_argument s) (lists_mode s)
      (video_mode s) (wait_time_specified s) (set_tracking_threshold (cfg s) t) k
  ∧ (∀ l,
       outcome (argument_loop W args None None false false false default_cfg k)
       = Ret (Some l) →
       "--threshold"%string ∉ rest →
       let r := run_program W args k in
       tracking_threshold (effective_cfg l) = t
       ∧ r = (if negb (have_argument_p (image_argument l)) then print_usage;; ret 0
              else if lists_mode l && video_mode l then
                throw (runtime_error "The operator is confused as the switches --lists and --video are present on the command line.")
              else if lists_mode l then
                run_lists_mode W (effective_cfg l) (image_argument l)
                  (landmarks_argument l)
              else if video_mode l then
                run_video_mode W (effective_cfg l) (image_argument l)
                  (landmarks_argument l)
              else
                run_image_mode W (effective_cfg l) (image_argument l)
                  (landmarks_argument l)) k
       ∧ accepts_iff_reaches t (events r)
       ∧ (Forall (λ c, t ≤ c) (scores (events r)) →
          length (filter is_get_shape (events r)) = length (scores (events r))
          ∧ Forall (λ e, is_reset e = false) (events r))
       ∧ (Forall (λ c, c < t) (scores (events r)) →
          Forall (λ e, is_get_shape e = false) (events r)))
  ∧ (∀ p, is_option p = false →
       run_program W ["--threshold"%string; text; p] k
       = run_image_mode W
           (set_wait_time (set_tracking_threshold default_cfg t) (double_of_int 0))
           (Some p) None k).
Proof.
  intros args.
  assert (Hloop :
    argument_loop W args None None false false false default_cfg k
    = argument_loop W rest (image_argument s) (landmarks_argument s) (lists_mode s)
        (video_mode s) (wait_time_specified s) (set_tracking_threshold (cfg s) t) k).
  { unfold args.
    rewrite (argument_loop_app W (length pre) pre (Nat.le_refl _) _ _ _ _ _ _ _ _ _ Hpre).
    by apply argument_loop_threshold. }
  split; [exact Hloop|]. split.
  - intros l Hl Hnot r.
    assert (Ht : tracking_threshold (cfg l) = t).
    { rewrite Hloop in Hl.
      by destruct (argument_loop_keeps W _ _ (Nat.le_refl _) _ _ _ _ _ _ _ _ Hl)
        as (_ & _ & _ & _ & _ & _ & -> & _). }
    pose proof (run_program_obeys args k l Hl) as Hobeys. rewrite Ht in Hobeys.
    split; [by rewrite effective_cfg_threshold|].
    split; [by apply run_program_effective|].
    split; [by eapply obeys_accepts_iff|]. split.
    + by apply (obeys_all_accept _ false).
    + by apply (obeys_all_reject _ false).
  - intros p Hp.
    rewrite (run_program_dispatch W _ k
               {| image_argument := Some p; landmarks_argument := None;
                  lists_mode := false; video_mode := false;
                  wait_time_specified := false;
                  cfg := set_tracking_threshold default_cfg t |}); [done|].
    rewrite (argument_loop_threshold text t [p]) by done.
    by rewrite (argument_loop_input W p).
Qed.

End Threshold.

Lemma threshold_witness :
  let tracker := Fixture.scripted [(0, Fixture.five_points)] in
  let W := Fixture.world Fixture.no_key in
  let args := ["--verbose"; "--threshold"; "-3"; "a.png"; "a.pts"]%string in
  let r := run_program (H := tracker) W args 0%nat in
  read_int W "-3" = Some (-3)
  ∧ r = run_image_mode (H := tracker) W
          (set_wait_time
             (set_tracking_threshold (set_verbose (default_cfg (H := tracker)) true) (-3))
             (double_of_int 0))
          (Some "a.png"%string) (Some "a.pts"%string) 0%nat
  ∧ accepts_iff_reaches (-3) (events r)
  ∧ (scores (events r) = [0] ∧ saved_paths (events r) = ["a.pts"%string]).
Proof.
  intros tracker W args r.
  pose (s := {| image_argument := None; landmarks_argument := None;
                lists_mode := false; video_mode := false; wait_time_specified := false;
                cfg := set_verbose (default_cfg (H := tracker)) true |}).
  pose (l := {| image_argument := Some "a.png"%string;
                landmarks_argument := Some "a.pts"%string;
                lists_mode := false; video_mode := false; wait_time_specified := false;
                cfg := set_tracking_threshold
                         (set_verbose (default_cfg (H := tracker)) true) (-3) |}).
  assert (Hnot : "--threshold"%string ∉ ["a.png"; "a.pts"]%string).
  { intros Hin.
    repeat (apply elem_of_cons in Hin as [Hin|Hin]; [discriminate Hin|]).
    by apply elem_of_nil in Hin. }
  destruct (threshold_is_used_without_range_check (H := tracker) W
              ["--verbose"%string] "-3" (-3) ["a.png"; "a.pts"]%string 0%nat s
              eq_refl eq_refl) as (_ & Hrun & _).
  destruct (Hrun l eq_refl Hnot) as (_ & Heq & Hacc & _).
  split; [reflexivity|]. split; [exact Heq|]. split; [exact Hacc|].
  split; vm_compute; reflexivity.
Defined.

(** A threshold of 42 rejects a frame scored 10; a threshold of -3
    accepts a frame scored 0. *)
Example threshold_outside_0_10 :
  let W := Fixture.world Fixture.no_key in
  filter is_get_shape
    (events (main (H := Fixture.scripted [(10, Fixture.five_points)]) W
               ["--threshold"; "42"; "a.png"; "a.pts"]%string 0%nat)) = []
  ∧ saved_paths
      (events (main (H := Fixture.scripted [(0, Fixture.five_points)]) W
                 ["--threshold"; "-3"; "a.png"; "a.pts"]%string 0%nat))
    = ["a.pts"%string].
Proof. split; reflexivity. Qed.

(** ** The destination cursor of list mode *)

Lemma pairing_after tr : ∀ image l,
  (after pairing_step (image, l) tr).2 = l ++ pairing image tr.
Proof.
  induction tr as [|e tr IH]; intros image l; simpl; [by rewrite app_nil_r|].
  destruct e; simpl; rewrite IH; try done. by rewrite <- app_assoc.
Qed.

Lemma bind_assoc {A B C} (m : M A) (f : A → M B) (g : B → M C) k :
  bind (bind m f) g k = bind m (λ a, bind (f a) g) k.
Proof.
  unfold bind. destruct (outcome (m k)); simpl; try done.
  destruct (outcome (f a (presses (m k)))); simpl; try done.
  by rewrite app_assoc.
Qed.

Lemma bind_ext {A B} (m : M A) (f g : A → M B) k :
  (∀ a k', f a k' = g a k') → bind m f k = bind m g k.
Proof. intros Hfg. unfold bind. destruct (outcome (m k)); try done. by rewrite Hfg. Qed.

Section Cursor.

Context {T P : Type} `{FaceTracker T P} (W : World).

Lemma lists_loop_app cfg la params n pre post :
  ∀ lit idx tracker k,
    lists_loop W cfg la params n (pre ++ post) lit idx tracker k
    = bind (lists_loop W cfg la params n pre lit idx tracker)
           (λ '(lit', idx', tracker'),
              lists_loop W cfg la params n post lit' idx' tracker') k.
Proof.
  induction pre as [|p pre IH]; intros lit idx tracker k; simpl.
  - by rewrite bind_ret_l.
  - rewrite bind_assoc. apply bind_ext. intros [[lit' idx'] tracker'] k'. apply IH.
Qed.

Lemma lists_body_cursor cfg ll params n p lit idx tracker :
  wp anything (lists_body W cfg (Some ll) params n p lit idx tracker)
     (λ o _, ∀ v, o = Ret v → v.1.1 = drop 1 lit ∧ v.1.2 = int_wrap (idx + 1))
     tt.
Proof.
  unfold lists_body. cbv zeta.
  repeat wp_step; try done; intros v Hv; by simplify_eq.
Qed.

Lemma lists_loop_cursor cfg ll params n pre :
  ∀ lit idx tracker,
    wp anything (lists_loop W cfg (Some ll) params n pre lit idx tracker)
       (λ o _, ∀ v, o = Ret v → v.1.1 = drop (length pre) lit) tt.
Proof.
  induction pre as [|p pre IH]; intros lit idx tracker; simpl.
  - wp_step. intros v Hv. by simplify_eq.
  - wp_step. eapply wp_mono; [apply lists_body_cursor|].
    intros o [] Hbody. destruct o as [[[lit' idx'] tracker']| |]; try done.
    destruct (Hbody _ eq_refl) as [Hlit _]. simpl in Hlit. subst lit'.
    eapply wp_mono; [apply IH|]. intros o [] Hloop v Hv.
    rewrite (Hloop v Hv). by rewrite drop_drop.
Qed.

Lemma lists_body_pairing cfg ll params n p q lit idx tracker image l0 :
  wp pairing_step (lists_body W cfg (Some ll) params n p (q :: lit) idx tracker)
     (λ o st, (st.2 = l0 ∨ st.2 = l0 ++ [(p, q)])
              ∧ ∀ v, o = Ret v → v.1.1 = lit)
     (image, l0).
Proof.
  unfold lists_body. cbv zeta.
  repeat wp_step; simpl; (split; [by auto|]); try done; intros v Hv; by simplify_eq.
Qed.

Lemma lists_loop_pairing cfg ll params n images :
  ∀ lit idx tracker image l0,
    length lit = length images →
    wp pairing_step (lists_loop W cfg (Some ll) params n images lit idx tracker)
       (λ _ st, ∃ sub, sub `sublist_of` zip images lit ∧ st.2 = l0 ++ sub)
       (image, l0).
Proof.
  induction images as [|p images IH]; intros lit idx tracker image l0 Hlen; simpl.
  - wp_step. exists []. split; [by constructor | by rewrite app_nil_r].
  - destruct lit as [|q lit]; [done|]. simpl in Hlen.
    wp_step. eapply wp_mono; [apply (lists_body_pairing _ _ _ _ _ _ _ _ _ image l0)|].
    intros o [image' l'] [Hl' Hcur]. simpl in Hl'.
    assert (Hsub : ∃ sub, sub `sublist_of` [(p, q)] ∧ l' = l0 ++ sub).
    { destruct Hl' as [-> | ->].
      - exists []. split; [apply sublist_nil_l | by rewrite app_nil_r].
      - exists [(p, q)]. done. }
    destruct Hsub as (sub1 & Hsub1 & ->).
    destruct o as [[[lit' idx'] tracker']| |].
    + specialize (Hcur _ eq_refl). simpl in Hcur. subst lit'.
      eapply wp_mono; [apply IH; lia|].
      intros o' st' (sub2 & Hsub2 & ->).
      exists (sub1 ++ sub2). split; [|by rewrite app_assoc].
      apply (sublist_app sub1 [(p, q)] sub2 (zip images lit)); done.
    + exists sub1. split; [|done].
      apply (sublist_inserts_r (zip images lit)) in Hsub1. done.
    + exists sub1. split; [|done].
      apply (sublist_inserts_r (zip images lit)) in Hsub1. done.
Qed.

Lemma run_lists_mode_pairing cfg il ll images landmarks :
  read_list W il = Some images →
  read_list W ll = Some landmarks →
  wp pairing_step (run_lists_mode W cfg (Some il) (Some ll))
     (λ _ st, st.2 `sublist_of` zip images landmarks) (""%string, []).
Proof.
  intros Hi Hl. unfold run_lists_mode.
  repeat wp_step; simpl; simplify_eq; try apply sublist_nil_l.
  eapply wp_mono; [apply lists_loop_pairing|].
  - apply negb_false_iff in Heqb. by apply Nat.eqb_eq.
  - intros o st (sub & Hsub & Hst). simpl in Hst.
    destruct o as [v| |]; [|by rewrite Hst..].
    repeat wp_step; simpl; by rewrite Hst.
Qed.

(** C8.  In list mode with an output list, every pathname written is
    paired with the image at the same position of the input list, in
    input order: the pairs (image loaded, pathname written) of a run
    form a sublist of the two lists zipped.  The cursor into the output
    list moves by exactly one per processed image whatever the shape
    was: after any number of images it stands that many places further,
    and the loop over the rest continues from there. *)
Theorem list_destination_advances_in_lock_step
    cfg il ll images landmarks k
    (Hi : read_list W il = Some images)
    (Hl : read_list W ll = Some landmarks) :
  pairing "" (events (run_lists_mode W cfg (Some il) (Some ll) k))
    `sublist_of` zip images landmarks
  ∧ (∀ params n pre lit idx tracker k' lit' idx' tracker',
       outcome (lists_loop W cfg (Some ll) params n pre lit idx tracker k')
       = Ret (lit', idx', tracker') →
       lit' = drop (length pre) lit)
  ∧ (∀ params n pre post lit idx tracker k',
       lists_loop W cfg (Some ll) params n (pre ++ post) lit idx tracker k'
       = bind (lists_loop W cfg (Some ll) params n pre lit idx tracker)
              (λ '(lit', idx', tracker'),
                 lists_loop W cfg (Some ll) params n post lit' idx' tracker') k').
Proof.
  split; [|split].
  - destruct (run_lists_mode_pairing cfg il ll images landmarks Hi Hl k) as [_ Hp].
    by rewrite pairing_after in Hp.
  - intros params n pre lit idx tracker k' lit' idx' tracker' Hout.
    destruct (lists_loop_cursor cfg ll params n pre lit idx tracker k') as [_ Hc].
    exact (Hc _ Hout).
  - intros. apply lists_loop_app.
Qed.

End Cursor.

Lemma list_destination_witness :
  let tracker := Fixture.scripted
                   [(7, Fixture.five_points); (3, Fixture.five_points);
                    (9, Fixture.five_points)] in
  let W := Fixture.world Fixture.no_key in
  let r := run_lists_mode (H := tracker) W (default_cfg (H := tracker))
             (Some "images.txt"%string) (Some "points.txt"%string) 0%nat in
  pairing "" (events r) = [("a.png", "a.pts"); ("c.png", "c.pts")]%string
  ∧ pairing "" (events r)
      `sublist_of` zip ["a.png"; "b.png"; "c.png"]%string
                       ["a.pts"; "b.pts"; "c.pts"]%string.
Proof.
  intros tracker W r. split; [reflexivity|].
  exact (proj1 (list_destination_advances_in_lock_step (H := tracker) W
                  (default_cfg (H := tracker)) "images.txt" "points.txt"
                  ["a.png"; "b.png"; "c.png"]%string
                  ["a.pts"; "b.pts"; "c.pts"]%string 0%nat eq_refl eq_refl)).
Defined.

(** ** The pathnames of video mode *)

Lemma read_back_uint d : ∀ acc,
  read_back_from acc (list_ascii_of_string (NilEmpty.string_of_uint d))
  = Nat.of_uint_acc d acc.
Proof.
  induction d; intros acc; simpl; try done;
    rewrite Nat.tail_mul_spec; unfold read_back_from in *; rewrite <- IHd; 
    f_equal; unfold digit_weight; simpl; lia.
Qed.

Lemma read_back_show_nat n : read_back (show_nat n) = n.
Proof.
  unfold read_back, show_nat. rewrite read_back_uint.
  apply DecimalNat.Unsigned.of_to.
Qed.

Lemma read_back_pad c width body :
  digit_weight c = 0%nat → read_back (pad c width body) = read_back body.
Proof.
  intros Hc. unfold pad, read_back, read_back_from. rewrite fold_left_app.
  f_equal. induction (width - length body)%nat as [|n IH]; simpl; [done|].
  by rewrite Hc.
Qed.

Lemma render_conv_read_back zero width signed n :
  1 ≤ n ≤ INT_MAX →
  read_back (render_conv zero width signed n) = Z.to_nat n.
Proof.
  intros Hn. unfold render_conv.
  replace (n <? 0) with false by lia. rewrite andb_false_r.
  replace (if signed then n else to_unsigned n) with n.
  2: { destruct signed; [done|]. unfold to_unsigned. rewrite Z.mod_small; [done|].
       unfold INT_MAX in Hn. lia. }
  rewrite read_back_pad; [apply read_back_show_nat | by destruct zero].
Qed.

Lemma render_one_slot ds :
  slots ds = 1%nat →
  ∃ before zero width signed rest,
    ∀ n, render ds (Some n)
         = Some (before ++ render_conv zero width signed n ++ rest).
Proof.
  induction ds as [|[c|zero width signed] ds IH]; simpl; intros Hs.
  - discriminate.
  - destruct (IH Hs) as (before & zero & width & signed & rest & Hr).
    exists (c :: before), zero, width, signed, rest. intros n.
    by rewrite Hr.
  - destruct (proj1 (render_defined ds)) as [rest Hrest]; [lia|].
    exists [], zero, width, signed, rest. intros n. by rewrite Hrest.
Qed.

Lemma sprintf_injective format i j oi oj :
  has_one_slot format →
  1 ≤ i ≤ INT_MAX → 1 ≤ j ≤ INT_MAX →
  sprintf format i = Some oi → sprintf format j = Some oj →
  oi = oj → i = j.
Proof.
  intros (ds & Hds & Hslots) Hi Hj Hoi Hoj Heq.
  unfold sprintf in *. rewrite Hds in *. simpl in *.
  destruct (render_one_slot ds Hslots) as (before & zero & width & signed & rest & Hr).
  rewrite Hr in Hoi, Hoj.
  injection Hoi as <-. injection Hoj as <-.
  apply app_inv_head, app_inv_tail in Heq.
  apply (f_equal read_back) in Heq.
  rewrite !render_conv_read_back in Heq by done. lia.
Qed.

Lemma snprintf_fits size format n out :
  sprintf format n = Some out → (length out ≤ size - 1)%nat →
  snprintf size format n = Some (string_of_list_ascii out).
Proof.
  intros Hs Hlen. unfold snprintf. rewrite Hs. simpl. by rewrite take_ge.
Qed.

Lemma string_of_list_ascii_inj a b :
  string_of_list_ascii a = string_of_list_ascii b → a = b.
Proof.
  intros Heq. apply (f_equal list_ascii_of_string) in Heq.
  by rewrite !list_ascii_of_string_of_list_ascii in Heq.
Qed.

Lemma numbering_after tr : ∀ c l,
  after numbering_step (c, l) tr
  = (c + length (pulled tr), l ++ numbered_saves c tr)%nat.
Proof.
  induction tr as [|e tr IH]; intros c l.
  - simpl. by rewrite Nat.add_0_r, app_nil_r.
  - destruct e; simpl; rewrite IH; unfold pulled; simpl;
      rewrite <- ?app_assoc; try done.
    f_equal. lia.
Qed.

Lemma frame_counter_seq (i : nat) :
  (1 ≤ i)%nat → Z.of_nat i ≤ INT_MAX → frame_counter i = Z.of_nat i.
Proof.
  unfold frame_counter. destruct i as [|i]; [lia|]. intros _ Hi.
  replace (S i - 1)%nat with i by lia.
  induction i as [|i IH]; [done|].
  simpl. rewrite IH by lia.
  unfold int_wrap, INT_MAX in *.
  change (2 ^ 31) with 2147483648. change (2 ^ 32) with 4294967296.
  rewrite Z.mod_small by lia. lia.
Qed.

Lemma frame_counter_S (c : nat) :
  frame_counter (S (S c)) = int_wrap (frame_counter (S c) + 1).
Proof.
  unfold frame_counter.
  replace (S (S c) - 1)%nat with (S c) by lia.
  by replace (S c - 1)%nat with c by lia.
Qed.

(** Pathnames that are determined by increasing frame numbers and
    differ whenever the frame numbers differ do not repeat. *)
Lemma numbered_NoDup (l : list (nat * string)) :
  StronglySorted lt l.*1 →
  (∀ i j q, (i, q) ∈ l → (j, q) ∈ l → i = j) →
  NoDup l.*2.
Proof.
  induction l as [|[i q] l IH]; simpl; intros Hsort Hinj; [constructor|].
  apply StronglySorted_inv in Hsort as [Hsort Hall].
  constructor.
  - intros Hin. apply list_elem_of_fmap in Hin as ([j q'] & Hq & Hin).
    simpl in Hq. subst q'.
    assert (i = j) as <-.
    { apply (Hinj i j q); [by left | by right]. }
    rewrite Forall_forall in Hall.
    assert (Hj : i ∈ l.*1) by (apply list_elem_of_fmap; by exists (i, q)).
    specialize (Hall i Hj). lia.
  - apply IH; [done|]. intros i' j' q' Hi Hj. apply (Hinj i' j' q'); by right.
Qed.

Section VideoPathnames.

Context {T P : Type} `{FaceTracker T P} (W : World).

Lemma video_body_numbering cfg format params image frame_number tracker c l0 :
  wp numbering_step
     (video_body W cfg (Some format) params image frame_number tracker)
     (λ _ st, st = (c, l0)
              ∨ ∃ q, formatted W 1000 format frame_number = Some q
                     ∧ st = (c, l0 ++ [(c, q)]))
     (c, l0).
Proof.
  unfold video_body. cbv zeta.
  repeat wp_step; simpl; simplify_eq; eauto.
Qed.

Lemma video_loop_numbering cfg format params input :
  ∀ frame_number tracker c l0,
    frame_number = frame_counter (S c) →
    wp numbering_step
       (video_loop W cfg (Some format) params input frame_number tracker)
       (λ _ st, ∃ sub, st.2 = l0 ++ sub ∧ written W format c (length input) sub)
       (c, l0).
Proof.
  induction input as [|image input IH]; intros frame_number tracker c l0 Hfn; simpl.
  - wp_step. exists []. rewrite app_nil_r. unfold written. split_and!; by constructor.
  - wp_step. wp_step. wp_step.
    + wp_step. eapply wp_mono; [apply video_body_numbering|].
      intros o st Hst.
      assert (Hone : ∃ sub, st = (S c, l0 ++ sub)
                            ∧ written W format c (S (length input)) sub
                            ∧ Forall (λ iq, iq.1 = S c) sub).
      { destruct Hst as [-> | (q & Hq & ->)].
        - exists []. rewrite app_nil_r. unfold written. split_and!; by constructor.
        - exists [(S c, q)]. subst frame_number. unfold written. split_and!.
          + done.
          + constructor; [simpl; split; [lia | done] | constructor].
          + repeat constructor.
          + by repeat constructor. }
      destruct Hone as (sub1 & -> & [Hw1 Hs1] & Hsc).
      destruct o as [tracker'| |]; [|by exists sub1..].
      eapply wp_mono; [apply IH|].
      { by rewrite frame_counter_S, Hfn. }
      intros o' st' (sub2 & Hst' & [Hw2 Hs2]).
      exists (sub1 ++ sub2). split; [by rewrite Hst', app_assoc|].
      split.
      * apply Forall_app. split; [done|].
        eapply Forall_impl; [exact Hw2|]. intros [i q] [Hi Hq]. simpl in *.
        split; [lia | done].
      * rewrite fmap_app. apply StronglySorted_app_2; [|done..].
        intros i j Hi Hj.
        apply list_elem_of_fmap in Hi as ([i1 q1] & -> & Hi).
        apply list_elem_of_fmap in Hj as ([j2 q2] & -> & Hj).
        rewrite Forall_forall in Hsc, Hw2.
        specialize (Hsc _ Hi). destruct (Hw2 _ Hj) as [Hj2 _]. simpl in *. lia.
    + wp_step. exists []. rewrite app_nil_r. unfold written. split_and!; by constructor.
Qed.

Lemma run_video_mode_numbering cfg v format input :
  VideoCapture W v = Some input →
  wp numbering_step (run_video_mode W cfg (Some v) (Some format))
     (λ _ st, written W format 0 (length input) st.2)
     (0%nat, []).
Proof.
  intros Hv. unfold run_video_mode.
  repeat wp_step; simpl; simplify_eq.
  eapply wp_mono; [by apply video_loop_numbering|].
  intros o st (sub & Hst & Hw). simpl in Hst. subst sub.
  destruct o as [[]| |]; [|done..].
  repeat wp_step; done.
Qed.

(** C6, as amended.  In video mode the pathname under which the i-th
    frame pulled from the video (i from 1) is written is what [snprintf]
    makes of the template and of the frame counter of that frame, which
    is i as long as i is in the range of [int]; a frame is written at
    most once, and the frames are written in order.  When the template
    has one slot that is a decimal conversion of the counter ([%d], [%i]
    or [%u], with an optional zero flag and field width), the pathnames
    of two different counters within the range of [int] differ provided
    both formatted texts fit in the 999 characters that the buffer
    holds, and so the pathnames written in a run of at most [INT_MAX]
    frames are pairwise distinct provided the formatted text of each of
    its counters fits. *)
Theorem video_pathnames_distinct_when_they_fit :
  (∀ cfg v format input k,
     VideoCapture W v = Some input →
     let numbered :=
       numbered_saves 0 (events (run_video_mode W cfg (Some v) (Some format) k)) in
     Forall (λ iq, (1 ≤ iq.1 ≤ length input)%nat
                   ∧ formatted W 1000 format (frame_counter iq.1) = Some iq.2)
            numbered
     ∧ StronglySorted lt numbered.*1
     ∧ numbered.*2
       = saved_paths (events (run_video_mode W cfg (Some v) (Some format) k)))
  ∧ (∀ i : nat, (1 ≤ i)%nat → Z.of_nat i ≤ INT_MAX → frame_counter i = Z.of_nat i)
  ∧ (∀ format i j oi oj,
       has_one_slot format →
       1 ≤ i → i < j → j ≤ INT_MAX →
       sprintf format i = Some oi → sprintf format j = Some oj →
       (length oi ≤ 999)%nat → (length oj ≤ 999)%nat →
       formatted W 1000 format i = Some (string_of_list_ascii oi)
       ∧ formatted W 1000 format j = Some (string_of_list_ascii oj)
       ∧ formatted W 1000 format i ≠ formatted W 1000 format j)
  ∧ (∀ cfg v format input k,
       VideoCapture W v = Some input →
       has_one_slot format →
       Z.of_nat (length input) ≤ INT_MAX →
       (∀ i out, 1 ≤ i ≤ Z.of_nat (length input) →
                 sprintf format i = Some out → (length out ≤ 999)%nat) →
       NoDup (saved_paths (events (run_video_mode W cfg (Some v) (Some format) k)))).
Proof.
  assert (Hnum : ∀ cfg v format input k,
            VideoCapture W v = Some input →
            written W format 0 (length input)
              (numbered_saves 0
                 (events (run_video_mode W cfg (Some v) (Some format) k)))).
  { intros cfg v format input k Hv.
    destruct (run_video_mode_numbering cfg v format input Hv k) as [_ Hw].
    by rewrite numbering_after in Hw. }
  assert (Hpaths : ∀ tr c, (numbered_saves c tr).*2 = saved_paths tr).
  { induction tr as [|e tr IH]; intros c; [done|].
    unfold saved_paths in *. destruct e; simpl; by rewrite ?IH. }
  assert (Hdiff : ∀ format i j oi oj,
            has_one_slot format →
            1 ≤ i → i < j → j ≤ INT_MAX →
            sprintf format i = Some oi → sprintf format j = Some oj →
            (length oi ≤ 999)%nat → (length oj ≤ 999)%nat →
            formatted W 1000 format i = Some (string_of_list_ascii oi)
            ∧ formatted W 1000 format j = Some (string_of_list_ascii oj)
            ∧ formatted W 1000 format i ≠ formatted W 1000 format j).
  { intros format i j oi oj Hslot Hi Hij Hj Hoi Hoj Hli Hlj.
    unfold formatted.
    rewrite (snprintf_fits 1000 format i oi) by done.
    rewrite (snprintf_fits 1000 format j oj) by done.
    split; [done|]. split; [done|].
    intros Heq. injection Heq as Heq. apply string_of_list_ascii_inj in Heq.
    assert (i = j); [|lia].
    apply (sprintf_injective format i j oi oj); (done || lia). }
  split; [|split; [|split]].
  - intros cfg v format input k Hv numbered. subst numbered.
    destruct (Hnum cfg v format input k Hv) as [Hw Hs].
    split; [|split; [done | apply Hpaths]].
    eapply Forall_impl; [exact Hw|]. intros [i q] [Hi Hq]. simpl in *.
    split; [lia | done].
  - apply frame_counter_seq.
  - exact Hdiff.
  - intros cfg v format input k Hv Hslot Hlen Hfit.
    rewrite <- (Hpaths _ 0%nat).
    destruct (Hnum cfg v format input k Hv) as [Hw Hs].
    apply numbered_NoDup; [done|].
    intros i j q Hi Hj. rewrite Forall_forall in Hw.
    destruct (Hw _ Hi) as [Hi1 Hi2]. destruct (Hw _ Hj) as [Hj1 Hj2].
    simpl in *.
    rewrite frame_counter_seq in Hi2, Hj2 by lia.
    assert (Hdef : ∀ n : nat, (1 ≤ n ≤ length input)%nat →
              ∃ out, sprintf format (Z.of_nat n) = Some out ∧ (length out ≤ 999)%nat).
    { intros n Hn. destruct Hslot as (ds & Hds & Hone).
      unfold sprintf. rewrite Hds. simpl.
      destruct (proj2 (render_defined ds)) with (n := Z.of_nat n) as [out Hout];
        [lia|].
      exists out. split; [done|]. apply (Hfit (Z.of_nat n)); [lia|].
      unfold sprintf. rewrite Hds. done. }
    destruct (Hdef i) as (oi & Hoi & Hli); [lia|].
    destruct (Hdef j) as (oj & Hoj & Hlj); [lia|].
    destruct (Nat.lt_trichotomy i j) as [Hlt | [Heq | Hgt]]; [|done|].
    + destruct (Hdiff format (Z.of_nat i) (Z.of_nat j) oi oj Hslot)
        as (_ & _ & Hne); try done; try lia.
      destruct Hne. by rewrite Hi2, Hj2.
    + destruct (Hdiff format (Z.of_nat j) (Z.of_nat i) oj oi Hslot)
        as (_ & _ & Hne); try done; try lia.
      destruct Hne. by rewrite Hi2, Hj2.
Qed.

End VideoPathnames.

Lemma video_pathnames_witness :
  let tracker := Fixture.scripted
                   [(7, Fixture.five_points); (4, Fixture.five_points);
                    (7, Fixture.five_points); (7, Fixture.five_points)] in
  let W := Fixture.world Fixture.no_key in
  let r := run_video_mode (H := tracker) W (default_cfg (H := tracker))
             (Some "clip.avi"%string) (Some "out_%04u.pts"%string) 0%nat in
  numbered_saves 0 (events r)
  = [(1, "out_0001.pts"); (3, "out_0003.pts"); (4, "out_0004.pts")]%string%nat
  ∧ NoDup (saved_paths (events r))
  ∧ formatted W 1000 "out_%04u.pts" 3 ≠ formatted W 1000 "out_%04u.pts" 12345.
Proof.
  intros tracker W r.
  assert (Hslot : has_one_slot "out_%04u.pts").
  { eexists. split; [reflexivity | reflexivity]. }
  pose proof (video_pathnames_distinct_when_they_fit (H := tracker) W)
    as (_ & _ & Hdiff & Hrun).
  split; [vm_compute; reflexivity|]. split.
  - apply (Hrun (default_cfg (H := tracker)) "clip.avi"%string "out_%04u.pts"%string
             [Fixture.colour_frame 1; Fixture.colour_frame 2; Fixture.gray_frame 3;
              Fixture.colour_frame 4] 0%nat eq_refl Hslot).
    + vm_compute. discriminate.
    + intros i out Hi Hout.
      assert (Hcase : i = 1 ∨ i = 2 ∨ i = 3 ∨ i = 4) by (simpl in Hi; lia).
      destruct Hcase as [-> | [-> | [-> | ->]]];
        vm_compute in Hout; injection Hout as <-; simpl; lia.
  - assert (Hi : 1 ≤ 3) by lia.
    assert (Hij : 3 < 12345) by lia.
    assert (Hj : 12345 ≤ INT_MAX) by (unfold INT_MAX; lia).
    assert (Hli : (length (list_ascii_of_string "out_0003.pts") ≤ 999)%nat)
      by (simpl; lia).
    assert (Hlj : (length (list_ascii_of_string "out_12345.pts") ≤ 999)%nat)
      by (simpl; lia).
    exact (proj2 (proj2 (Hdiff "out_%04u.pts"%string 3 12345
                           (list_ascii_of_string "out_0003.pts")
                           (list_ascii_of_string "out_12345.pts")
                           Hslot Hi Hij Hj eq_refl eq_refl Hli Hlj))).
Defined.

(** C6 as stated fails for a long template: with 999 characters before
    the slot, the buffer of 1000 cuts every pathname before the frame
    number, and the first two frames of a video are written to the same
    file. *)
Lemma long_template_pathnames_collide :
  let format := string_of_list_ascii (replicate 999 "a"%char ++ ["%"; "u"]%char) in
  let tracker := Fixture.scripted
                   [(7, Fixture.five_points); (7, Fixture.five_points)] in
  let r := run_video_mode (H := tracker) (Fixture.world Fixture.no_key)
             (default_cfg (H := tracker)) (Some "clip.avi"%string) (Some format) 0%nat in
  has_one_slot format
  ∧ snprintf 1000 format 1 = snprintf 1000 format 2
  ∧ snprintf 1000 format 1 = Some (string_of_list_ascii (replicate 999 "a"%char))
  ∧ saved_paths (events r)
    = [string_of_list_ascii (replicate 999 "a"%char);
       string_of_list_ascii (replicate 999 "a"%char)].
Proof.
  intros format tracker r. split; [|split; [|split]].
  - eexists. split; [vm_compute; reflexivity | vm_compute; reflexivity].
  - vm_compute. reflexivity.
  - vm_compute. reflexivity.
  - vm_compute. reflexivity.
Qed.

(** ** The frame source of video mode *)

Lemma filming_after tr : ∀ p t,
  after filming (p, t) tr = (p ++ pulled tr, t ++ tracked tr).
Proof.
  induction tr as [|e tr IH]; intros p t; simpl; [by rewrite !app_nil_r|].
  rewrite IH. unfold pulled, tracked. simpl.
  destruct e; simpl; by rewrite <- ?app_assoc.
Qed.

Lemma live_prefix_live input : Forall (λ m, live m = true) (live_prefix input).
Proof.
  induction input as [|image input IH]; simpl; [constructor|].
  destruct (live image) eqn:Hl; [by constructor | constructor].
Qed.

Lemma terminator_not_live input : live (terminator input) = false.
Proof.
  induction input as [|image input IH]; simpl; [done|].
  by destruct (live image) eqn:Hl.
Qed.

(** The two element types that the video loop knows are those of 8-bit
    depth with one and with three channels. *)
Lemma supported_8_bit image :
  supported image = true
  ↔ depth image = CV_8U ∧ (channels image = 1 ∨ channels image = 3).
Proof.
  unfold supported, depth, channels, DataType_Vec_uint8_3, DataType_uint8, CV_MAKETYPE,
    CV_8U.
  change (Z.land 0 7 + Z.shiftl (3 - 1) 3) with 16.
  change (Z.land 0 7 + Z.shiftl (1 - 1) 3) with 0.
  change 7 with (Z.ones 3). rewrite Z.land_ones, Z.shiftr_div_pow2 by lia.
  change (2 ^ 3) with 8.
  rewrite orb_true_iff, !Z.eqb_eq.
  split; intros Hx.
  - destruct Hx as [-> | ->]; (split; [reflexivity|]); [right | left]; reflexivity.
  - destruct Hx as [Hm Hd]. pose proof (Z.div_mod (type image) 8 ltac:(lia)). lia.
Qed.

Section FrameSource.

Context {T P : Type} `{FaceTracker T P} (W : World).

Lemma video_body_returns cfg la params image frame_number tracker p0 t0 :
  supported image = true → format_ok la → never_escape W → wait_delay cfg ≠ None →
  wp filming (video_body W cfg la params image frame_number tracker)
     (λ o st, (∃ tracker', o = Ret tracker') ∧ st = (p0, t0 ++ [gray_of W image]))
     (p0, t0).
Proof.
  intros Hsup Hfmt Hkeys Hdelay. unfold video_body, gray_of, supported in *. cbv zeta.
  destruct la as [format|].
  - destruct (formatted_defined W _ format 1000 frame_number Hfmt eq_refl) as [s [_ Hs]].
    repeat wp_step; simpl; simplify_eq; eauto;
      try no_escape Hkeys; try (by destruct Hdelay);
      rewrite ?Heqb, ?Heqb0, ?Heqb1 in Hsup; done.
  - repeat wp_step; simpl; simplify_eq; eauto;
      try no_escape Hkeys; try (by destruct Hdelay);
      rewrite ?Heqb, ?Heqb0, ?Heqb1 in Hsup; done.
Qed.

Lemma video_loop_returns cfg la params input :
  forallb supported (live_prefix input) = true → format_ok la → never_escape W →
  wait_delay cfg ≠ None →
  ∀ frame_number tracker p0 t0,
    wp filming (video_loop W cfg la params input frame_number tracker)
       (λ o st, o = Ret tt
                ∧ st = (p0 ++ live_prefix input ++ [terminator input],
                        t0 ++ (gray_of W <$> live_prefix input)))
       (p0, t0).
Proof.
  intros Hsup Hfmt Hkeys Hdelay.
  induction input as [|image input IH]; intros frame_number tracker p0 t0; simpl.
  - wp_step. by rewrite app_nil_r.
  - simpl in Hsup. fold (live image) in *.
    wp_step. wp_step. destruct (live image) eqn:Hlive.
    + simpl in Hsup. apply andb_true_iff in Hsup as [Hsup1 Hsup2].
      wp_step. eapply wp_mono; [by apply video_body_returns|].
      intros o st [[tracker' ->] ->].
      eapply wp_mono; [by apply IH|].
      intros o st [-> ->]. split; [done|].
      by rewrite <- !app_assoc.
    + wp_step. by rewrite app_nil_r.
Qed.

Lemma run_video_mode_returns cfg v la input :
  VideoCapture W v = Some input →
  forallb supported (live_prefix input) = true → format_ok la → never_escape W →
  wait_delay cfg ≠ None →
  wp filming (run_video_mode W cfg (Some v) la)
     (λ o st, o = Ret 0
              ∧ st = (live_prefix input ++ [terminator input],
                      gray_of W <$> live_prefix input))
     ([], []).
Proof.
  intros Hv Hsup Hfmt Hkeys Hdelay. unfold run_video_mode.
  repeat wp_step; simpl; simplify_eq.
  eapply wp_mono; [by apply video_loop_returns|].
  intros o st [-> ->]. repeat wp_step; done.
Qed.

Lemma video_body_unsupported cfg la params image frame_number tracker t0 :
  supported image = false →
  wp (collecting tracked_frame) (video_body W cfg la params image frame_number tracker)
     (λ o l, o = Throw (runtime_error
                          "Do not know how to convert video frame to a grayscale image.")
             ∧ l = t0)
     t0.
Proof.
  intros Hsup. unfold video_body, supported in *. cbv zeta.
  apply orb_false_iff in Hsup as [Hs1 Hs2]. rewrite Hs1, Hs2.
  repeat wp_step; done.
Qed.

Lemma video_body_tracks cfg la params image frame_number tracker t0 :
  supported image = true →
  wp (collecting tracked_frame) (video_body W cfg la params image frame_number tracker)
     (λ _ l, l = t0 ++ [gray_of W image]) t0.
Proof.
  intros Hsup. unfold video_body, gray_of, supported in *. cbv zeta.
  repeat wp_step; simpl; try done; rewrite ?Heqb, ?Heqb0, ?Heqb1 in Hsup; done.
Qed.

Lemma video_body_shows cfg la params image frame_number tracker s0 :
  wp (collecting shown_image) (video_body W cfg la params image frame_number tracker)
     (λ _ l, l = s0 ∨ l = s0 ++ [image]) s0.
Proof.
  unfold video_body. cbv zeta.
  repeat wp_step; simpl; auto.
Qed.

(** C7, as amended.  Video mode pulls one frame after the other and
    stops, with a normal return, at the first frame of size zero: the
    frames tracked are exactly the frames before it (given that these
    are of a supported type, that [snprintf] is defined on the template,
    that the wait time converts to a delay and that nobody presses
    escape).  The supported types are the two element types of 8-bit
    depth with one and with three channels.  A frame of any other type
    makes the loop body throw, before any tracking: every frame whose
    number of channels is neither 1 nor 3, but also a single-channel or
    3-channel frame of another depth.  An 8-bit 3-channel frame is
    tracked in its converted form and an 8-bit single-channel frame as
    it is, and what is displayed is always the frame as it was
    pulled. *)
Theorem video_frames_pulled_until_empty_and_converted cfg la params :
  (∀ v input k,
     VideoCapture W v = Some input →
     Forall (λ m, supported m = true) (live_prefix input) →
     format_ok la → never_escape W → wait_delay cfg ≠ None →
     let r := run_video_mode W cfg (Some v) la k in
     outcome r = Ret 0
     ∧ pulled (events r) = live_prefix input ++ [terminator input]
     ∧ Forall (λ m, live m = true) (live_prefix input)
     ∧ live (terminator input) = false
     ∧ tracked (events r) = gray_of W <$> live_prefix input)
  ∧ (∀ image,
       supported image = true
       ↔ depth image = CV_8U ∧ (channels image = 1 ∨ channels image = 3))
  ∧ (∀ image frame_number tracker k,
       let r := video_body W cfg la params image frame_number tracker k in
       supported image = false →
       outcome r = Throw (runtime_error
                   "Do not know how to convert video frame to a grayscale image.")
       ∧ tracked (events r) = [])
  ∧ (∀ image frame_number tracker k,
       let r := video_body W cfg la params image frame_number tracker k in
       (supported image = true → channels image = 3 →
        tracked (events r) = [cvtColor_BGR2GRAY W image])
       ∧ (supported image = true → channels image = 1 →
          tracked (events r) = [image])
       ∧ Forall (λ m, m = image) (shown (events r))).
Proof.
  split; [|split; [|split]].
  - intros v input k Hv Hsup Hfmt Hkeys Hdelay r. unfold r.
    assert (Hsup' : forallb supported (live_prefix input) = true).
    { apply forallb_forall. intros m Hm.
      rewrite Forall_forall in Hsup. apply Hsup. by apply list_elem_of_In. }
    destruct (run_video_mode_returns cfg v la input Hv Hsup' Hfmt Hkeys Hdelay k)
      as [_ [Ho Hst]].
    rewrite filming_after in Hst. simpl in Hst. injection Hst as Hp Ht.
    split; [done|]. split; [done|].
    split; [apply live_prefix_live|]. split; [apply terminator_not_live | done].
  - apply supported_8_bit.
  - intros image frame_number tracker k r Hs. unfold r.
    destruct (video_body_unsupported cfg la params image frame_number tracker []
                Hs k) as [_ [Ho Ht]].
    rewrite collecting_after in Ht. done.
  - intros image frame_number tracker k r. unfold r.
    assert (Htracks : supported image = true →
                      tracked (events (video_body W cfg la params image frame_number
                                         tracker k)) = [gray_of W image]).
    { intros Hs.
      destruct (video_body_tracks cfg la params image frame_number tracker [] Hs k)
        as [_ Htr].
      by rewrite collecting_after in Htr. }
    split; [|split].
    + intros Hs Hc. rewrite (Htracks Hs). unfold gray_of, supported in *.
      destruct (type image =? DataType_Vec_uint8_3) eqn:H3; [done|].
      destruct (type image =? DataType_uint8) eqn:H1; [|done].
      apply Z.eqb_eq in H1. unfold channels in Hc. rewrite H1 in Hc. done.
    + intros Hs Hc. rewrite (Htracks Hs). unfold gray_of.
      destruct (type image =? DataType_Vec_uint8_3) eqn:H3; [|done].
      apply Z.eqb_eq in H3. unfold channels in Hc. rewrite H3 in Hc. done.
    + destruct (video_body_shows cfg la params image frame_number tracker [] k)
        as [_ Hsh].
      rewrite collecting_after in Hsh. simpl in Hsh. unfold shown.
      destruct Hsh as [-> | ->]; repeat constructor.
Qed.

End FrameSource.

(** C7 as stated fails for frames of 16-bit depth: a frame with one
    channel and a frame with three channels, each of 16-bit depth, make
    the loop body throw; the 3-channel one is not converted, and neither
    is tracked. *)
Lemma sixteen_bit_frames_are_refused :
  let tracker := Fixture.scripted [(7, Fixture.five_points)] in
  let W := Fixture.world Fixture.no_key in
  let single := Fixture.depth_frame 1 in
  let triple := {| rows := 2; cols := 2; type := CV_MAKETYPE CV_16U 3; pixels := [2] |} in
  let run image := video_body (H := tracker) W (default_cfg (H := tracker)) None tt
                     image 1 (LoadFaceTracker "") 0%nat in
  (channels single = 1 ∧ live single = true)
  ∧ (channels triple = 3 ∧ live triple = true)
  ∧ outcome (run single)
    = Throw (runtime_error "Do not know how to convert video frame to a grayscale image.")
  ∧ outcome (run triple)
    = Throw (runtime_error "Do not know how to convert video frame to a grayscale image.")
  ∧ tracked (events (run single)) = []
  ∧ tracked (events (run triple)) = [].
Proof. intros tracker W single triple run. repeat split; reflexivity. Qed.

Lemma video_frames_witness :
  let tracker := Fixture.scripted [(7, Fixture.five_points)] in
  let W := Fixture.world Fixture.no_key in
  let input := [Fixture.colour_frame 1; Fixture.colour_frame 2;
                Fixture.gray_frame 3; Fixture.colour_frame 4] in
  let r := run_video_mode (H := tracker) W (default_cfg (H := tracker))
             (Some "clip.avi"%string) None 0%nat in
  outcome r = Ret 0
  ∧ pulled (events r) = live_prefix input ++ [terminator input]
  ∧ Forall (λ m, live m = true) (live_prefix input)
  ∧ live (terminator input) = false
  ∧ tracked (events r) = gray_of W <$> live_prefix input.
Proof.
  intros tracker W input.
  assert (Hkeys : never_escape W).
  { intros n delay. simpl. unfold Fixture.no_key. discriminate. }
  assert (Htypes : Forall (λ m, supported m = true) (live_prefix input)).
  { repeat constructor. }
  assert (Hdelay : wait_delay (default_cfg (H := tracker)) ≠ None).
  { vm_compute. discriminate. }
  exact (proj1 (video_frames_pulled_until_empty_and_converted (H := tracker) W
                  (default_cfg (H := tracker)) None tt)
           "clip.avi"%string input 0%nat eq_refl Htypes I Hkeys Hdelay).
Defined.

(** ** Exit status *)

(** The default wait times of the modes in milliseconds: a thirtieth of a
    second is 33 ms, and the wait of image mode is 0, for ever. *)
Lemma wait_delay_set (cfg : Configuration) d :
  wait_delay (set_wait_time cfg d) = double_to_int (double_mul d (double_of_int 1000)).
Proof. reflexivity. Qed.

Lemma one_thirtieth_delay :
  double_to_int (double_mul one_thirtieth (double_of_int 1000)) = Some 33.
Proof. vm_compute. reflexivity. Qed.

Lemma zero_delay :
  double_to_int (double_mul (double_of_int 0) (double_of_int 1000)) = Some 0.
Proof. vm_compute. reflexivity. Qed.

Lemma wait_delay_continuous (cfg : Configuration) :
  wait_delay (set_wait_time cfg one_thirtieth) ≠ None.
Proof. rewrite wait_delay_set, one_thirtieth_delay. discriminate. Qed.

Lemma admits_anything tr : ∀ st, admits anything st tr.
Proof. induction tr as [|e tr IH]; intros st; simpl; auto. Qed.

Lemma wp_anything_true {A} (m : M A) : wp anything m (λ _ _, True) tt.
Proof. intros k. split; [apply admits_anything | exact I]. Qed.

Lemma escaping_facts tr :
  admits escaping false tr →
  (after escaping false tr = false → Forall (λ e, is_escape e = false) tr)
  ∧ (after escaping false tr = true →
     ∃ pre e, tr = pre ++ [e] ∧ is_escape e = true
              ∧ Forall (λ e, is_escape e = false) pre).
Proof.
  induction tr as [|e tr IH] using rev_ind; intros Ha.
  - simpl. split; [constructor | discriminate].
  - rewrite admits_app in Ha. destruct Ha as [Ha1 Ha2].
    rewrite after_app. simpl in *. destruct Ha2 as [Hpre _].
    destruct (IH Ha1) as [IHf _]. specialize (IHf Hpre).
    split.
    + intros He. apply Forall_app. split; [done | by constructor].
    + intros He. exists tr, e. done.
Qed.

Section ExitStatus.

Context {T P : Type} `{FaceTracker T P} (W : World).

Ltac escape_cases :=
  unfold escape_post; simpl;
  repeat (match goal with
          | Hx : ?x = _ |- context [?x] => progress (rewrite Hx)
          end; simpl);
  try done.

Lemma lists_body_escaping cfg la params n p lit idx tracker :
  wp escaping (lists_body W cfg la params n p lit idx tracker) escape_post false.
Proof. unfold lists_body. cbv zeta. repeat wp_step; escape_cases. Qed.

Lemma lists_loop_escaping cfg la params n images :
  ∀ lit idx tracker,
    wp escaping (lists_loop W cfg la params n images lit idx tracker)
       escape_post false.
Proof.
  induction images as [|p images IH]; intros lit idx tracker; simpl.
  - by wp_step.
  - wp_step. eapply wp_mono; [apply lists_body_escaping|].
    intros o pressed Hp. destruct o as [[[lit' idx'] tracker']|e|]; try done.
    unfold escape_post in Hp. subst pressed. apply IH.
Qed.

Lemma video_body_escaping cfg la params image n tracker :
  wp escaping (video_body W cfg la params image n tracker) escape_post false.
Proof. unfold video_body. cbv zeta. repeat wp_step; escape_cases. Qed.

Lemma video_loop_escaping cfg la params input :
  ∀ n tracker,
    wp escaping (video_loop W cfg la params input n tracker) escape_post false.
Proof.
  induction input as [|image input IH]; intros n tracker; simpl.
  - by wp_step.
  - wp_step. wp_step. wp_step; [|by wp_step].
    wp_step. eapply wp_mono; [apply video_body_escaping|].
    intros o pressed Hp. destruct o as [tracker'|e|]; try done.
    unfold escape_post in Hp. subst pressed. apply IH.
Qed.

Lemma run_lists_mode_escaping cfg ia la :
  wp escaping (run_lists_mode W cfg ia la) escape_post false.
Proof.
  unfold run_lists_mode.
  repeat wp_step; try done;
    (eapply wp_mono; [apply lists_loop_escaping|]);
    (intros o pressed Hp; destruct o as [v|e|]; try done);
    unfold escape_post in Hp; subst pressed; repeat wp_step; done.
Qed.

Lemma run_video_mode_escaping cfg ia la :
  wp escaping (run_video_mode W cfg ia la) escape_post false.
Proof.
  unfold run_video_mode.
  repeat wp_step; try done;
    (eapply wp_mono; [apply video_loop_escaping|]);
    (intros o pressed Hp; destruct o as [v|e|]; try done);
    unfold escape_post in Hp; subst pressed; repeat wp_step; done.
Qed.

Lemma run_image_mode_escaping cfg ia la :
  wp escaping (run_image_mode W cfg ia la) escape_post false.
Proof. unfold run_image_mode. repeat wp_step; escape_cases. Qed.

Lemma run_program_escaping args :
  wp escaping (run_program W args) escape_post false.
Proof.
  unfold run_program. wp_step.
  apply (argument_loop_wp escaping W _ false (length args)); try done.
  intros l.
  repeat wp_step;
    lazymatch goal with
    | |- wp _ (run_lists_mode _ _ _ _) _ _ => apply run_lists_mode_escaping
    | |- wp _ (run_video_mode _ _ _ _) _ _ => apply run_video_mode_escaping
    | |- wp _ (run_image_mode _ _ _ _) _ _ => apply run_image_mode_escaping
    | |- _ => reflexivity
    end.
Qed.

Lemma run_program_returns_0 args :
  wp anything (run_program W args) (λ o _, ∀ n, o = Ret n → n = 0) tt.
Proof.
  unfold run_program. wp_step.
  apply (argument_loop_wp anything W _ tt (length args)); try done.
  - intros l. repeat wp_step; try (intros n Hn; by simplify_eq).
    + unfold run_lists_mode.
      repeat wp_step; try done;
        (eapply wp_mono; [apply wp_anything_true|]);
        (intros o [] _; destruct o; try done);
        repeat wp_step; intros n Hn; by simplify_eq.
    + unfold run_video_mode.
      repeat wp_step; try done;
        (eapply wp_mono; [apply wp_anything_true|]);
        (intros o [] _; destruct o; try done);
        repeat wp_step; intros n Hn; by simplify_eq.
    + unfold run_image_mode. repeat wp_step; try done; intros n Hn; by simplify_eq.
  - wp_step. intros n Hn. by simplify_eq.
Qed.

End ExitStatus.

Section Failures.

Context {T P : Type} `{FaceTracker T P} (W : World).

(** What [main] makes of the way [run_program] ends. *)
Lemma main_cases args k :
  match outcome (run_program W args k) with
  | Ret _ | Undefined => main W args k = run_program W args k
  | Throw user_pressed_escape =>
      outcome (main W args k) = Ret 1
      ∧ events (main W args k)
        = events (run_program W args k) ++ [EvStdout ("Stopping prematurely." +:+ LF)]
  | Throw (runtime_error what) =>
      outcome (main W args k) = Ret 2
      ∧ events (main W args k)
        = events (run_program W args k)
          ++ [EvStderr ("Caught unhandled exception: " +:+ what +:+ LF)]
  end.
Proof.
  unfold main, try_catch. destruct (outcome (run_program W args k)) as [n|[|what]|];
    try done.
Qed.

Lemma main_exit_2 args k what :
  outcome (run_program W args k) = Throw (runtime_error what) →
  outcome (main W args k) = Ret 2
  ∧ last (events (main W args k))
    = Some (EvStderr ("Caught unhandled exception: " +:+ what +:+ LF)).
Proof.
  intros Ho. pose proof (main_cases args k) as Hm. rewrite Ho in Hm.
  destruct Hm as [-> ->]. split; [done|]. by rewrite last_snoc.
Qed.

(** The mode and the arguments that [run_program] hands on for the
    simplest command lines. *)
Lemma run_program_image p k :
  is_option p = false →
  run_program W [p] k
  = run_image_mode W (set_wait_time default_cfg (double_of_int 0)) (Some p) None k.
Proof.
  intros Hp. unfold run_program.
  rewrite (argument_loop_input W p) by done. by rewrite bind_ret_l.
Qed.

Lemma run_program_lists il k :
  is_option il = false →
  run_program W ["--lists"%string; il] k
  = run_lists_mode W (set_wait_time default_cfg one_thirtieth) (Some il) None k.
Proof.
  intros Hp. unfold run_program.
  change (argument_loop W ["--lists"%string; il] None None false false false default_cfg)
    with (argument_loop W [il] None None true false false default_cfg).
  rewrite (argument_loop_input W il) by done. by rewrite bind_ret_l.
Qed.

Lemma run_program_lists_output il ll k :
  is_option il = false → is_option ll = false →
  run_program W ["--lists"%string; il; ll] k
  = run_lists_mode W (set_wait_time default_cfg one_thirtieth) (Some il) (Some ll) k.
Proof.
  intros Hp Hq. unfold run_program.
  change (argument_loop W ["--lists"%string; il; ll] None None false false false
            default_cfg)
    with (argument_loop W [il; ll] None None true false false default_cfg).
  rewrite (argument_loop_input_output W il ll) by done. by rewrite bind_ret_l.
Qed.

Lemma run_program_video v la k :
  is_option v = false → (∀ s, la = Some s → is_option s = false) →
  run_program W ("--video"%string :: v :: option_list la) k
  = run_video_mode W (set_wait_time default_cfg one_thirtieth) (Some v) la k.
Proof.
  intros Hp Hla. unfold run_program.
  change (argument_loop W ("--video"%string :: v :: option_list la)
            None None false false false default_cfg)
    with (argument_loop W (v :: option_list la) None None false true false default_cfg).
  destruct la as [s|]; simpl option_list.
  - rewrite (argument_loop_input_output W v s) by auto. by rewrite bind_ret_l.
  - rewrite (argument_loop_input W v) by done. by rewrite bind_ret_l.
Qed.

Lemma run_program_conflict a k :
  is_option a = false →
  ∃ what, outcome (run_program W ["--lists"; "--video"; a]%string k)
          = Throw (runtime_error what).
Proof.
  intros Ha. unfold run_program.
  change (argument_loop W ["--lists"; "--video"; a]%string None None false false false
            default_cfg)
    with (argument_loop W [a] None None true true false default_cfg).
  rewrite (argument_loop_input W a) by done. rewrite bind_ret_l. simpl. eauto.
Qed.

Lemma run_program_third_positional a b c rest k :
  is_option a = false → is_option b = false → is_option c = false →
  ∃ what, outcome (run_program W (a :: b :: c :: rest) k)
          = Throw (runtime_error what).
Proof.
  intros Ha Hb Hc. unfold run_program.
  rewrite (argument_loop_third_positional W a b c rest) by done.
  unfold bind, throw. simpl. eauto.
Qed.

(** Unreadable input. *)
Lemma run_image_mode_unreadable cfg p la :
  load_grayscale_image W p = None →
  wp anything (run_image_mode W cfg (Some p) la)
     (λ o _, ∃ what, o = Throw (runtime_error what)) tt.
Proof.
  intros Hload. unfold run_image_mode.
  repeat wp_step; simplify_eq; eauto.
Qed.

Lemma run_lists_mode_unreadable_list cfg il la :
  read_list W il = None →
  wp anything (run_lists_mode W cfg (Some il) la)
     (λ o _, ∃ what, o = Throw (runtime_error what)) tt.
Proof.
  intros Hread. unfold run_lists_mode.
  repeat wp_step; simplify_eq; eauto.
Qed.

Lemma run_video_mode_unopened cfg v la :
  VideoCapture W v = None →
  wp anything (run_video_mode W cfg (Some v) la)
     (λ o _, ∃ what, o = Throw (runtime_error what)) tt.
Proof.
  intros Hv. unfold run_video_mode.
  repeat wp_step; simplify_eq; eauto.
Qed.

Lemma lists_body_unreadable cfg la params n p lit idx tracker :
  load_grayscale_image W p = None →
  wp anything (lists_body W cfg la params n p lit idx tracker)
     (λ o _, ∃ what, o = Throw (runtime_error what)) tt.
Proof.
  intros Hload. unfold lists_body, call_load_grayscale_image. cbv zeta.
  rewrite Hload. repeat wp_step; eauto.
Qed.

Lemma lists_body_defined cfg params n p lit idx tracker :
  never_escape W → wait_delay cfg ≠ None →
  wp anything (lists_body W cfg None params n p lit idx tracker)
     (λ o _, o ≠ Undefined ∧ o ≠ Throw user_pressed_escape) tt.
Proof.
  intros Hkeys Hdelay. unfold lists_body. cbv zeta.
  repeat wp_step; simpl in *; try done; try (by destruct Hdelay); no_escape Hkeys.
Qed.

Lemma lists_loop_unreadable cfg params n images :
  never_escape W → wait_delay cfg ≠ None →
  Exists (λ p, load_grayscale_image W p = None) images →
  ∀ lit idx tracker,
    wp anything (lists_loop W cfg None params n images lit idx tracker)
       (λ o _, ∃ what, o = Throw (runtime_error what)) tt.
Proof.
  intros Hkeys Hdelay Hex.
  induction Hex as [p images Hp | p images Hex IH]; intros lit idx tracker; simpl.
  - wp_step. eapply wp_mono; [by apply lists_body_unreadable|].
    intros o [] [what ->]. eauto.
  - wp_step. eapply wp_mono; [by apply lists_body_defined|].
    intros o [] [Hu He].
    destruct o as [[[lit' idx'] tracker']|[|what]|]; [apply IH | done | eauto | done].
Qed.

Lemma run_lists_mode_unreadable_image cfg il images :
  never_escape W → wait_delay cfg ≠ None →
  read_list W il = Some images →
  Exists (λ p, load_grayscale_image W p = None) images →
  wp anything (run_lists_mode W cfg (Some il) None)
     (λ o _, ∃ what, o = Throw (runtime_error what)) tt.
Proof.
  intros Hkeys Hdelay Hread Hex. unfold run_lists_mode.
  repeat wp_step; simplify_eq; simpl in *; try done.
  eapply wp_mono; [by apply lists_loop_unreadable|].
  intros o [] [what ->]. eauto.
Qed.

(** Unsupported frame format. *)
Lemma video_body_defined cfg la params image n tracker :
  never_escape W → wait_delay cfg ≠ None → format_ok la →
  wp anything (video_body W cfg la params image n tracker)
     (λ o _, o ≠ Undefined ∧ o ≠ Throw user_pressed_escape) tt.
Proof.
  intros Hkeys Hdelay Hfmt. unfold video_body. cbv zeta.
  destruct la as [format|].
  - destruct (formatted_defined W _ format 1000 n Hfmt eq_refl) as [s [_ Hs]].
    repeat wp_step; simpl in *; simplify_eq; try done; try (by destruct Hdelay);
      no_escape Hkeys.
  - repeat wp_step; simpl in *; try done; try (by destruct Hdelay); no_escape Hkeys.
Qed.

Lemma video_body_throws cfg la params image n tracker :
  supported image = false →
  wp anything (video_body W cfg la params image n tracker)
     (λ o _, ∃ what, o = Throw (runtime_error what)) tt.
Proof.
  intros Hsup. unfold video_body, supported in *. cbv zeta.
  apply orb_false_iff in Hsup as [Hs1 Hs2]. rewrite Hs1, Hs2.
  repeat wp_step; eauto.
Qed.

Lemma video_loop_unsupported cfg la params input :
  never_escape W → wait_delay cfg ≠ None → format_ok la →
  Exists (λ m, supported m = false) (live_prefix input) →
  ∀ n tracker,
    wp anything (video_loop W cfg la params input n tracker)
       (λ o _, ∃ what, o = Throw (runtime_error what)) tt.
Proof.
  intros Hkeys Hdelay Hfmt.
  induction input as [|image input IH]; intros Hex n tracker; simpl in *.
  - inversion Hex.
  - fold (live image) in *. destruct (live image) eqn:Hlive; [|inversion Hex].
    wp_step. wp_step. wp_step.
    apply Exists_cons in Hex as [Hbad | Hex].
    + eapply wp_mono; [by apply video_body_throws|].
      intros o [] [what ->]. eauto.
    + eapply wp_mono; [by apply video_body_defined|].
      intros o [] [Hu He].
      destruct o as [tracker'|[|what]|]; [by apply IH | done | eauto | done].
Qed.

Lemma run_video_mode_unsupported cfg v la input :
  never_escape W → wait_delay cfg ≠ None → format_ok la →
  VideoCapture W v = Some input →
  Exists (λ m, supported m = false) (live_prefix input) →
  wp anything (run_video_mode W cfg (Some v) la)
     (λ o _, ∃ what, o = Throw (runtime_error what)) tt.
Proof.
  intros Hkeys Hdelay Hfmt Hv Hex. unfold run_video_mode.
  repeat wp_step; simplify_eq; simpl in *; try done.
  eapply wp_mono; [by apply video_loop_unsupported|].
  intros o [] [what ->]. eauto.
Qed.

End Failures.

Section ExitStatusClaim.

Context {T P : Type} `{FaceTracker T P} (W : World).

Lemma argument_loop_help pre h rest :
  Forall (λ a, a ∈ ["--lists"; "--video"; "--verbose"]%string) pre →
  h = "--help"%string ∨ h = "-h"%string →
  ∀ lm vm wts cfg k,
    argument_loop W (pre ++ h :: rest) None None lm vm wts cfg k
    = mkRun (Ret None) [EvStdout (usage_text +:+ LF)] k.
Proof.
  intros Hpre Hh.
  induction Hpre as [|a pre Ha _ IH]; intros lm vm wts cfg k.
  - destruct Hh as [-> | ->]; reflexivity.
  - assert (Hcase : (a = "--lists" ∨ a = "--video" ∨ a = "--verbose")%string).
    { rewrite !elem_of_cons, elem_of_nil in Ha. tauto. }
    destruct Hcase as [-> | [-> | ->]]; simpl; apply IH.
Qed.

Lemma main_help pre h rest k :
  Forall (λ a, a ∈ ["--lists"; "--video"; "--verbose"]%string) pre →
  h = "--help"%string ∨ h = "-h"%string →
  main W (pre ++ h :: rest) k = mkRun (Ret 0) [EvStdout (usage_text +:+ LF)] k.
Proof.
  intros Hpre Hh. unfold main, try_catch, run_program, bind.
  rewrite (argument_loop_help pre h rest Hpre Hh). reflexivity.
Qed.

Lemma main_exit_status args k :
  match outcome (run_program W args k) with
  | Ret n =>
      n = 0 ∧ main W args k = run_program W args k
      ∧ Forall (λ e, is_escape e = false) (events (main W args k))
  | Throw user_pressed_escape =>
      outcome (main W args k) = Ret 1
      ∧ ∃ pre delay key,
          events (main W args k)
          = pre ++ [EvWaitKey delay key; EvStdout ("Stopping prematurely." +:+ LF)]
          ∧ to_char key = 27
          ∧ Forall (λ e, is_escape e = false) pre
  | Throw (runtime_error what) =>
      outcome (main W args k) = Ret 2
      ∧ events (main W args k)
        = events (run_program W args k)
          ++ [EvStderr ("Caught unhandled exception: " +:+ what +:+ LF)]
      ∧ Forall (λ e, is_escape e = false) (events (main W args k))
  | Undefined => outcome (main W args k) = Undefined
  end.
Proof.
  pose proof (main_cases W args k) as Hm.
  destruct (run_program_escaping W args k) as [Ha Hp].
  destruct (run_program_returns_0 W args k) as [_ Hz].
  destruct (escaping_facts _ Ha) as [Hquiet Hpressed].
  unfold escape_post in Hp.
  destruct (outcome (run_program W args k)) as [n|[|what]|] eqn:Ho.
  - split; [by apply Hz|]. split; [done|]. rewrite Hm. by apply Hquiet.
  - destruct Hm as [Hm1 Hm2]. split; [done|].
    destruct (Hpressed Hp) as (pre & e & Hev & He & Hpre).
    destruct e as [| | | | | | | | | | | | | | |delay key]; try discriminate.
    exists pre, delay, key. rewrite Hm2, Hev, <- app_assoc. simpl in He.
    split; [done|]. split; [by apply Z.eqb_eq | done].
  - destruct Hm as [Hm1 Hm2]. split; [done|]. split; [done|].
    rewrite Hm2. apply Forall_app. split; [by apply Hquiet | by repeat constructor].
  - by rewrite Hm.
Qed.

(** C5.  The exit status is decided by the way [run_program] ends: 0
    when it returns (it only ever returns 0; this covers normal
    completion and [--help]); 1 when the escape exception is in flight,
    which is the case exactly when a key press during a display read as
    escape, and then that key press is the last event of the run before
    the closing message: nothing is loaded, tracked, written or shown
    after it; 2 when any other exception is in flight, with the message
    written to the error stream as the last event.  The failures listed
    all end in status 2: a third positional argument, [--lists] together
    with [--video], lists of different lengths, an unreadable image,
    list or video, and a video frame of an unsupported type (for the
    last one and for an unreadable image inside a list, provided no key
    press reads as escape before the failure is reached). *)
Theorem exit_status_is_0_1_or_2 :
  (∀ args k,
     match outcome (run_program W args k) with
     | Ret n =>
         n = 0 ∧ main W args k = run_program W args k
         ∧ Forall (λ e, is_escape e = false) (events (main W args k))
     | Throw user_pressed_escape =>
         outcome (main W args k) = Ret 1
         ∧ ∃ pre delay key,
             events (main W args k)
             = pre ++ [EvWaitKey delay key;
                       EvStdout ("Stopping prematurely." +:+ LF)]
             ∧ to_char key = 27
             ∧ Forall (λ e, is_escape e = false) pre
     | Throw (runtime_error what) =>
         outcome (main W args k) = Ret 2
         ∧ events (main W args k)
           = events (run_program W args k)
             ++ [EvStderr ("Caught unhandled exception: " +:+ what +:+ LF)]
         ∧ Forall (λ e, is_escape e = false) (events (main W args k))
     | Undefined => outcome (main W args k) = Undefined
     end)
  ∧ (∀ args k,
       (∃ e, e ∈ events (main W args k) ∧ is_escape e = true)
       ↔ outcome (main W args k) = Ret 1)
  ∧ (∀ pre h rest k,
       Forall (λ a, a ∈ ["--lists"; "--video"; "--verbose"]%string) pre →
       h = "--help"%string ∨ h = "-h"%string →
       main W (pre ++ h :: rest) k = mkRun (Ret 0) [EvStdout (usage_text +:+ LF)] k)
  ∧ (∀ a b c rest k,
       is_option a = false → is_option b = false → is_option c = false →
       outcome (main W (a :: b :: c :: rest) k) = Ret 2)
  ∧ (∀ a k,
       is_option a = false →
       outcome (main W ["--lists"; "--video"; a]%string k) = Ret 2)
  ∧ (∀ il ll images landmarks k,
       is_option il = false → is_option ll = false →
       read_list W il = Some images → read_list W ll = Some landmarks →
       length landmarks ≠ length images →
       outcome (main W ["--lists"%string; il; ll] k) = Ret 2)
  ∧ (∀ p k,
       is_option p = false → load_grayscale_image W p = None →
       outcome (main W [p] k) = Ret 2)
  ∧ (∀ il k,
       is_option il = false → read_list W il = None →
       outcome (main W ["--lists"%string; il] k) = Ret 2)
  ∧ (∀ v la k,
       is_option v = false → (∀ s, la = Some s → is_option s = false) →
       VideoCapture W v = None →
       outcome (main W ("--video"%string :: v :: option_list la) k) = Ret 2)
  ∧ (∀ il images k,
       is_option il = false → never_escape W →
       read_list W il = Some images →
       Exists (λ p, load_grayscale_image W p = None) images →
       outcome (main W ["--lists"%string; il] k) = Ret 2)
  ∧ (∀ v la input k,
       is_option v = false → (∀ s, la = Some s → is_option s = false) →
       never_escape W → format_ok la →
       VideoCapture W v = Some input →
       Exists (λ m, supported m = false) (live_prefix input) →
       outcome (main W ("--video"%string :: v :: option_list la) k) = Ret 2).
Proof.
  assert (Hthrow : ∀ args k,
             (∃ what, outcome (run_program W args k) = Throw (runtime_error what)) →
             outcome (main W args k) = Ret 2).
  { intros args k [what Ho]. by destruct (main_exit_2 W args k what Ho). }
  repeat apply conj.
  - apply main_exit_status.
  - intros args k. pose proof (main_exit_status args k) as Hm.
    destruct (outcome (run_program W args k)) as [n|[|what]|] eqn:Ho.
    + destruct Hm as (-> & Hm & Hq). split.
      * intros (e & He & Hesc). rewrite Forall_forall in Hq.
        rewrite (Hq e He) in Hesc. discriminate.
      * rewrite Hm, Ho. discriminate.
    + destruct Hm as (Hm & pre & delay & key & Hev & Hkey & Hq). split; [done|].
      intros _. exists (EvWaitKey delay key). split.
      * rewrite Hev. set_solver.
      * simpl. by apply Z.eqb_eq.
    + destruct Hm as (Hm & Hev & Hq). split.
      * intros (e & He & Hesc). rewrite Forall_forall in Hq.
        rewrite (Hq e He) in Hesc. discriminate.
      * rewrite Hm. discriminate.
    + split.
      * intros (e & He & Hesc).
        pose proof (main_cases W args k) as Hc. rewrite Ho in Hc.
        destruct (run_program_escaping W args k) as [Ha Hp].
        destruct (escaping_facts _ Ha) as [Hquiet _].
        unfold escape_post in Hp. rewrite Ho in Hp.
        specialize (Hquiet Hp). rewrite Forall_forall in Hquiet.
        rewrite Hc in He. rewrite (Hquiet e He) in Hesc. discriminate.
      * rewrite Hm. discriminate.
  - intros. by apply main_help.
  - intros a b c rest k Ha Hb Hc. apply Hthrow.
    by apply run_program_third_positional.
  - intros a k Ha. apply Hthrow. by apply run_program_conflict.
  - intros il ll images landmarks k Hil Hll Hi Hl Hneq. apply Hthrow.
    rewrite run_program_lists_output by done.
    destruct (run_lists_mode_mismatch W (set_wait_time default_cfg one_thirtieth)
                il ll images landmarks k Hi Hl Hneq) as [Ho _].
    eauto.
  - intros p k Hp Hload. apply Hthrow. rewrite run_program_image by done.
    by destruct (run_image_mode_unreadable W (set_wait_time default_cfg (double_of_int 0))
                   p None Hload k) as [_ Ho].
  - intros il k Hil Hread. apply Hthrow. rewrite run_program_lists by done.
    by destruct (run_lists_mode_unreadable_list W
                   (set_wait_time default_cfg one_thirtieth) il None Hread k) as [_ Ho].
  - intros v la k Hv Hla Hopen. apply Hthrow. rewrite run_program_video by done.
    by destruct (run_video_mode_unopened W (set_wait_time default_cfg one_thirtieth)
                   v la Hopen k) as [_ Ho].
  - intros il images k Hil Hkeys Hread Hex. apply Hthrow.
    rewrite run_program_lists by done.
    by destruct (run_lists_mode_unreadable_image W
                   (set_wait_time default_cfg one_thirtieth) il images
                   Hkeys (wait_delay_continuous default_cfg) Hread Hex k) as [_ Ho].
  - intros v la input k Hv Hla Hkeys Hfmt Hopen Hex. apply Hthrow.
    rewrite run_program_video by done.
    by destruct (run_video_mode_unsupported W
                   (set_wait_time default_cfg one_thirtieth) v la input
                   Hkeys (wait_delay_continuous default_cfg) Hfmt Hopen Hex k)
      as [_ Ho].
Qed.

End ExitStatusClaim.

Lemma exit_status_witness :
  let tracker := Fixture.scripted
                   [(7, Fixture.five_points); (7, Fixture.five_points);
                    (7, Fixture.five_points)] in
  let W := Fixture.world Fixture.no_key in
  outcome (main (H := tracker) W ["--lists"; "broken.txt"]%string 0%nat) = Ret 2
  ∧ outcome (main (H := tracker) W ["--video"; "odd.avi"; "out_%u.pts"]%string 0%nat)
    = Ret 2.
Proof.
  intros tracker W.
  assert (Hkeys : never_escape W).
  { intros n delay. simpl. unfold Fixture.no_key. discriminate. }
  destruct (exit_status_is_0_1_or_2 (H := tracker) W)
    as (_ & _ & _ & _ & _ & _ & _ & _ & _ & Hlist & Hvideo).
  split.
  - apply (Hlist "broken.txt"%string ["a.png"; "missing.png"; "c.png"]%string 0%nat
             eq_refl Hkeys eq_refl).
    apply Exists_cons_tl, Exists_cons_hd. reflexivity.
  - apply (Hvideo "odd.avi"%string (Some "out_%u.pts"%string)
             [Fixture.colour_frame 1; Fixture.four_channel_frame 2;
              Fixture.colour_frame 3] 0%nat eq_refl).
    + intros s Hs. injection Hs as <-. reflexivity.
    + exact Hkeys.
    + eexists. split; [reflexivity | simpl; lia].
    + reflexivity.
    + apply Exists_cons_tl, Exists_cons_hd. reflexivity.
Defined.

(** ** The scenarios of the design, run on the scripted tracker *)

(** A score equal to the threshold is an accept: the shape is taken and
    written. *)
Example score_equal_to_threshold_is_accepted :
  let r := main (H := Fixture.scripted [(5, Fixture.five_points)])
             (Fixture.world Fixture.no_key) ["a.png"; "a.pts"]%string 0%nat in
  scores (events r) = [5]
  ∧ filter is_get_shape (events r) = [EvGetShape Fixture.five_points]
  ∧ saved_paths (events r) = ["a.pts"%string].
Proof. repeat split; reflexivity. Qed.

(** Image mode, no output argument, threshold 5, score 7 and five
    points: one display with five markers, nothing written, status 0. *)
Example scenario_image_display :
  let r := main (H := Fixture.scripted [(7, Fixture.five_points)])
             (Fixture.world Fixture.no_key) ["a.png"%string] 0%nat in
  outcome r = Ret 0
  ∧ saved_paths (events r) = []
  ∧ omap (λ e, match e with EvImshow _ _ cs => Some (length cs) | _ => None end)
         (events r) = [5%nat].
Proof. repeat split; reflexivity. Qed.

(** Video mode with the template [out_%04u.pts]: with frames 1 to 3
    accepted and frame 4 rejected, three files are written and the
    third is [out_0003.pts]. *)
Example scenario_video_template :
  let r := main (H := Fixture.scripted
                        [(7, Fixture.five_points); (7, Fixture.five_points);
                         (7, Fixture.five_points); (4, Fixture.five_points)])
             (Fixture.world Fixture.no_key)
             ["--video"; "clip.avi"; "out_%04u.pts"]%string 0%nat in
  outcome r = Ret 0
  ∧ saved_paths (events r) = ["out_0001.pts"; "out_0002.pts"; "out_0003.pts"]%string.
Proof. split; reflexivity. Qed.

(** The escape key at the second display of a video: status 1, and the
    third and fourth frames are never pulled. *)
Example scenario_escape :
  let r := main (H := Fixture.scripted
                        [(7, Fixture.five_points); (7, Fixture.five_points);
                         (7, Fixture.five_points); (7, Fixture.five_points)])
             (Fixture.world (Fixture.escape_at 1))
             ["--video"; "clip.avi"]%string 0%nat in
  outcome r = Ret 1
  ∧ length (pulled (events r)) = 2%nat
  ∧ scores (events r) = [7; 7].
Proof. repeat split; reflexivity. Qed.

(** Threshold 10 and every score 9: every frame is rejected and reset,
    and nothing is written. *)
Example scenario_all_rejected :
  let r := main (H := Fixture.scripted
                        [(9, Fixture.five_points); (9, Fixture.five_points);
                         (9, Fixture.five_points)])
             (Fixture.world Fixture.no_key)
             ["--threshold"; "10"; "--lists"; "images.txt"; "points.txt"]%string 0%nat in
  outcome r = Ret 0
  ∧ saved_paths (events r) = []
  ∧ length (filter is_reset (events r)) = 3%nat.
Proof. repeat split; reflexivity. Qed.

(* ================================================================= *)
(** * Further properties of the drivers *)

(** ** Invariants of the loops and of the drivers *)

Lemma only_admits (allowed : Event → Prop) tr :
  ∀ st, admits (only allowed) st tr ↔ Forall allowed tr.
Proof.
  induction tr as [|e tr IH]; intros st; simpl.
  - split; [constructor | done].
  - rewrite IH, Forall_cons. done.
Qed.

Section Invariants.

Context {T P : Type} `{FaceTracker T P} (W : World).
Context {S : Type} (step : S → Event → Prop * S).
Context (inv : S → Prop) (thrown : exn → S → Prop) (undef : S → Prop).

(** An invariant of the body of the list loop is one of the loop. *)
Lemma lists_loop_invariant cfg la params n :
  (∀ p lit idx tracker st, inv st →
     wp step (lists_body W cfg la params n p lit idx tracker)
        (ending inv thrown undef) st) →
  ∀ images lit idx tracker st, inv st →
    wp step (lists_loop W cfg la params n images lit idx tracker)
       (ending inv thrown undef) st.
Proof.
  intros Hbody. induction images as [|p images IH]; intros lit idx tracker st Hst; simpl.
  - by wp_step.
  - wp_step. eapply wp_mono; [by apply Hbody|].
    intros o st' Hp. destruct o as [[[lit' idx'] tracker']|e|]; [|done..].
    by apply IH.
Qed.

(** An invariant of the body of the video loop that pulling a frame
    keeps is one of the loop. *)
Lemma video_loop_invariant cfg la params :
  (∀ image n tracker st, inv st →
     wp step (video_body W cfg la params image n tracker)
        (ending inv thrown undef) st) →
  (∀ image st, inv st →
     (step st (EvNextFrame image)).1 ∧ inv (step st (EvNextFrame image)).2) →
  ∀ input n tracker st, inv st →
    wp step (video_loop W cfg la params input n tracker)
       (ending inv thrown undef) st.
Proof.
  intros Hbody Hpull.
  induction input as [|image input IH]; intros n tracker st Hst; simpl.
  - destruct (Hpull empty_Mat st Hst). by apply wp_emit.
  - destruct (Hpull image st Hst) as [Hs Hi].
    wp_step. apply wp_emit; [done|]. destruct (_ && _).
    + wp_step. eapply wp_mono; [by apply Hbody|].
      intros o st' Hp. destruct o as [tracker'|e|]; [|done..].
      by apply IH.
    + by wp_step.
Qed.

End Invariants.

Section DriverInvariants.

Context {T P : Type} `{FaceTracker T P} (W : World).
Context {S : Type} (step : S → Event → Prop * S).
Context (inv : S → Prop) (thrown : exn → S → Prop) (undef : S → Prop).

Hypothesis plumbing_kept : ∀ e st,
  plumbing e = true → inv st → (step st e).1 ∧ inv (step st e).2.
Hypothesis failure_kept : ∀ what st, inv st → thrown (runtime_error what) st.
Hypothesis undefined_kept : ∀ st, inv st → undef st.

Lemma wp_plumbing e (post : Outcome unit → S → Prop) st :
  plumbing e = true → inv st → (∀ st', inv st' → post (Ret tt) st') →
  wp step (emit e) post st.
Proof.
  intros He Hst Hpost. destruct (plumbing_kept e st He Hst). apply wp_emit; auto.
Qed.

Ltac inv_step :=
  lazymatch goal with
  | |- wp _ (emit _) _ _ => apply wp_plumbing; [reflexivity | assumption | intros ? ?]
  | |- _ => wp_step
  end.

Ltac inv_done := simpl; auto using failure_kept, undefined_kept.

(** An invariant of the body of the list loop that the events around
    the loop keep is one of [run_lists_mode]. *)
Lemma run_lists_mode_invariant cfg ia la st :
  (∀ params n p lit idx tracker st, inv st →
     wp step (lists_body W cfg la params n p lit idx tracker)
        (ending inv thrown undef) st) →
  inv st →
  wp step (run_lists_mode W cfg ia la) (ending inv thrown undef) st.
Proof.
  intros Hbody Hst. unfold run_lists_mode.
  repeat inv_step; try (by inv_done);
    (eapply wp_mono;
     [apply (lists_loop_invariant W step inv thrown undef);
      [intros; by apply Hbody | assumption]|]);
    (intros o stx Hp; destruct o; [|assumption..]);
    repeat inv_step; by inv_done.
Qed.

Lemma run_video_mode_invariant cfg ia la st :
  (∀ params image n tracker st, inv st →
     wp step (video_body W cfg la params image n tracker)
        (ending inv thrown undef) st) →
  inv st →
  wp step (run_video_mode W cfg ia la) (ending inv thrown undef) st.
Proof.
  intros Hbody Hst. unfold run_video_mode.
  repeat inv_step; try (by inv_done);
    (eapply wp_mono;
     [apply (video_loop_invariant W step inv thrown undef);
      [intros; by apply Hbody | intros; by apply plumbing_kept | assumption]|]);
    (intros o stx Hp; destruct o; [|assumption..]);
    repeat inv_step; by inv_done.
Qed.

(** An invariant of the three mode drivers that printing the usage text
    keeps is one of [run_program]. *)
Lemma run_program_invariant args st :
  (∀ cfg ia la st, inv st →
     wp step (run_image_mode W cfg ia la) (ending inv thrown undef) st) →
  (∀ cfg la params n p lit idx tracker st, inv st →
     wp step (lists_body W cfg la params n p lit idx tracker)
        (ending inv thrown undef) st) →
  (∀ cfg la params image n tracker st, inv st →
     wp step (video_body W cfg la params image n tracker)
        (ending inv thrown undef) st) →
  (∀ st, inv st → (step st (EvStdout (usage_text +:+ LF))).1
                  ∧ inv (step st (EvStdout (usage_text +:+ LF))).2) →
  inv st →
  wp step (run_program W args) (ending inv thrown undef) st.
Proof.
  intros Himage Hlists Hvideo Husage Hst. unfold run_program. wp_step.
  destruct (Husage st Hst) as [Hu1 Hu2].
  apply (argument_loop_wp step W _ st (length args)); try done; [|by inv_done..].
  intros l.
  repeat wp_step;
    lazymatch goal with
    | |- wp _ (run_lists_mode _ _ _ _) _ _ =>
        apply run_lists_mode_invariant; [intros; by apply Hlists | assumption]
    | |- wp _ (run_video_mode _ _ _ _) _ _ =>
        apply run_video_mode_invariant; [intros; by apply Hvideo | assumption]
    | |- wp _ (run_image_mode _ _ _ _) _ _ => by apply Himage
    | |- _ => by inv_done
    end.
Qed.

End DriverInvariants.

Lemma wp_only {A} (allowed : Event → Prop) (m : M A) post k :
  wp (only allowed) m post tt → Forall allowed (events (m k)).
Proof. intros Hwp. apply (only_admits _ _ tt), Hwp. Qed.

Ltac only_plumbing := intros e ? He _; by destruct e.

(** ** The display *)

Lemma to_char_escape key : (to_char key =? 27) = (key mod 256 =? 27).
Proof.
  unfold to_char. apply eq_iff_eq_true. rewrite !Z.eqb_eq.
  split; intros Hk; Z.to_euclidean_division_equations; lia.
Qed.

(** The circles that [display_image_and_points] draws are the markers of
    the points. *)
Lemma markers_map cfg image points :
  map (λ p, {| centre := p; radius := circle_radius cfg;
               colour := if type image =? DataType_uint8 then (255, 0, 0, 0)
                         else if type image =? DataType_Vec_uint8_3 then (0, 0, 255, 0)
                         else (255, 0, 0, 0);
               thickness := circle_thickness cfg; linetype := circle_linetype cfg;
               shift := circle_shift cfg |}) points
  = map (marker cfg image) points.
Proof.
  apply map_ext. intros p. unfold marker, marker_colour. f_equal.
  destruct (type image =? DataType_uint8) eqn:Hg; [|done].
  apply Z.eqb_eq in Hg. by rewrite Hg.
Qed.

Lemma centre_markers cfg image points :
  map centre (map (marker cfg image) points) = points.
Proof. induction points as [|p points IH]; simpl; [done | by rewrite IH]. Qed.

(** A wait time of 9 ms gives a delay of 9 ms: the product is formed in
    [double], where it is exactly 9.  A wait time of 3000000 s has no
    delay: 3000000000 is beyond [int]. *)
Example delay_of_9_ms :
  double_to_int (double_mul (double_div (double_of_int 9) (double_of_int 1000))
                   (double_of_int 1000)) = Some 9.
Proof. vm_compute. reflexivity. Qed.

Example delay_beyond_int :
  double_to_int (double_mul (double_of_int 3000000) (double_of_int 1000)) = None.
Proof. vm_compute. reflexivity. Qed.

Ltac display_goal :=
  simpl in *; try done;
  lazymatch goal with
  | |- _ ∧ _ = map (marker _ _) _ =>
      split; [done | first [apply markers_map | apply (markers_map _ _ [])]]
  | |- _ ∧ _ = prompt => by split
  | |- _ ∧ wait_delay _ = Some _ => by split
  | |- _ ∨ wait_delay _ = None => first [by left | by right]
  | |- _ => idtac
  end.

Lemma display_protocol_facts cfg tr :
  ∀ st, admits (display_protocol cfg) st tr →
    Forall (displayed_as cfg) tr
    ∧ ((after (display_protocol cfg) st tr).1 = Quiet →
       length (filter is_wait_key tr)
       = ((if st.1 is Quiet then 0 else 1) + length (filter is_imshow tr))%nat).
Proof.
  induction tr as [|e tr IH]; intros [ph shape] Ha; simpl in *.
  - split; [constructor|]. by intros ->.
  - destruct Ha as [He Ha]. destruct (IH _ Ha) as [IH1 IH2].
    split.
    + constructor; [|done].
      destruct ph, e; simpl in *; try tauto.
      destruct He as [-> ->]. by rewrite centre_markers.
    + intros Hq. specialize (IH2 Hq).
      destruct ph, e; simpl in *; try done;
        rewrite ?filter_cons_True, ?filter_cons_False by (simpl; auto);
        simpl; lia.
Qed.

Lemma displays_as_configured_wp {A} cfg (m : M A) k :
  wp (display_protocol cfg) m (ending quiet (λ _, quiet) (stalled cfg)) (Quiet, []) →
  displays_as_configured cfg (m k).
Proof.
  intros Hwp. destruct (Hwp k) as [Ha Hq].
  destruct (display_protocol_facts cfg _ _ Ha) as [Hf Hn].
  assert (Hend : (after (display_protocol cfg) (Quiet, []) (events (m k))).1 = Quiet
                 ∨ outcome (m k) = Undefined ∧ wait_delay cfg = None).
  { unfold stalled, quiet in Hq.
    destruct (outcome (m k)); simpl in Hq; [by left | by left |].
    destruct Hq as [Hq | Hq]; [by left | by right]. }
  split; [done|]. split; [done|]. split; [done|].
  intros Hdelay. apply Hn. by destruct Hend as [Hq' | [_ Hq']].
Qed.

(** What [main] adds to the events of [run_program] keeps the display
    protocol. *)
Lemma displays_as_configured_main {T P : Type} `{FaceTracker T P} W cfg args k :
  displays_as_configured cfg (run_program W args k) →
  displays_as_configured cfg (main W args k).
Proof.
  intros Hrun.
  pose proof (main_cases W args k) as Hm.
  destruct (outcome (run_program W args k)) as [v|e|] eqn:Ho;
    [by rewrite Hm | | by rewrite Hm].
  destruct Hrun as (Ha & Hq & Hf & Hn).
  destruct Hq as [Hq | [Hq _]]; [|congruence].
  assert (Hev : ∃ e', events (main W args k) = events (run_program W args k) ++ [e']
                      ∧ is_imshow e' = false ∧ is_wait_key e' = false
                      ∧ (∀ shape, (display_protocol cfg (Quiet, shape) e').1
                                  ∧ (display_protocol cfg (Quiet, shape) e').2.1 = Quiet)).
  { destruct e as [|what]; destruct Hm as [_ ->]; eexists; by repeat split. }
  destruct Hev as (e' & Hev & Hi & Hw & Hstep).
  unfold displays_as_configured. rewrite Hev.
  rewrite admits_app, after_app, Forall_app, !filter_app, !length_app.
  rewrite (filter_cons_False is_wait_key), (filter_cons_False is_imshow)
    by (rewrite ?Hi, ?Hw; simpl; auto).
  destruct (after (display_protocol cfg) (Quiet, []) (events (run_program W args k)))
    as [ph shape] eqn:Hafter.
  simpl in Hq. subst ph. destruct (Hstep shape) as [Hs1 Hs2].
  split; [split; [done | by split]|].
  split; [by left|].
  split; [split; [done | constructor; [by destruct e' | constructor]]|].
  intros Hdelay. simpl. rewrite (Hn Hdelay). lia.
Qed.

Section Display.

Context {T P : Type} `{FaceTracker T P} (W : World).

(** X1.  [display_image_and_points] scales the wait time to milliseconds
    in [double] and converts the product to [int].  Where that
    conversion is defined it reads exactly one key, with the converted
    value as the delay, and takes the key for escape exactly when the
    low byte of the key code is 27 (the code is narrowed to [char]
    before the comparison): it then throws [user_pressed_escape], and
    returns normally for every other key.  Where the conversion is not
    defined (the product is not a number or is beyond [int]) no key is
    read and the behaviour is undefined. *)
Theorem escape_is_read_from_the_low_byte_of_the_key cfg image points k :
  let r := display_image_and_points W cfg image points k in
  match double_to_int (double_mul (wait_time cfg) (double_of_int 1000)) with
  | Some delay =>
      let key := waitKey W k delay in
      outcome r = (if key mod 256 =? 27 then Throw user_pressed_escape else Ret tt)
      ∧ presses r = Datatypes.S k
      ∧ filter is_wait_key (events r) = [EvWaitKey delay key]
  | None =>
      outcome r = Undefined ∧ presses r = k ∧ filter is_wait_key (events r) = []
  end.
Proof.
  intros r. subst r. unfold display_image_and_points. cbv zeta.
  unfold bind, when, emit, call_waitKey, convert_to_int.
  destruct (double_to_int _) as [delay|];
    destruct (double_is_zero (wait_time cfg));
    cbn -[to_char Z.modulo Z.eqb double_to_int double_mul];
    rewrite ?to_char_escape; try done; destruct (_ =? 27); done.
Qed.

Lemma lists_body_display cfg la params n p lit idx tracker st :
  quiet st →
  wp (display_protocol cfg) (lists_body W cfg la params n p lit idx tracker)
     (ending quiet (λ _, quiet) (stalled cfg)) st.
Proof.
  destruct st as [ph shape]. unfold quiet, stalled. simpl. intros ->.
  unfold lists_body. cbv zeta. repeat wp_step; display_goal.
Qed.

Lemma video_body_display cfg la params image n tracker st :
  quiet st →
  wp (display_protocol cfg) (video_body W cfg la params image n tracker)
     (ending quiet (λ _, quiet) (stalled cfg)) st.
Proof.
  destruct st as [ph shape]. unfold quiet, stalled. simpl. intros ->.
  unfold video_body. cbv zeta. repeat wp_step; display_goal.
Qed.

Lemma quiet_plumbing cfg e st :
  plumbing e = true → quiet st →
  (display_protocol cfg st e).1 ∧ quiet (display_protocol cfg st e).2.
Proof. destruct st as [ph shape]. unfold quiet. simpl. intros He ->. by destruct e. Qed.

Lemma quiet_stalled cfg st : quiet st → stalled cfg st.
Proof. by left. Qed.

Lemma run_lists_mode_display cfg ia la :
  wp (display_protocol cfg) (run_lists_mode W cfg ia la)
     (ending quiet (λ _, quiet) (stalled cfg)) (Quiet, []).
Proof.
  apply (run_lists_mode_invariant W _ quiet (λ _, quiet) (stalled cfg));
    [apply quiet_plumbing | done | apply quiet_stalled | | done].
  intros. by apply lists_body_display.
Qed.

Lemma run_video_mode_display cfg ia la :
  wp (display_protocol cfg) (run_video_mode W cfg ia la)
     (ending quiet (λ _, quiet) (stalled cfg)) (Quiet, []).
Proof.
  apply (run_video_mode_invariant W _ quiet (λ _, quiet) (stalled cfg));
    [apply quiet_plumbing | done | apply quiet_stalled | | done].
  intros. by apply video_body_display.
Qed.

Lemma run_image_mode_display cfg ia la :
  wp (display_protocol cfg) (run_image_mode W cfg ia la)
     (ending quiet (λ _, quiet) (stalled cfg)) (Quiet, []).
Proof. unfold run_image_mode, stalled, quiet. repeat wp_step; display_goal. Qed.

(** X2.  In every mode each display is made as the configuration asks.
    The window has the configured title and shows exactly one circle for
    each point of the shape of the current frame, in the order of the
    points (the shape taken from the tracker when the frame was
    accepted, no point otherwise), with the configured radius,
    thickness, line type and shift, in (0,0,255) on an 8-bit 3-channel
    image and in 255 on any other.  The prompt is printed after the
    window exactly when the wait time is zero.  Then one key is read,
    with the wait time scaled to milliseconds in [double] and converted
    to [int] as the delay; where that conversion is undefined the run
    ends there, with undefined behaviour.  No key is read outside a
    display. *)
Theorem every_display_is_made_as_configured cfg ia la k :
  displays_as_configured cfg (run_image_mode W cfg ia la k)
  ∧ displays_as_configured cfg (run_lists_mode W cfg ia la k)
  ∧ displays_as_configured cfg (run_video_mode W cfg ia la k).
Proof.
  split; [|split]; apply displays_as_configured_wp.
  - apply run_image_mode_display.
  - apply run_lists_mode_display.
  - apply run_video_mode_display.
Qed.

Lemma run_program_display args k l :
  outcome (argument_loop W args None None false false false default_cfg k)
  = Ret (Some l) →
  displays_as_configured (effective_cfg l) (run_program W args k).
Proof.
  intros Hl. rewrite (run_program_effective W args k l Hl).
  destruct (have_argument_p (image_argument l)); cbn [negb].
  2:{ apply (displays_as_configured_wp _ (print_usage;; ret 0)).
      by repeat wp_step. }
  destruct (lists_mode l && video_mode l).
  { apply (displays_as_configured_wp _ (throw _)). by wp_step. }
  destruct (lists_mode l);
    [apply displays_as_configured_wp, run_lists_mode_display|].
  destruct (video_mode l);
    [apply displays_as_configured_wp, run_video_mode_display|].
  apply displays_as_configured_wp, run_image_mode_display.
Qed.

Lemma key_delays tr (P0 : Z → Prop) :
  Forall (λ e, match e with EvWaitKey delay _ => P0 delay | _ => True end) tr →
  Forall P0 (omap key_delay tr).
Proof.
  induction 1 as [|e tr He _ IH]; simpl; [constructor|].
  destruct e; simpl; try done. by constructor.
Qed.

(** X3.  The wait time of the displays of a run is the value of
    [--wait-time] when the option was given; otherwise it is a thirtieth
    of a second in list and video mode and zero in image mode.  So
    without the option every key read of [main] in list and video mode
    has a delay of 33 ms, and no prompt is printed; in image mode every
    key read has delay 0, which blocks, and follows the prompt.  With
    the option every key read has the given wait time, scaled to
    milliseconds in [double] and converted to [int], as its delay. *)
Theorem wait_time_is_the_option_or_the_default_of_the_mode args k l :
  outcome (argument_loop W args None None false false false default_cfg k)
  = Ret (Some l) →
  displays_as_configured (effective_cfg l) (main W args k)
  ∧ (wait_time_specified l = true →
     wait_time (effective_cfg l) = wait_time (cfg l)
     ∧ Forall (λ delay, wait_delay (cfg l) = Some delay)
         (omap key_delay (events (main W args k))))
  ∧ (wait_time_specified l = false →
     wait_delay (effective_cfg l) = Some (if lists_mode l || video_mode l then 33 else 0)
     ∧ double_is_zero (wait_time (effective_cfg l)) = negb (lists_mode l || video_mode l)
     ∧ Forall (λ delay, delay = if lists_mode l || video_mode l then 33 else 0)
         (omap key_delay (events (main W args k)))).
Proof.
  intros Hl.
  pose proof (displays_as_configured_main W _ args k (run_program_display args k l Hl))
    as Hmain.
  split; [exact Hmain|].
  destruct Hmain as (_ & _ & Hf & _).
  assert (Hkeys : Forall (λ delay, wait_delay (effective_cfg l) = Some delay)
                    (omap key_delay (events (main W args k)))).
  { apply key_delays. eapply Forall_impl; [exact Hf|]. intros e He. by destruct e. }
  split.
  - intros Hs. unfold effective_cfg in *. rewrite Hs in *. by split.
  - intros Hs.
    assert (Hd : wait_delay (effective_cfg l)
                 = Some (if lists_mode l || video_mode l then 33 else 0)).
    { unfold effective_cfg. rewrite Hs.
      destruct (lists_mode l || video_mode l); rewrite wait_delay_set.
      - apply one_thirtieth_delay.
      - apply zero_delay. }
    split; [exact Hd|]. split.
    + unfold effective_cfg. rewrite Hs.
      by destruct (lists_mode l || video_mode l); vm_compute.
    + eapply Forall_impl; [exact Hkeys|]. intros delay Hdelay. simpl in Hdelay.
      rewrite Hd in Hdelay. by injection Hdelay.
Qed.

End Display.

Lemma wait_time_witness :
  let tracker := Fixture.scripted [(7, Fixture.five_points)] in
  let W := Fixture.world Fixture.no_key in
  let args := ["--lists"; "images.txt"]%string in
  let l := {| image_argument := Some "images.txt"%string; landmarks_argument := None;
              lists_mode := true; video_mode := false; wait_time_specified := false;
              cfg := default_cfg (H := tracker) |} in
  omap key_delay (events (main (H := tracker) W args 0%nat)) = [33; 33; 33]
  ∧ displays_as_configured (effective_cfg l) (main (H := tracker) W args 0%nat)
  ∧ wait_delay (effective_cfg l) = Some 33.
Proof.
  intros tracker W args l.
  destruct (wait_time_is_the_option_or_the_default_of_the_mode
              (H := tracker) W args 0%nat l eq_refl) as (Hd & _ & Hw).
  split; [vm_compute; reflexivity|]. split; [exact Hd|].
  exact (proj1 (Hw eq_refl)).
Defined.

(** ** What the drivers never do *)

Section Never.

Context {T P : Type} `{FaceTracker T P} (W : World).

Ltac shape_cases :=
  try done;
  try (intros Hs; rewrite Hs in *; simpl in *; done);
  try match goal with
      | Hla : negb (have_argument_p ?la) = true |- _ =>
          destruct la; simpl in *; by auto
      end.

(** X5.  No mode ever writes an empty shape.  Image mode writes to the
    landmarks argument itself; without a landmarks argument no mode
    writes anything. *)
Theorem only_non_empty_shapes_are_written cfg ia la k :
  let image := events (run_image_mode W cfg ia la k) in
  let lists := events (run_lists_mode W cfg ia la k) in
  let video := events (run_video_mode W cfg ia la k) in
  Forall saves_shape (image ++ lists ++ video)
  ∧ Forall (λ e, save_path e = None ∨ save_path e = la) image
  ∧ (la = None → Forall (λ e, is_save e = false) (image ++ lists ++ video)).
Proof.
  intros image lists video. subst image lists video.
  rewrite !Forall_app. split; [repeat split | split; [|intros ->; repeat split]].
  - apply (wp_only _ _ (λ _ _, True)). unfold run_image_mode.
    repeat wp_step; shape_cases.
  - eapply wp_only.
    apply (run_lists_mode_invariant W _ (λ _, True) (λ _ _, True) (λ _, True));
      [only_plumbing|done|done| |done].
    intros. unfold lists_body. cbv zeta. repeat wp_step; shape_cases.
  - eapply wp_only.
    apply (run_video_mode_invariant W _ (λ _, True) (λ _ _, True) (λ _, True));
      [only_plumbing|done|done| |done].
    intros. unfold video_body. cbv zeta. repeat wp_step; shape_cases.
  - apply (wp_only _ _ (λ _ _, True)). unfold run_image_mode.
    repeat wp_step; simpl; auto.
  - apply (wp_only _ _ (λ _ _, True)). unfold run_image_mode.
    repeat wp_step; done.
  - eapply wp_only.
    apply (run_lists_mode_invariant W _ (λ _, True) (λ _ _, True) (λ _, True));
      [only_plumbing|done|done| |done].
    intros. unfold lists_body. cbv zeta. repeat wp_step; done.
  - eapply wp_only.
    apply (run_video_mode_invariant W _ (λ _, True) (λ _ _, True) (λ _, True));
      [only_plumbing|done|done| |done].
    intros. unfold video_body. cbv zeta. repeat wp_step; done.
Qed.

End Never.

(** ** The order of the images and of the frames *)

Lemma gathering_after {X} (f : Event → option X) tr : ∀ a b c,
  after (gathering f) (a, b, c) tr = (a ++ omap f tr, b ++ tracked tr, c ++ shown tr).
Proof.
  induction tr as [|e tr IH]; intros a b c; simpl; [by rewrite !app_nil_r|].
  rewrite IH. unfold tracked, shown. simpl.
  destruct (f e), e; simpl; by rewrite <- ?app_assoc.
Qed.

Lemma filter_cons_bool {A} (f : A → bool) x l :
  filter f (x :: l) = if f x then x :: filter f l else filter f l.
Proof.
  destruct (f x) eqn:Hf.
  - by rewrite filter_cons_True by (rewrite Hf; exact I).
  - by rewrite filter_cons_False by (rewrite Hf; simpl; auto).
Qed.

Section ListOrder.

Context {T P : Type} `{FaceTracker T P} (W : World).

Lemma lists_body_gathering cfg la params n p lit idx tracker a b c :
  wp (gathering loaded_image) (lists_body W cfg la params n p lit idx tracker)
     (λ o st,
        match load_grayscale_image W p with
        | None => st = (a ++ [p], b, c) ∧ ∀ v, o ≠ Ret v
        | Some (gray, image) =>
            st.1 = (a ++ [p], b ++ [gray]) ∧ (la = None → st.2 = c ++ [image])
        end) (a, b, c).
Proof.
  unfold lists_body. cbv zeta.
  repeat wp_step; try (split; [done | by intros ->]); try (by split).
Qed.

(** The images are loaded in list order; the loop stops at the first one
    that cannot be read. *)
Lemma lists_loop_gathering cfg la params n images :
  ∀ lit idx tracker a b c,
    wp (gathering loaded_image) (lists_loop W cfg la params n images lit idx tracker)
       (λ o st, ∃ pre,
          pre `prefix_of` images
          ∧ (∀ v, o = Ret v → pre = images)
          ∧ (∀ i p, pre !! i = Some p → load_grayscale_image W p = None →
                    Datatypes.S i = length pre)
          ∧ st.1.1 = a ++ pre
          ∧ st.1.2 = b ++ omap (gray_file W) pre
          ∧ (la = None → st.2 = c ++ omap (colour_file W) pre))
       (a, b, c).
Proof.
  induction images as [|p images IH]; intros lit idx tracker a b c; simpl.
  - wp_step. exists []. simpl. rewrite !app_nil_r. repeat split; try done.
  - wp_step. eapply wp_mono; [apply lists_body_gathering|].
    intros o [[a' b'] c'] Hbody.
    destruct (load_grayscale_image W p) as [[gray image]|] eqn:Hload.
    + simpl in Hbody. destruct Hbody as [[= -> ->] Hc'].
      assert (Hstop : ∃ pre, pre `prefix_of` p :: images
                ∧ (∀ i q, pre !! i = Some q → load_grayscale_image W q = None →
                          Datatypes.S i = length pre)
                ∧ a ++ [p] = a ++ pre
                ∧ b ++ [gray] = b ++ omap (gray_file W) pre
                ∧ (la = None → c' = c ++ omap (colour_file W) pre)).
      { exists [p]. split; [by apply prefix_cons, prefix_nil|].
        split; [intros [|i] q; [intros [= ->]; congruence | done]|].
        unfold gray_file, colour_file. simpl. rewrite Hload. simpl. by repeat split. }
      destruct o as [[[lit' idx'] tracker']|e|];
        [|destruct Hstop as (pre & ? & ? & ? & ? & ?); exists pre; by repeat split..].
      eapply wp_mono; [apply IH|].
      intros o [[a'' b''] c''] (pre & Hpre & Hret & Hlast & Ha & Hb & Hc). simpl in *.
      exists (p :: pre). split; [by apply prefix_cons|].
      split; [intros v Hv; f_equal; eauto|].
      split.
      { intros [|i] q; simpl.
        - intros [= ->]. congruence.
        - intros Hq Hnone. f_equal. eauto. }
      unfold gray_file, colour_file in *. simpl. rewrite Hload. simpl.
      rewrite Ha, Hb, <- !app_assoc. repeat split; try done.
      intros Hla. rewrite Hc, Hc' by done. by rewrite <- app_assoc.
    + destruct Hbody as [[= -> -> ->] Hnot].
      destruct o as [v| |]; [by destruct (Hnot v)| |].
      all: exists [p]; split; [by apply prefix_cons, prefix_nil|];
        split; [done|];
        split; [by intros [|i] q|];
        unfold gray_file, colour_file; simpl; rewrite Hload; simpl;
        rewrite !app_nil_r; by repeat split.
Qed.

(** X6.  List mode reads the image files in the order of the list, each
    at most once, and stops at the first one that cannot be read: the
    files read are a prefix of the list, the whole list when the run
    returns, and only the last file read can be an unreadable one.  Every
    file that was read is handed to the tracker once, as the gray image
    the reader gave; without a landmarks argument every one of them is
    displayed, as the image the reader left in its second argument. *)
Theorem list_images_are_processed_in_order_until_the_first_failure
    cfg il la images k :
  read_list W il = Some images →
  let r := run_lists_mode W cfg (Some il) la k in
  loaded_images (events r) `prefix_of` images
  ∧ (∀ v, outcome r = Ret v → loaded_images (events r) = images)
  ∧ (∀ i p, loaded_images (events r) !! i = Some p →
            load_grayscale_image W p = None →
            Datatypes.S i = length (loaded_images (events r)))
  ∧ tracked (events r) = omap (gray_file W) (loaded_images (events r))
  ∧ (la = None → shown (events r) = omap (colour_file W) (loaded_images (events r))).
Proof.
  intros Hread r.
  assert (Hwp : wp (gathering loaded_image) (run_lists_mode W cfg (Some il) la)
            (λ o st, ∃ pre,
               pre `prefix_of` images
               ∧ (∀ v, o = Ret v → pre = images)
               ∧ (∀ i p, pre !! i = Some p → load_grayscale_image W p = None →
                         Datatypes.S i = length pre)
               ∧ st.1.1 = pre
               ∧ st.1.2 = omap (gray_file W) pre
               ∧ (la = None → st.2 = omap (colour_file W) pre))
            ([], [], [])).
  { unfold run_lists_mode.
    repeat wp_step; simplify_eq;
      try (exists []; split; [apply prefix_nil | by repeat split]);
      (eapply wp_mono; [apply lists_loop_gathering|]);
      (intros o [[a b] c] (pre & Hpre & Hret & Hlast & Ha & Hb & Hc); simpl in *;
       destruct o as [v|e|]; [|exists pre; by repeat split..]);
      repeat wp_step; exists pre; simpl; repeat split; eauto. }
  pose proof (proj2 (Hwp k)) as Hq. fold r in Hq. clearbody r.
  destruct Hq as (pre & Hpre & Hret & Hlast & Ha & Hb & Hc).
  rewrite gathering_after in Ha, Hb, Hc. cbn [fst snd app] in Ha, Hb, Hc.
  unfold loaded_images. rewrite Ha, Hb. by repeat split.
Qed.

End ListOrder.

Lemma list_images_in_order_witness :
  let tracker := Fixture.scripted [(7, Fixture.five_points)] in
  let W := Fixture.world Fixture.no_key in
  let r := run_lists_mode (H := tracker) W (default_cfg (H := tracker))
             (Some "broken.txt"%string) None 0%nat in
  loaded_images (events r) = ["a.png"; "missing.png"]%string
  ∧ loaded_images (events r) `prefix_of` ["a.png"; "missing.png"; "c.png"]%string
  ∧ tracked (events r) = omap (gray_file W) (loaded_images (events r)).
Proof.
  intros tracker W r.
  pose proof (list_images_are_processed_in_order_until_the_first_failure
                (H := tracker) W (default_cfg (H := tracker))
                "broken.txt"%string None ["a.png"; "missing.png"; "c.png"]%string
                0%nat eq_refl) as (Hpre & _ & _ & Htr & _).
  split; [reflexivity|]. split; [exact Hpre | exact Htr].
Defined.

Section VideoOrder.

Context {T P : Type} `{FaceTracker T P} (W : World).

Lemma video_body_gathering cfg la params image n tracker a b c :
  wp (gathering pulled_frame) (video_body W cfg la params image n tracker)
     (λ o st,
        if supported image
        then st.1 = (a, b ++ [gray_of W image]) ∧ (la = None → st.2 = c ++ [image])
        else st = (a, b, c) ∧ ∀ v, o ≠ Ret v) (a, b, c).
Proof.
  unfold video_body, supported, gray_of. cbv zeta.
  repeat wp_step; simpl; try (split; [done | by intros ->]); try (by split).
Qed.

Lemma video_loop_gathering cfg la params input :
  ∀ n tracker a b c,
    wp (gathering pulled_frame) (video_loop W cfg la params input n tracker)
       (λ o st, ∃ frames,
          frames `prefix_of` live_prefix input ++ [terminator input]
          ∧ (∀ v, o = Ret v → frames = live_prefix input ++ [terminator input])
          ∧ (∀ i m, frames !! i = Some m → live m = true → supported m = false →
                    Datatypes.S i = length frames)
          ∧ st.1.1 = a ++ frames
          ∧ st.1.2 = b ++ (gray_of W <$> processed frames)
          ∧ (la = None → st.2 = c ++ processed frames))
       (a, b, c).
Proof.
  induction input as [|image input IH]; intros n tracker a b c; simpl.
  - wp_step. exists [empty_Mat]. simpl. rewrite !app_nil_r.
    split; [done|]. split; [done|]. split; [by intros [|i] m|]. by repeat split.
  - wp_step. wp_step. fold (live image). destruct (live image) eqn:Hlive.
    + wp_step. eapply wp_mono; [apply video_body_gathering|].
      intros o [[a' b'] c'] Hbody.
      destruct (supported image) eqn:Hsup.
      * simpl in Hbody. destruct Hbody as [[= -> ->] Hc'].
        assert (Hstop : ∃ frames,
                  frames `prefix_of` image :: live_prefix input ++ [terminator input]
                  ∧ (∀ i m, frames !! i = Some m → live m = true →
                            supported m = false → Datatypes.S i = length frames)
                  ∧ a ++ [image] = a ++ frames
                  ∧ b ++ [gray_of W image] = b ++ (gray_of W <$> processed frames)
                  ∧ (la = None → c' = c ++ processed frames)).
        { exists [image]. split; [by apply prefix_cons, prefix_nil|].
          split; [intros [|i] m; [intros [= ->]; congruence | done]|].
          unfold processed. rewrite !filter_cons_bool, Hlive.
          rewrite filter_cons_bool, Hsup. by repeat split. }
        destruct o as [tracker'|e|];
          [|destruct Hstop as (fr & ? & ? & ? & ? & ?); exists fr; by repeat split..].
        eapply wp_mono; [apply IH|].
        intros o [[a'' b''] c''] (fr & Hpre & Hret & Hlast & Ha & Hb & Hc). simpl in *.
        exists (image :: fr). split; [by apply prefix_cons|].
        split; [intros v Hv; f_equal; eauto|].
        split.
        { intros [|i] m; simpl.
          - intros [= ->]. congruence.
          - intros Hm Hl Hs. f_equal. eauto. }
        unfold processed in *. rewrite !filter_cons_bool, Hlive.
        rewrite filter_cons_bool, Hsup. simpl.
        rewrite Ha, Hb, <- !app_assoc. repeat split; try done.
        intros Hla. rewrite Hc, Hc' by done. by rewrite <- app_assoc.
      * destruct Hbody as [[= -> -> ->] Hnot].
        destruct o as [v| |]; [by destruct (Hnot v)| |].
        all: exists [image]; split; [by apply prefix_cons, prefix_nil|];
          split; [done|];
          split; [by intros [|i] m|];
          unfold processed; rewrite !filter_cons_bool, Hlive;
          rewrite filter_cons_bool, Hsup; simpl;
          rewrite !app_nil_r; by repeat split.
    + wp_step. exists [image]. unfold processed. rewrite filter_cons_bool, Hlive. simpl.
      rewrite !app_nil_r. split; [done|]. split; [done|].
      split; [|by repeat split].
      intros [|i] m; [|done]. intros [= ->]. congruence.
Qed.


(** X7.  Video mode pulls the frames in stream order and stops at the
    first frame without rows or columns, at the first frame of an
    unsupported type, or when a display is cancelled: the frames pulled
    are a prefix of the stream up to its first empty frame (all of it when
    the run returns), and only the last frame pulled can be one of
    positive size and unsupported type.  Every frame pulled with positive
    size and a supported type is handed to the tracker once (converted to
    gray when it has three channels); without a landmarks argument each
    of them is displayed, as it was pulled. *)
Theorem video_frames_are_processed_in_order_until_the_first_failure
    cfg v la input k :
  VideoCapture W v = Some input →
  let r := run_video_mode W cfg (Some v) la k in
  pulled (events r) `prefix_of` live_prefix input ++ [terminator input]
  ∧ (∀ x, outcome r = Ret x →
          pulled (events r) = live_prefix input ++ [terminator input])
  ∧ (∀ i m, pulled (events r) !! i = Some m → live m = true → supported m = false →
            Datatypes.S i = length (pulled (events r)))
  ∧ tracked (events r) = gray_of W <$> processed (pulled (events r))
  ∧ (la = None → shown (events r) = processed (pulled (events r))).
Proof.
  intros Hopen r.
  assert (Hwp : wp (gathering pulled_frame) (run_video_mode W cfg (Some v) la)
            (λ o st, ∃ frames,
               frames `prefix_of` live_prefix input ++ [terminator input]
               ∧ (∀ x, o = Ret x → frames = live_prefix input ++ [terminator input])
               ∧ (∀ i m, frames !! i = Some m → live m = true → supported m = false →
                         Datatypes.S i = length frames)
               ∧ st.1.1 = frames
               ∧ st.1.2 = gray_of W <$> processed frames
               ∧ (la = None → st.2 = processed frames))
            ([], [], [])).
  { unfold run_video_mode.
    repeat wp_step; simplify_eq;
      (eapply wp_mono; [apply video_loop_gathering|]);
      (intros o [[a b] c] (fr & Hpre & Hret & Hlast & Ha & Hb & Hc); simpl in *;
       destruct o as [x|e|]; [|exists fr; by repeat split..]);
      repeat wp_step; exists fr; simpl; repeat split; eauto. }
  pose proof (proj2 (Hwp k)) as Hq. fold r in Hq. clearbody r.
  destruct Hq as (fr & Hpre & Hret & Hlast & Ha & Hb & Hc).
  rewrite gathering_after in Ha, Hb, Hc. cbn [fst snd app] in Ha, Hb, Hc.
  unfold pulled. rewrite Ha, Hb. by repeat split.
Qed.

End VideoOrder.

Lemma video_frames_in_order_witness :
  let tracker := Fixture.scripted [(7, Fixture.five_points)] in
  let W := Fixture.world Fixture.no_key in
  let r := run_video_mode (H := tracker) W (default_cfg (H := tracker))
             (Some "odd.avi"%string) None 0%nat in
  pulled (events r) = [Fixture.colour_frame 1; Fixture.four_channel_frame 2]
  ∧ tracked (events r) = gray_of W <$> processed (pulled (events r))
  ∧ shown (events r) = processed (pulled (events r)).
Proof.
  intros tracker W r.
  pose proof (video_frames_are_processed_in_order_until_the_first_failure
                (H := tracker) W (default_cfg (H := tracker)) "odd.avi"%string None
                [Fixture.colour_frame 1; Fixture.four_channel_frame 2;
                 Fixture.colour_frame 3] 0%nat eq_refl) as (_ & _ & _ & Htr & Hsh).
  split; [reflexivity|]. split; [exact Htr | exact (Hsh eq_refl)].
Defined.

Lemma filter_nil_Forall (f : Event → bool) tr :
  Forall (λ e, f e = false) tr → filter f tr = [].
Proof.
  induction 1 as [|e tr He _ IH]; [done|].
  by rewrite filter_cons_False by (rewrite He; simpl; auto).
Qed.

(** ** Cold start and continuation *)

Lemma cold_started_tracked tr :
  Forall (λ e, is_track e = false) tr → omap cold_started tr = tracked tr.
Proof.
  unfold tracked. induction 1 as [|e tr He _ IH]; [done|].
  change (omap cold_started (e :: tr))
    with (match cold_started e with
          | Some g => g :: omap cold_started tr | None => omap cold_started tr end).
  change (omap tracked_frame (e :: tr))
    with (match tracked_frame e with
          | Some g => g :: omap tracked_frame tr | None => omap tracked_frame tr end).
  rewrite IH. by destruct e.
Qed.

Lemma continued_tracked tr :
  Forall (λ e, is_new_frame e = false) tr → omap continued tr = tracked tr.
Proof.
  unfold tracked. induction 1 as [|e tr He _ IH]; [done|].
  change (omap continued (e :: tr))
    with (match continued e with
          | Some g => g :: omap continued tr | None => omap continued tr end).
  change (omap tracked_frame (e :: tr))
    with (match tracked_frame e with
          | Some g => g :: omap tracked_frame tr | None => omap tracked_frame tr end).
  rewrite IH. by destruct e.
Qed.

Section Starts.

Context {T P : Type} `{FaceTracker T P} (W : World).

Lemma run_image_mode_gathering cfg ia la :
  wp (gathering loaded_image) (run_image_mode W cfg ia la)
     (λ _ st, st.1.2 = omap (gray_file W) st.1.1 ∧ st.1.1 = option_list ia)
     ([], [], []).
Proof.
  unfold run_image_mode, gray_file.
  repeat wp_step; simpl;
    repeat match goal with
           | Hload : load_grayscale_image _ _ = _ |- _ => rewrite Hload
           end; simpl; by simplify_eq.
Qed.

Lemma run_lists_mode_gathering cfg ia la :
  wp (gathering loaded_image) (run_lists_mode W cfg ia la)
     (λ _ st, st.1.2 = omap (gray_file W) st.1.1) ([], [], []).
Proof.
  unfold run_lists_mode.
  repeat wp_step; try done;
    (eapply wp_mono; [apply lists_loop_gathering|]);
    (intros o [[a b] c] (pre & _ & _ & _ & Ha & Hb & _); simpl in *; subst a b;
     destruct o; [|done..]);
    repeat wp_step; done.
Qed.

Lemma run_video_mode_gathering cfg ia la :
  wp (gathering pulled_frame) (run_video_mode W cfg ia la)
     (λ _ st, st.1.2 = gray_of W <$> processed st.1.1) ([], [], []).
Proof.
  unfold run_video_mode.
  repeat wp_step; try done;
    (eapply wp_mono; [apply video_loop_gathering|]);
    (intros o [[a b] c] (fr & _ & _ & _ & Ha & Hb & _); simpl in *; subst a b;
     destruct o; [|done..]);
    repeat wp_step; done.
Qed.

(** X4.  Image mode and list mode start the tracker cold on every image:
    each image file that was read is handed to [NewFrame] exactly once,
    in the order of reading, and no other call of [NewFrame] and no
    continuation call [Track] is made; image mode reads exactly the file
    of its image argument.  Video mode makes the continuation call on
    every frame, the first one included: each frame pulled with positive
    size and a supported type is handed to [Track] exactly once, in
    stream order (converted to gray when it has three channels), and
    [NewFrame] is never called. *)
Theorem cold_start_in_image_and_list_mode_continuation_in_video_mode cfg ia la k :
  let image := events (run_image_mode W cfg ia la k) in
  let lists := events (run_lists_mode W cfg ia la k) in
  let video := events (run_video_mode W cfg ia la k) in
  (omap cold_started image = omap (gray_file W) (loaded_images image)
   ∧ loaded_images image = option_list ia
   ∧ Forall (λ e, is_track e = false) image)
  ∧ (omap cold_started lists = omap (gray_file W) (loaded_images lists)
     ∧ Forall (λ e, is_track e = false) lists)
  ∧ (omap continued video = gray_of W <$> processed (pulled video)
     ∧ Forall (λ e, is_new_frame e = false) video).
Proof.
  intros image lists video.
  assert (Himage : Forall (λ e, is_track e = false) image).
  { apply (wp_only _ _ (λ _ _, True)). unfold run_image_mode. repeat wp_step; done. }
  assert (Hlists : Forall (λ e, is_track e = false) lists).
  { eapply wp_only.
    apply (run_lists_mode_invariant W _ (λ _, True) (λ _ _, True) (λ _, True));
      [only_plumbing|done|done| |done].
    intros. unfold lists_body. cbv zeta. repeat wp_step; done. }
  assert (Hvideo : Forall (λ e, is_new_frame e = false) video).
  { eapply wp_only.
    apply (run_video_mode_invariant W _ (λ _, True) (λ _ _, True) (λ _, True));
      [only_plumbing|done|done| |done].
    intros. unfold video_body. cbv zeta. repeat wp_step; done. }
  split; [|split].
  - destruct (run_image_mode_gathering cfg ia la k) as [_ [Ht Hl]].
    rewrite gathering_after in Ht, Hl. cbn [fst snd app] in Ht, Hl.
    rewrite cold_started_tracked by done. by split.
  - destruct (run_lists_mode_gathering cfg ia la k) as [_ Ht].
    rewrite gathering_after in Ht. cbn [fst snd app] in Ht.
    by rewrite cold_started_tracked.
  - destruct (run_video_mode_gathering cfg ia la k) as [_ Ht].
    rewrite gathering_after in Ht. cbn [fst snd app] in Ht.
    by rewrite continued_tracked.
Qed.

End Starts.

Lemma cold_start_witness :
  let tracker := Fixture.scripted [(7, Fixture.five_points)] in
  let W := Fixture.world Fixture.no_key in
  let r := run_video_mode (H := tracker) W (default_cfg (H := tracker))
             (Some "clip.avi"%string) None 0%nat in
  omap continued (events r) = gray_of W <$> processed (pulled (events r))
  ∧ length (omap continued (events r)) = 4%nat.
Proof.
  intros tracker W r.
  split; [|vm_compute; reflexivity].
  exact (proj1 (proj2 (proj2
           (cold_start_in_image_and_list_mode_continuation_in_video_mode
              (H := tracker) W (default_cfg (H := tracker))
              (Some "clip.avi"%string) None 0%nat)))).
Defined.

(** ** Cancelling, and the two output streams *)

Section Streams.

Context {T P : Type} `{FaceTracker T P} (W : World).

Lemma lists_body_hidden cfg la params n p lit idx tracker st :
  have_argument_p la = true → verbose cfg = false →
  wp (only hidden) (lists_body W cfg la params n p lit idx tracker)
     (ending always not_escape always) st.
Proof.
  intros Hla Hv. unfold lists_body. cbv zeta. rewrite Hla, Hv. simpl.
  repeat wp_step; done.
Qed.

Lemma video_body_hidden cfg la params image n tracker st :
  have_argument_p la = true → verbose cfg = false →
  wp (only hidden) (video_body W cfg la params image n tracker)
     (ending always not_escape always) st.
Proof.
  intros Hla Hv. unfold video_body. cbv zeta. rewrite Hla, Hv. simpl.
  repeat wp_step; done.
Qed.

Lemma run_image_mode_hidden cfg ia la st :
  have_argument_p la = true →
  wp (only hidden) (run_image_mode W cfg ia la) (ending always not_escape always) st.
Proof.
  intros Hla. unfold run_image_mode. rewrite Hla. simpl.
  repeat wp_step; done.
Qed.

(** X8.  A run that was given a landmarks argument and is not verbose
    opens no window and reads no key, so it cannot be cancelled: its
    exit status is never 1.  In image mode this holds with [--verbose]
    too. *)
Theorem a_run_that_only_writes_shows_nothing_and_cannot_be_cancelled args k l :
  outcome (argument_loop W args None None false false false default_cfg k)
  = Ret (Some l) →
  have_argument_p (landmarks_argument l) = true →
  verbose (cfg l) = false ∨ (lists_mode l = false ∧ video_mode l = false) →
  Forall hidden (events (main W args k)) ∧ outcome (main W args k) ≠ Ret 1.
Proof.
  intros Hl Hla Hmode.
  assert (Hrun : wp (only hidden) (λ _, run_program W args k)
                   (ending always not_escape always) tt).
  { intros _. rewrite (run_program_dispatch W args k l Hl).
    destruct (have_argument_p (image_argument l)); cbn [negb].
    2:{ by apply (wp_bind _ print_usage); repeat wp_step. }
    destruct (lists_mode l) eqn:Hlm, (video_mode l) eqn:Hvm; cbn [andb];
      lazymatch goal with
      | |- context [run_lists_mode] =>
          apply (run_lists_mode_invariant W _ always not_escape always);
            [only_plumbing | done | done | | done];
            intros; apply lists_body_hidden; [done|];
            destruct Hmode as [Hv|[? ?]]; [|done];
            by destruct (wait_time_specified l)
      | |- context [run_video_mode] =>
          apply (run_video_mode_invariant W _ always not_escape always);
            [only_plumbing | done | done | | done];
            intros; apply video_body_hidden; [done|];
            destruct Hmode as [Hv|[? ?]]; [|done];
            by destruct (wait_time_specified l)
      | |- context [run_image_mode] => by apply run_image_mode_hidden
      | |- _ => by apply (wp_throw (only hidden))
      end. }
  destruct (Hrun k) as [Ha Ho]. apply only_admits in Ha.
  pose proof (main_cases W args k) as Hm.
  pose proof (proj2 (run_program_returns_0 W args k)) as Hzero.
  destruct (outcome (run_program W args k)) as [v|[|what]|] eqn:Hout; simpl in Ho.
  - rewrite Hm, Hout. split; [done|]. intros [= ->]. by specialize (Hzero _ eq_refl).
  - done.
  - destruct Hm as [-> ->]. split; [|done].
    apply Forall_app. split; [done|]. by repeat constructor.
  - rewrite Hm, Hout. by split.
Qed.

(** X9.  [run_program] and the mode drivers never write to the error
    stream; [main] writes to it exactly when the exit status is 2.  The
    stream then holds the one line that reports the exception, and in
    every other run it stays empty. *)
Theorem the_error_stream_is_written_exactly_on_exit_2 args k :
  let r := main W args k in
  filter is_stderr (events (run_program W args k)) = []
  ∧ (outcome r = Ret 2
     ↔ ∃ what, filter is_stderr (events r)
               = [EvStderr ("Caught unhandled exception: " +:+ what +:+ LF)])
  ∧ (outcome r ≠ Ret 2 → filter is_stderr (events r) = []).
Proof.
  intros r. subst r.
  assert (Hquiet : filter is_stderr (events (run_program W args k)) = []).
  { apply filter_nil_Forall. eapply wp_only.
    apply (run_program_invariant W (only (λ e, is_stderr e = false))
             (λ _, True) (λ _ _, True) (λ _, True)); try done.
    - only_plumbing.
    - intros. unfold run_image_mode. repeat wp_step; done.
    - intros. unfold lists_body. cbv zeta. repeat wp_step; done.
    - intros. unfold video_body. cbv zeta. repeat wp_step; done. }
  split; [done|].
  pose proof (main_cases W args k) as Hm.
  pose proof (proj2 (run_program_returns_0 W args k)) as Hzero.
  destruct (outcome (run_program W args k)) as [v|[|what]|] eqn:Hout.
  - rewrite Hm, Hout, Hquiet. specialize (Hzero _ eq_refl). subst v.
    repeat split; try done. by intros [what Hw].
  - destruct Hm as [-> ->]. rewrite filter_app, Hquiet.
    repeat split; try done. by intros [what Hw].
  - destruct Hm as [-> ->]. rewrite filter_app, Hquiet.
    repeat split; try done. by exists what.
  - rewrite Hm, Hout, Hquiet. repeat split; try done. by intros [what Hw].
Qed.

End Streams.

Lemma only_writes_witness :
  let tracker := Fixture.scripted [(7, Fixture.five_points)] in
  let W := Fixture.world (Fixture.escape_at 0) in
  let args := ["--lists"; "images.txt"; "points.txt"]%string in
  Forall hidden (events (main (H := tracker) W args 0%nat))
  ∧ outcome (main (H := tracker) W args 0%nat) ≠ Ret 1.
Proof.
  intros tracker W args.
  exact (a_run_that_only_writes_shows_nothing_and_cannot_be_cancelled
           (H := tracker) W args 0%nat
           {| image_argument := Some "images.txt"%string;
              landmarks_argument := Some "points.txt"%string;
              lists_mode := true; video_mode := false; wait_time_specified := false;
              cfg := default_cfg (H := tracker) |}
           eq_refl eq_refl (or_introl eq_refl)).
Defined.

(** ** The life cycle of the tracker *)

Lemma lifecycle_released cfg tr : admits (lifecycle cfg) Released tr → tr = [].
Proof. destruct tr as [|e tr]; [done|]. by intros [[] _]. Qed.

Lemma lifecycle_deleting cfg tr :
  admits (lifecycle cfg) Deleting tr →
  (tr = [] ∧ after (lifecycle cfg) Deleting tr = Deleting)
  ∨ (tr = [EvDelete] ∧ after (lifecycle cfg) Deleting tr = Released).
Proof.
  destruct tr as [|e tr]; [by left|]. intros [He Ha]. right.
  destruct e; try done. simpl in Ha. apply lifecycle_released in Ha. by subst tr.
Qed.

Lemma lifecycle_running cfg tr :
  admits (lifecycle cfg) Running tr →
  match after (lifecycle cfg) Running tr with
  | Running => Forall (λ e, is_load e = false ∧ is_delete e = false) tr
  | Released =>
      ∃ mid, Forall (λ e, is_load e = false ∧ is_delete e = false) mid
             ∧ tr = mid ++ [EvDelete; EvDelete]
  | Deleting => True
  | Fresh | HasTracker => False
  end.
Proof.
  induction tr as [|e tr IH]; [by constructor|].
  intros [He Ha].
  destruct (is_delete e) eqn:Hdel.
  - destruct e; try done. simpl in *.
    destruct (lifecycle_deleting cfg tr Ha) as [[-> ->]|[-> ->]]; [done|].
    by exists [].
  - assert (Hstep : (lifecycle cfg Running e).2 = Running) by by destruct e.
    assert (Hload : is_load e = false) by by destruct e.
    simpl in *. rewrite Hstep in *. specialize (IH Ha).
    destruct (after (lifecycle cfg) Running tr); try done.
    + by constructor.
    + destruct IH as (mid & Hmid & ->). exists (e :: mid). split; [by constructor|done].
Qed.

Section LifeCycle.

Context {T P : Type} `{FaceTracker T P} (W : World).

Lemma lists_body_lifecycle cfg la params n p lit idx tracker :
  wp (lifecycle cfg) (lists_body W cfg la params n p lit idx tracker)
     (ending running (λ _, running) running) Running.
Proof. unfold lists_body. cbv zeta. repeat wp_step; done. Qed.

Lemma video_body_lifecycle cfg la params image n tracker :
  wp (lifecycle cfg) (video_body W cfg la params image n tracker)
     (ending running (λ _, running) running) Running.
Proof. unfold video_body. cbv zeta. repeat wp_step; done. Qed.

Lemma run_lists_mode_lifecycle cfg ia la :
  wp (lifecycle cfg) (run_lists_mode W cfg ia la) ended Fresh.
Proof.
  unfold run_lists_mode.
  repeat wp_step; try done;
    (eapply wp_mono;
     [apply (lists_loop_invariant W _ running (λ _, running) running);
      [intros ? ? ? ? ? ->; apply lists_body_lifecycle | done]|]);
    (intros o st Hst; destruct o; simpl in Hst; try done);
    rewrite Hst; repeat wp_step; done.
Qed.

Lemma run_video_mode_lifecycle cfg ia la :
  wp (lifecycle cfg) (run_video_mode W cfg ia la) ended Fresh.
Proof.
  unfold run_video_mode.
  repeat wp_step; try done;
    (eapply wp_mono;
     [apply (video_loop_invariant W _ running (λ _, running) running);
      [intros ? ? ? ? ->; apply video_body_lifecycle | by intros ? ? -> | done]|]);
    (intros o st Hst; destruct o; simpl in Hst; try done);
    rewrite Hst; repeat wp_step; done.
Qed.

Lemma run_image_mode_lifecycle cfg ia la :
  wp (lifecycle cfg) (run_image_mode W cfg ia la) ended Fresh.
Proof. unfold run_image_mode. repeat wp_step; done. Qed.

Lemma lifecycle_shape {A} cfg (m : M A) k :
  wp (lifecycle cfg) m ended Fresh → loads_first_deletes_on_return cfg (m k).
Proof.
  intros Hwp. destruct (Hwp k) as [Ha Hend]. unfold ended in Hend.
  unfold loads_first_deletes_on_return.
  destruct (events (m k)) as [|e1 [|e2 tr]].
  - simpl in Hend. by destruct (outcome (m k)).
  - destruct Ha as [He1 _]. destruct e1; try done. simpl in Hend.
    by destruct (outcome (m k)).
  - destruct Ha as (He1 & He2 & Ha).
    destruct e1; try done. simpl in He1, He2, Ha, Hend. subst pathname.
    destruct e2; try done. simpl in He2, Ha, Hend. subst pathname.
    pose proof (lifecycle_running cfg tr Ha) as Hrun. rewrite Hend in Hrun.
    destruct (outcome (m k)).
    + destruct Hrun as (mid & Hmid & ->). by exists mid.
    + exists tr. by rewrite app_nil_r.
    + exists tr. by rewrite app_nil_r.
Qed.

(** X10.  Every mode driver begins by loading the tracker from the
    configured model pathname and then the parameters from the
    configured parameters pathname, before it touches its input, and
    loads nothing afterwards.  It deletes the two objects as its last
    two actions when it returns; when it ends with an exception (a
    failure or a cancelled display) it deletes nothing. *)
Theorem tracker_is_loaded_first_and_deleted_only_on_return cfg ia la k :
  loads_first_deletes_on_return cfg (run_image_mode W cfg ia la k)
  ∧ loads_first_deletes_on_return cfg (run_lists_mode W cfg ia la k)
  ∧ loads_first_deletes_on_return cfg (run_video_mode W cfg ia la k).
Proof.
  split; [|split]; apply lifecycle_shape.
  - apply run_image_mode_lifecycle.
  - apply run_lists_mode_lifecycle.
  - apply run_video_mode_lifecycle.
Qed.

End LifeCycle.

(** ** Defined behaviour *)


Section Defined.

Context {T P : Type} `{FaceTracker T P} (W : World).









End Defined.


(** A wait time beyond the range of the delay, and a template that
    [snprintf] is not defined on, each leave the behaviour undefined. *)
Example undefined_behaviour :
  let tracker := Fixture.scripted [(7, Fixture.five_points)] in
  let W := Fixture.world Fixture.no_key in
  outcome (run_image_mode (H := tracker) W
             (set_wait_time (default_cfg (H := tracker)) (double_of_int 3000000))
             (Some "a.png"%string) None 0%nat) = Undefined
  ∧ outcome (main (H := tracker) W ["--video"; "clip.avi"; "f%s.pts"]%string 0%nat)
    = Undefined.
Proof. split; vm_compute; reflexivity. Qed.

(** ** Conflicting switches and empty inputs *)

Section Edges.

Context {T P : Type} `{FaceTracker T P} (W : World).

(** X12.  When the command line has an input argument and both
    [--lists] and [--video] were given, in any order and whatever the
    other options, the program reports the conflict on the error stream
    and exits with status 2 without loading the tracker or touching the
    input: that report is the only event of the run. *)
Theorem lists_and_video_together_fail_before_anything_is_loaded args k l :
  outcome (argument_loop W args None None false false false default_cfg k)
  = Ret (Some l) →
  have_argument_p (image_argument l) = true →
  lists_mode l = true → video_mode l = true →
  main W args k
  = mkRun (Ret 2)
      [EvStderr ("Caught unhandled exception: "
                 +:+ "The operator is confused as the switches --lists and --video are present on the command line."
                 +:+ LF)] k.
Proof.
  intros Hl Hia Hlm Hvm. unfold main, try_catch.
  rewrite (run_program_dispatch W args k l Hl), Hia, Hlm, Hvm. reflexivity.
Qed.

(** X13.  Empty inputs are not an error.  List mode on an empty image
    list (with no landmarks list, or with an empty one) and video mode
    on a video whose first frame has no rows or no columns load the
    tracker, read the lists or pull that one frame, delete the tracker
    and return 0: no frame is processed. *)
Theorem empty_inputs_return_0_without_processing_a_frame cfg k :
  (∀ il, read_list W il = Some [] →
     let r := run_lists_mode W cfg (Some il) None k in
     outcome r = Ret 0
     ∧ events r = [EvLoadFaceTracker (model_pathname cfg);
                   EvLoadFaceTrackerParams (params_pathname cfg);
                   EvReadList il; EvDelete; EvDelete])
  ∧ (∀ il ll, read_list W il = Some [] → read_list W ll = Some [] →
       let r := run_lists_mode W cfg (Some il) (Some ll) k in
       outcome r = Ret 0
       ∧ events r = [EvLoadFaceTracker (model_pathname cfg);
                     EvLoadFaceTrackerParams (params_pathname cfg);
                     EvReadList il; EvReadList ll; EvDelete; EvDelete])
  ∧ (∀ v la input, VideoCapture W v = Some input → live_prefix input = [] →
       let r := run_video_mode W cfg (Some v) la k in
       outcome r = Ret 0
       ∧ events r = [EvLoadFaceTracker (model_pathname cfg);
                     EvLoadFaceTrackerParams (params_pathname cfg);
                     EvOpenVideo v; EvNextFrame (terminator input);
                     EvDelete; EvDelete]).
Proof.
  split; [|split].
  - intros il Hil r.
    assert (Hwp : wp (collecting Some) (run_lists_mode W cfg (Some il) None)
              (λ o l, o = Ret 0
                      ∧ l = [EvLoadFaceTracker (model_pathname cfg);
                             EvLoadFaceTrackerParams (params_pathname cfg);
                             EvReadList il; EvDelete; EvDelete]) []).
    { unfold run_lists_mode.
      repeat wp_step; simplify_eq; simpl lists_loop; repeat wp_step; done. }
    destruct (Hwp k) as [_ [Ho He]]. rewrite collecting_after, omap_Some in He. done.
  - intros il ll Hil Hll r.
    assert (Hwp : wp (collecting Some) (run_lists_mode W cfg (Some il) (Some ll))
              (λ o l, o = Ret 0
                      ∧ l = [EvLoadFaceTracker (model_pathname cfg);
                             EvLoadFaceTrackerParams (params_pathname cfg);
                             EvReadList il; EvReadList ll; EvDelete; EvDelete]) []).
    { unfold run_lists_mode.
      repeat wp_step; simplify_eq; simpl lists_loop; repeat wp_step; done. }
    destruct (Hwp k) as [_ [Ho He]]. rewrite collecting_after, omap_Some in He. done.
  - intros v la input Hv Hlive r.
    assert (Hwp : wp (collecting Some) (run_video_mode W cfg (Some v) la)
              (λ o l, o = Ret 0
                      ∧ l = [EvLoadFaceTracker (model_pathname cfg);
                             EvLoadFaceTrackerParams (params_pathname cfg);
                             EvOpenVideo v; EvNextFrame (terminator input);
                             EvDelete; EvDelete]) []).
    { unfold run_video_mode.
      repeat wp_step; simplify_eq.
      destruct input as [|image input]; simpl in *.
      - repeat wp_step; done.
      - unfold live in Hlive. destruct (_ && _) eqn:Hl; [done|].
        repeat wp_step. unfold live. by rewrite Hl. }
    destruct (Hwp k) as [_ [Ho He]]. rewrite collecting_after, omap_Some in He. done.
Qed.

End Edges.

Lemma conflict_witness :
  let tracker := Fixture.scripted [] in
  let W := Fixture.world Fixture.no_key in
  outcome (main (H := tracker) W
             ["--video"; "--verbose"; "clip.avi"; "--lists"]%string 0%nat) = Ret 2.
Proof.
  intros tracker W.
  by rewrite (lists_and_video_together_fail_before_anything_is_loaded (H := tracker) W
                ["--video"; "--verbose"; "clip.avi"; "--lists"]%string 0%nat
                {| image_argument := Some "clip.avi"%string; landmarks_argument := None;
                   lists_mode := true; video_mode := true; wait_time_specified := false;
                   cfg := set_verbose (default_cfg (H := tracker)) true |}
                eq_refl eq_refl eq_refl eq_refl).
Defined.

Lemma empty_inputs_witness :
  let tracker := Fixture.scripted [] in
  let W := {| read_list := λ _, Some [];
              load_grayscale_image := λ _, None;
              VideoCapture := λ _, Some [empty_Mat; Fixture.gray_frame 1];
              cvtColor_BGR2GRAY := λ m, m;
              waitKey := λ _ _, -1;
              read_int := λ _, None;
              read_double := λ _, None;
              snprintf_beyond := λ _ _ _, None |} in
  let cfg := default_cfg (H := tracker) in
  outcome (run_lists_mode (H := tracker) W cfg (Some "none.txt"%string) None 0%nat)
  = Ret 0
  ∧ outcome (run_lists_mode (H := tracker) W cfg (Some "none.txt"%string)
               (Some "out.txt"%string) 0%nat) = Ret 0
  ∧ events (run_video_mode (H := tracker) W cfg (Some "still.avi"%string) None 0%nat)
    = [EvLoadFaceTracker (model_pathname cfg);
       EvLoadFaceTrackerParams (params_pathname cfg);
       EvOpenVideo "still.avi"; EvNextFrame empty_Mat; EvDelete; EvDelete].
Proof.
  intros tracker W cfg.
  pose proof (empty_inputs_return_0_without_processing_a_frame (H := tracker) W cfg 0%nat)
    as (Hl & Hll & Hv).
  split; [exact (proj1 (Hl "none.txt"%string eq_refl))|].
  split; [exact (proj1 (Hll "none.txt"%string "out.txt"%string eq_refl eq_refl))|].
  exact (proj2 (Hv "still.avi"%string None [empty_Mat; Fixture.gray_frame 1]
                  eq_refl eq_refl)).
Defined.

(** ** The progress lines *)

Lemma reporting_after {X} (f : Event → option X) tr : ∀ a b,
  after (reporting f) (a, b) tr = (a ++ omap stdout_text tr, b ++ omap f tr).
Proof.
  induction tr as [|e tr IH]; intros a b; simpl; [by rewrite !app_nil_r|].
  rewrite IH. destruct (stdout_text e), (f e); simpl; by rewrite <- ?app_assoc.
Qed.

Section Progress.

Context {T P : Type} `{FaceTracker T P} (W : World).

Lemma lists_body_reporting cfg la params n p lit idx tracker a b :
  double_is_zero (wait_time cfg) = false →
  wp (reporting loaded_image) (lists_body W cfg la params n p lit idx tracker)
     (λ o st, st = (a ++ (if verbose cfg then [image_line idx n] else []), b ++ [p])
              ∧ ∀ v, o = Ret v → v.1.2 = int_wrap (idx + 1))
     (a, b).
Proof.
  intros Hwait. unfold lists_body. cbv zeta.
  repeat wp_step; try congruence; simpl; rewrite ?app_nil_r;
    (split; [done|]); intros v Hv; by simplify_eq.
Qed.

Lemma lists_loop_reporting cfg la params n images :
  double_is_zero (wait_time cfg) = false →
  ∀ lit idx tracker a b,
    wp (reporting loaded_image) (lists_loop W cfg la params n images lit idx tracker)
       (λ o st, ∃ pre,
          st = (a ++ (if verbose cfg
                      then (λ i, image_line i n) <$> frame_numbers idx (length pre)
                      else []),
                b ++ pre))
       (a, b).
Proof.
  intros Hwait.
  induction images as [|p images IH]; intros lit idx tracker a b; simpl.
  - wp_step. exists []. simpl. by destruct (verbose cfg); rewrite !app_nil_r.
  - wp_step. eapply wp_mono; [by apply lists_body_reporting|].
    intros o st [-> Hidx].
    assert (Hone : ∃ pre,
              (a ++ (if verbose cfg then [image_line idx n] else []), b ++ [p])
              = (a ++ (if verbose cfg
                       then (λ i, image_line i n) <$> frame_numbers idx (length pre)
                       else []),
                 b ++ pre)).
    { by exists [p]. }
    destruct o as [[[lit' idx'] tracker']|e|]; [|done..].
    specialize (Hidx _ eq_refl). simpl in Hidx. subst idx'.
    eapply wp_mono; [apply IH|].
    intros o st [pre ->]. exists (p :: pre). simpl.
    destruct (verbose cfg); by rewrite <- !app_assoc.
Qed.

Lemma video_body_reporting cfg la params image n tracker a b :
  double_is_zero (wait_time cfg) = false →
  wp (reporting pulled_frame) (video_body W cfg la params image n tracker)
     (λ o st, st = (a ++ (if verbose cfg then [frame_line n] else []), b))
     (a, b).
Proof.
  intros Hwait. unfold video_body. cbv zeta.
  repeat wp_step; try congruence; simpl; by rewrite ?app_nil_r.
Qed.

Lemma video_loop_reporting cfg la params input :
  double_is_zero (wait_time cfg) = false →
  ∀ n tracker a b,
    wp (reporting pulled_frame) (video_loop W cfg la params input n tracker)
       (λ o st, ∃ pre last,
          Forall (λ m, live m = true) pre ∧ Forall (λ m, live m = false) last
          ∧ st = (a ++ (if verbose cfg
                        then frame_line <$> frame_numbers n (length pre)
                        else []),
                  b ++ pre ++ last))
       (a, b).
Proof.
  intros Hwait.
  induction input as [|image input IH]; intros n tracker a b; simpl.
  - wp_step. exists [], [empty_Mat]. simpl.
    split; [done|]. split; [by repeat constructor|].
    by destruct (verbose cfg); rewrite !app_nil_r.
  - wp_step. wp_step. fold (live image). destruct (live image) eqn:Hlive.
    + wp_step. eapply wp_mono; [by apply video_body_reporting|].
      intros o st ->.
      assert (Hone : ∃ pre last,
                Forall (λ m, live m = true) pre ∧ Forall (λ m, live m = false) last
                ∧ (a ++ (if verbose cfg then [frame_line n] else []), b ++ [image])
                  = (a ++ (if verbose cfg
                           then frame_line <$> frame_numbers n (length pre)
                           else []),
                     b ++ pre ++ last)).
      { exists [image], []. by repeat split; repeat constructor. }
      destruct o as [tracker'|e|]; [|done..].
      eapply wp_mono; [apply IH|].
      intros o st (pre & last & Hpre & Hlast & ->). exists (image :: pre), last.
      split; [by constructor|]. split; [done|]. simpl.
      destruct (verbose cfg); by rewrite <- !app_assoc.
    + wp_step. exists [], [image]. simpl.
      split; [done|]. split; [by repeat constructor|].
      by destruct (verbose cfg); rewrite !app_nil_r.
Qed.


Lemma filter_live pre last :
  Forall (λ m, live m = true) pre → Forall (λ m, live m = false) last →
  filter live (pre ++ last) = pre.
Proof.
  intros Hpre Hlast. rewrite filter_app.
  assert (H1 : filter live pre = pre).
  { induction Hpre as [|m pre Hm _ IH]; [done|].
    rewrite filter_cons_True by (rewrite Hm; exact I). by rewrite IH. }
  assert (H2 : filter live last = []).
  { induction Hlast as [|m last Hm _ IH]; [done|].
    rewrite filter_cons_False by (rewrite Hm; simpl; auto). done. }
  by rewrite H1, H2, app_nil_r.
Qed.

(** X14.  The progress lines of the verbose modes count from 1.  With a
    wait time other than zero (so that no prompt is printed), the lines
    on the standard output of list mode are " Image i/N" for
    i = 1, 2, ... with N the length of the image list, one line for each
    image file read, in order; those of video mode are
    " Frame number i" for i = 1, 2, ..., one line for each frame that
    was pulled with a positive size.  Without [--verbose] nothing is
    printed. *)
Theorem progress_lines_count_from_1 cfg il v la images k :
  double_is_zero (wait_time cfg) = false →
  (read_list W il = Some images →
   let r := run_lists_mode W cfg (Some il) la k in
   omap stdout_text (events r)
   = if verbose cfg
     then (λ i, image_line i (int_wrap (Z.of_nat (length images))))
            <$> frame_numbers 1 (length (loaded_images (events r)))
     else [])
  ∧ (let r := run_video_mode W cfg (Some v) la k in
     omap stdout_text (events r)
     = if verbose cfg
       then frame_line <$> frame_numbers 1 (length (filter live (pulled (events r))))
       else []).
Proof.
  intros Hwait. split.
  - intros Hread r.
    assert (Hwp : wp (reporting loaded_image) (run_lists_mode W cfg (Some il) la)
              (λ _ st, ∃ pre,
                 st = (if verbose cfg
                       then (λ i, image_line i (int_wrap (Z.of_nat (length images))))
                              <$> frame_numbers 1 (length pre)
                       else [], pre))
              ([], [])).
    { unfold run_lists_mode.
      repeat wp_step; simplify_eq;
        try (exists []; simpl; by destruct (verbose cfg));
        (eapply wp_mono; [by apply lists_loop_reporting|]);
        (intros o st [pre ->]; destruct o; [|by exists pre..]);
        repeat wp_step; by exists pre. }
    pose proof (proj2 (Hwp k)) as [pre Hq]. fold r in Hq. clearbody r.
    rewrite reporting_after in Hq. cbn [app] in Hq. injection Hq as Ht Hp.
    unfold loaded_images. by rewrite Hp.
  - intros r.
    assert (Hwp : wp (reporting pulled_frame) (run_video_mode W cfg (Some v) la)
              (λ _ st, ∃ pre last,
                 Forall (λ m, live m = true) pre ∧ Forall (λ m, live m = false) last
                 ∧ st = (if verbose cfg
                         then frame_line <$> frame_numbers 1 (length pre)
                         else [], pre ++ last))
              ([], [])).
    { unfold run_video_mode.
      repeat wp_step; simplify_eq;
        try (exists [], []; simpl; by destruct (verbose cfg));
        (eapply wp_mono; [by apply video_loop_reporting|]);
        (intros o st (pre & last & Hpre & Hlast & ->);
         destruct o; [|by exists pre, last..]);
        repeat wp_step; by exists pre, last. }
    pose proof (proj2 (Hwp k)) as (pre & last & Hpre & Hlast & Hq).
    fold r in Hq. clearbody r.
    rewrite reporting_after in Hq. cbn [app] in Hq. injection Hq as Ht Hp.
    unfold pulled. by rewrite Hp, filter_live.
Qed.

End Progress.

Lemma progress_lines_witness :
  let tracker := Fixture.scripted [(7, Fixture.five_points)] in
  let W := Fixture.world Fixture.no_key in
  let cfg := set_verbose (set_wait_time (default_cfg (H := tracker)) one_thirtieth) true in
  let r := run_lists_mode (H := tracker) W cfg (Some "images.txt"%string)
             (Some "points.txt"%string) 0%nat in
  omap stdout_text (events r)
  = (if verbose cfg
     then (λ i, image_line i (int_wrap (Z.of_nat (length ["a.png"; "b.png"; "c.png"]%string))))
            <$> frame_numbers 1 (length (loaded_images (events r)))
     else [])
  ∧ omap stdout_text (events r) = [image_line 1 3; image_line 2 3; image_line 3 3].
Proof.
  intros tracker W cfg r. split.
  - exact (proj1 (progress_lines_count_from_1 (H := tracker) W cfg
                    "images.txt"%string "clip.avi"%string (Some "points.txt"%string)
                    ["a.png"; "b.png"; "c.png"]%string 0%nat eq_refl) eq_refl).
  - vm_compute. reflexivity.
Defined.

(** ** The defaults of the configuration *)

Section Defaults.

Context {T P : Type} `{FaceTracker T P} (W : World).

(** X15.  What the command line does not set keeps its default.  When
    the argument loop ends, the mode switches are off unless [--lists]
    or [--video] occurs on the command line; the wait time counts as not
    specified unless [--wait-time] occurs; the model and parameters
    pathnames are the tracker's default ones, the window title is
    "CSIRO Face Fit", the threshold is 5 and the run is not verbose,
    each unless its option occurs.  The circles are always drawn with
    radius 2, thickness 1, line type 8 and shift 0: no option changes
    them. *)
Theorem what_the_command_line_does_not_set_keeps_its_default args k l :
  outcome (argument_loop W args None None false false false default_cfg k)
  = Ret (Some l) →
  ("--lists"%string ∉ args → lists_mode l = false)
  ∧ ("--video"%string ∉ args → video_mode l = false)
  ∧ ("--wait-time"%string ∉ args → wait_time_specified l = false)
  ∧ ("--model"%string ∉ args →
     model_pathname (cfg l) = DefaultFaceTrackerModelPathname)
  ∧ ("--params"%string ∉ args →
     params_pathname (cfg l) = DefaultFaceTrackerParamsPathname)
  ∧ ("--title"%string ∉ args → window_title (cfg l) = "CSIRO Face Fit"%string)
  ∧ ("--threshold"%string ∉ args → tracking_threshold (cfg l) = 5)
  ∧ ("--verbose"%string ∉ args → verbose (cfg l) = false)
  ∧ circle_radius (cfg l) = 2 ∧ circle_thickness (cfg l) = 1
  ∧ circle_linetype (cfg l) = 8 ∧ circle_shift (cfg l) = 0.
Proof.
  intros Hl.
  destruct (argument_loop_keeps W (length args) args (Nat.le_refl _) _ _ _ _ _ _ _ _ Hl)
    as (H1 & H2 & H3 & H4 & H5 & H6 & H7 & H8 & H9 & H10 & H11 & H12).
  split_and!; try done. intros Hnot. by destruct (H3 Hnot).
Qed.

End Defaults.

Lemma defaults_witness :
  let tracker := Fixture.scripted [] in
  let W := Fixture.world Fixture.no_key in
  let l := {| image_argument := Some "a.png"%string; landmarks_argument := None;
              lists_mode := false; video_mode := false; wait_time_specified := false;
              cfg := set_verbose (set_window_title (default_cfg (H := tracker))
                                    "faces"%string) true |} in
  outcome (argument_loop W ["--title"; "faces"; "--verbose"; "a.png"]%string
             None None false false false (default_cfg (H := tracker)) 0%nat)
  = Ret (Some l)
  ∧ tracking_threshold (cfg l) = 5
  ∧ wait_time_specified l = false.
Proof.
  intros tracker W l.
  pose proof (what_the_command_line_does_not_set_keeps_its_default (H := tracker) W
                ["--title"; "faces"; "--verbose"; "a.png"]%string 0%nat l eq_refl)
    as (_ & _ & Hw & _ & _ & _ & Ht & _).
  split; [reflexivity|]. split.
  - apply Ht. intros Hin.
    repeat (apply elem_of_cons in Hin as [Hin|Hin]; [discriminate Hin|]).
    by apply elem_of_nil in Hin.
  - apply Hw. intros Hin.
    repeat (apply elem_of_cons in Hin as [Hin|Hin]; [discriminate Hin|]).
    by apply elem_of_nil in Hin.
Defined.

(** ** Argument processing goes from left to right *)

Section LeftToRight.

Context {T P : Type} `{FaceTracker T P} (W : World).

(** X16.  The argument loop reads the command line from left to right:
    when a first part of the command line is processed completely, with
    the local variables [s] as the result, the whole command line is
    processed as its remainder is from [s].  So an option with its value
    sets its field wherever it stands, and its last occurrence wins: the
    value is in the final configuration unless the option occurs again
    further to the right. *)
Theorem the_command_line_is_read_from_left_to_right pre k s :
  outcome (argument_loop W pre None None false false false default_cfg k)
  = Ret (Some s) →
  (∀ rest,
     argument_loop W (pre ++ rest) None None false false false default_cfg k
     = argument_loop W rest (image_argument s) (landmarks_argument s)
         (lists_mode s) (video_mode s) (wait_time_specified s) (cfg s) k)
  ∧ (∀ option value rest l,
       outcome (argument_loop W (pre ++ option :: value :: rest)
                  None None false false false default_cfg k) = Ret (Some l) →
       option ∉ rest →
       (option = "--model"%string → model_pathname (cfg l) = value)
       ∧ (option = "--params"%string → params_pathname (cfg l) = value)
       ∧ (option = "--title"%string → window_title (cfg l) = value)
       ∧ (option = "--threshold"%string →
          read_int W value = Some (tracking_threshold (cfg l)))
       ∧ (option = "--wait-time"%string →
          read_double W value = Some (wait_time (cfg l))
          ∧ wait_time_specified l = true)).
Proof.
  intros Hs. split.
  - intros rest. by apply (argument_loop_app W (length pre)).
  - intros option value rest l Hl Hnot.
    rewrite (argument_loop_app W (length pre) pre (Nat.le_refl _) _ _ _ _ _ _ _ _ _ Hs)
      in Hl.
    split_and!; intros ->.
    + rewrite (proj1 (argument_loop_valued W value rest _ _ _ _ _ _ k)) in Hl.
      by destruct (argument_loop_keeps W _ _ (Nat.le_refl _) _ _ _ _ _ _ _ _ Hl)
        as (_ & _ & _ & -> & _).
    + rewrite (proj1 (proj2 (argument_loop_valued W value rest _ _ _ _ _ _ k))) in Hl.
      by destruct (argument_loop_keeps W _ _ (Nat.le_refl _) _ _ _ _ _ _ _ _ Hl)
        as (_ & _ & _ & _ & -> & _).
    + rewrite (proj1 (proj2 (proj2 (argument_loop_valued W value rest _ _ _ _ _ _ k))))
        in Hl.
      by destruct (argument_loop_keeps W _ _ (Nat.le_refl _) _ _ _ _ _ _ _ _ Hl)
        as (_ & _ & _ & _ & _ & -> & _).
    + destruct (argument_loop_valued W value rest
                  (image_argument s) (landmarks_argument s) (lists_mode s)
                  (video_mode s) (wait_time_specified s) (cfg s) k)
        as (_ & _ & _ & Ht & _).
      destruct (read_int W value) as [t|]; [|by destruct (Ht _ Hl)].
      rewrite Ht in Hl.
      by destruct (argument_loop_keeps W _ _ (Nat.le_refl _) _ _ _ _ _ _ _ _ Hl)
        as (_ & _ & _ & _ & _ & _ & -> & _).
    + destruct (argument_loop_valued W value rest
                  (image_argument s) (landmarks_argument s) (lists_mode s)
                  (video_mode s) (wait_time_specified s) (cfg s) k)
        as (_ & _ & _ & _ & Hw).
      destruct (read_double W value) as [v|]; [|by destruct (Hw _ Hl)].
      rewrite Hw in Hl.
      destruct (argument_loop_keeps W _ _ (Nat.le_refl _) _ _ _ _ _ _ _ _ Hl)
        as (_ & _ & Hkeep & _).
      by destruct (Hkeep Hnot) as [-> ->].
Qed.

End LeftToRight.

Lemma left_to_right_witness :
  let tracker := Fixture.scripted [] in
  let W := Fixture.world Fixture.no_key in
  let l := {| image_argument := Some "x.png"%string; landmarks_argument := None;
              lists_mode := false; video_mode := false; wait_time_specified := false;
              cfg := set_verbose (set_window_title
                                    (set_window_title (default_cfg (H := tracker))
                                       "first"%string) "second"%string) true |} in
  outcome (argument_loop W ["--title"; "first"; "x.png"; "--title"; "second";
                            "--verbose"]%string
             None None false false false (default_cfg (H := tracker)) 0%nat)
  = Ret (Some l)
  ∧ window_title (cfg l) = "second"%string.
Proof.
  intros tracker W l. split; [reflexivity|].
  pose proof (the_command_line_is_read_from_left_to_right (H := tracker) W
                ["--title"; "first"; "x.png"]%string 0%nat
                {| image_argument := Some "x.png"%string; landmarks_argument := None;
                   lists_mode := false; video_mode := false;
                   wait_time_specified := false;
                   cfg := set_window_title (default_cfg (H := tracker))
                            "first"%string |} eq_refl) as [_ Hoption].
  assert (Hnot : "--title"%string ∉ ["--verbose"%string]).
  { intros Hin. apply elem_of_cons in Hin as [Hin|Hin]; [discriminate Hin|].
    by apply elem_of_nil in Hin. }
  destruct (Hoption "--title"%string "second"%string ["--verbose"%string] l
              eq_refl Hnot) as (_ & _ & Htitle & _).
  exact (Htitle eq_refl).
Defined.
